(** * The RSS manager of carter-bot: feed registry, polling and persistence

    A shallow embedding of [utils/rssManager.js] (class [RSSManager]):
    the in-memory registry [this.feeds] (a [Map] of channel id to a [Map] of
    feed URL to feed record), [addFeed], [removeFeed], [getChannelFeeds],
    [checkFeed] with its new-item loop, [postFeedItem], [saveFeeds],
    [loadFeeds], [getTotalFeedCount] and [getStatistics].

    The code is asynchronous JavaScript; it is modelled sequentially, one
    call at a time.  What a call obtains from the outside world (the result
    of [parser.parseURL], whether [channel.send] and [fs.writeJson] succeed,
    the clock) is an explicit argument, and what it does to the outside
    world is returned as a trace of events.  The cron timers ([cronJobs])
    are not part of the model. *)

From stdpp Require Import gmap strings list fin_maps.
From stdpp Require Import pretty.

(** ** JavaScript values used as identifiers and texts *)

(** [lastPostId], [item.guid], [feed.title] and the like hold [null],
    [undefined] or a string. *)
Inductive jsval : Type :=
  | JNull
  | JUndefined
  | JStr (s : string).

#[global] Instance jsval_eq_dec : EqDecision jsval.
Proof. solve_decision. Defined.

(** JavaScript truthiness: [null], [undefined] and the empty string are
    falsy. *)
Definition truthy (v : jsval) : bool :=
  match v with
  | JStr s => negb (String.eqb s "")
  | _ => false
  end.

(** [a === b] on these values. *)
Definition strict_eq (a b : jsval) : bool := bool_decide (a = b).

(** [a || b]. *)
Definition js_or (a b : jsval) : jsval := if truthy a then a else b.

(** [n || d] on numbers: [0] is falsy. *)
Definition num_or (n d : Z) : Z := if Z.eqb n 0 then d else n.

(** ** Data model *)

(** One feed record of [this.feeds.get(channelId)].  [lastChecked] is a
    [Date] (milliseconds since the epoch) or [null]. *)
Record FeedInfo : Type := mkFeedInfo {
  url : string;
  interval : Z;
  lastChecked : option Z;
  lastPostId : jsval;
  active : bool;
  title : jsval;
  description : jsval
}.

#[global] Instance FeedInfo_eq_dec : EqDecision FeedInfo.
Proof. solve_decision. Defined.

Definition set_title (t : jsval) (f : FeedInfo) : FeedInfo :=
  mkFeedInfo (url f) (interval f) (lastChecked f) (lastPostId f) (active f)
             t (description f).
Definition set_description (d : jsval) (f : FeedInfo) : FeedInfo :=
  mkFeedInfo (url f) (interval f) (lastChecked f) (lastPostId f) (active f)
             (title f) d.
Definition set_lastPostId (w : jsval) (f : FeedInfo) : FeedInfo :=
  mkFeedInfo (url f) (interval f) (lastChecked f) w (active f)
             (title f) (description f).
Definition set_lastChecked (t : option Z) (f : FeedInfo) : FeedInfo :=
  mkFeedInfo (url f) (interval f) t (lastPostId f) (active f)
             (title f) (description f).

(** One item of a parsed document, as [rss-parser] returns it. *)
Record Item : Type := mkItem {
  guid : jsval;
  item_title : jsval;
  link : jsval
}.

#[global] Instance Item_eq_dec : EqDecision Item.
Proof. solve_decision. Defined.

(** A parsed document: the result of [parser.parseURL]. *)
Record Feed : Type := mkFeed {
  feed_title : jsval;
  feed_description : jsval;
  items : list Item
}.

(** [this.config]; only the two fields the registry reads. *)
Record Config : Type := mkConfig {
  defaultInterval : Z;
  maxFeedsPerChannel : nat
}.

(** The configuration set by the constructor. *)
Definition default_config : Config := mkConfig 300000 10.

(** One record of [feeds.json].  A field that may be missing from the file
    is an [option] ([None]: missing or [null]); for the texts, a missing
    property reads as [JUndefined].  [s_lastChecked] stands for the ISO-8601
    string of that instant, which [new Date] reads back to the millisecond;
    these are the strings [saveFeeds] writes, and a file edited by hand to
    hold another string there is not represented. *)
Record StoredFeed : Type := mkStoredFeed {
  s_url : string;
  s_interval : option Z;
  s_lastChecked : option Z;
  s_lastPostId : jsval;
  s_active : option bool;
  s_title : jsval;
  s_description : jsval
}.

(** What is found at [this.feedsFile]. *)
Inductive Storage : Type :=
  | FileAbsent
  | FileCorrupt
  | FileData (feedData : gmap string (gmap string StoredFeed)).

(** The manager together with the file it persists to.  [client] tells
    whether [this.client] has been set by [startFeedChecking]. *)
Record RSSManager : Type := mkRSSManager {
  feeds : gmap string (gmap string FeedInfo);
  config : Config;
  client : bool;
  feedsFile : Storage
}.

Definition set_feeds (m : gmap string (gmap string FeedInfo)) (s : RSSManager)
  : RSSManager :=
  mkRSSManager m (config s) (client s) (feedsFile s).
Definition set_feedsFile (d : Storage) (s : RSSManager) : RSSManager :=
  mkRSSManager (feeds s) (config s) (client s) d.

(** The state the constructor builds, before [initialize]. *)
Definition new_manager (disk : Storage) : RSSManager :=
  mkRSSManager ∅ default_config false disk.

(** ** Events: what a call does to the outside world *)

Inductive event : Type :=
  | EvFetch (feedUrl : string)
  | EvPost (channelId : string) (item : Item) (sent : bool)
  | EvDelay (ms : Z)
  | EvSave (written : bool).

(** The items handed to [postFeedItem], in call order. *)
Fixpoint posted (tr : list event) : list Item :=
  match tr with
  | [] => []
  | EvPost _ it _ :: tr' => it :: posted tr'
  | _ :: tr' => posted tr'
  end.

(** The items that [channel.send] accepted. *)
Fixpoint delivered (tr : list event) : list Item :=
  match tr with
  | [] => []
  | EvPost _ it true :: tr' => it :: delivered tr'
  | _ :: tr' => delivered tr'
  end.

(** The URLs fetched and the outcomes of the saves. *)
Fixpoint fetches (tr : list event) : list string :=
  match tr with
  | [] => []
  | EvFetch u :: tr' => u :: fetches tr'
  | _ :: tr' => fetches tr'
  end.

Fixpoint saves (tr : list event) : list bool :=
  match tr with
  | [] => []
  | EvSave b :: tr' => b :: saves tr'
  | _ :: tr' => saves tr'
  end.

(** ** Persistence: [saveFeeds] and [loadFeeds] *)

(** The object written for one feed record. *)
Definition toStored (f : FeedInfo) : StoredFeed :=
  mkStoredFeed (url f) (Some (interval f)) (lastChecked f) (lastPostId f)
               (Some (active f)) (title f) (description f).

(** The record built by [loadFeeds] from one stored object. *)
Definition fromStored (cfg : Config) (sf : StoredFeed) : FeedInfo :=
  mkFeedInfo (s_url sf)
             (match s_interval sf with
              | Some n => num_or n (defaultInterval cfg)
              | None => defaultInterval cfg
              end)
             (s_lastChecked sf)
             (js_or (s_lastPostId sf) JNull)
             (match s_active sf with Some false => false | _ => true end)
             (js_or (s_title sf) (JStr "Unknown Feed"))
             (js_or (s_description sf) (JStr "")).

(** The object [feedData] that [saveFeeds] builds from the registry. *)
Definition toFeedData (m : gmap string (gmap string FeedInfo))
  : gmap string (gmap string StoredFeed) :=
  (λ channelFeeds : gmap string FeedInfo, toStored <$> channelFeeds) <$> m.

(** [saveFeeds]: [written] tells whether [fs.writeJson] succeeds; when it
    does not, the exception is rethrown, which the result [false] stands
    for, and the file is left as it was. *)
Definition saveFeeds (written : bool) (s : RSSManager) : RSSManager * bool :=
  if written
  then (set_feedsFile (FileData (toFeedData (feeds s))) s, true)
  else (s, false).

(** What [loadFeeds] leaves under one channel id: [stored] is the channel's
    object in the file, [old] the channel's map already in the registry. *)
Definition loadChannel (cfg : Config)
    (stored : option (gmap string StoredFeed))
    (old : option (gmap string FeedInfo)) : option (gmap string FeedInfo) :=
  match stored with
  | Some channelFeeds =>
      Some ((fromStored cfg <$> channelFeeds) ∪ default ∅ old)
  | None => old
  end.

(** [loadFeeds]: every channel of the file gets a map (created when
    missing), into which every stored feed is set under its key.  A missing
    file leaves the registry as it is; a file that cannot be read resets it
    to the empty map. *)
Definition loadFeeds (s : RSSManager) : RSSManager :=
  match feedsFile s with
  | FileAbsent => s
  | FileCorrupt => set_feeds ∅ s
  | FileData feedData =>
      set_feeds (merge (loadChannel (config s)) feedData (feeds s)) s
  end.

(** ** The registry operations *)

Inductive Validation : Type :=
  | Valid (feed : Feed)
  | Invalid (error : string).

(** The result objects of [addFeed], by their message. *)
Inductive AddResult : Type :=
  | AddOk (feedInfo : FeedInfo)
  | AddInvalidFeed (error : string)
  | AddLimitExceeded
  | AddAlreadyExists
  | AddError.

(** [addFeed channelId feedUrl interval]: [validated] is the result of
    [validateFeed feedUrl], [written] whether the save succeeds.  The
    optional [interval] is [None] for [null]. *)
Definition addFeed (validated : Validation) (written : bool)
    (s : RSSManager) (channelId feedUrl : string) (interval : option Z)
  : RSSManager * AddResult :=
  match validated with
  | Invalid error => (s, AddInvalidFeed error)
  | Valid feed =>
      let feeds1 :=
        match feeds s !! channelId with
        | Some _ => feeds s
        | None => <[channelId := ∅]> (feeds s)
        end in
      let channelFeeds := default ∅ (feeds1 !! channelId) in
      if bool_decide (maxFeedsPerChannel (config s) ≤ size channelFeeds)
      then (set_feeds feeds1 s, AddLimitExceeded)
      else if bool_decide (is_Some (channelFeeds !! feedUrl))
      then (set_feeds feeds1 s, AddAlreadyExists)
      else
        let feedData :=
          mkFeedInfo feedUrl
                     (match interval with
                      | Some n => num_or n (defaultInterval (config s))
                      | None => defaultInterval (config s)
                      end)
                     None JNull true
                     (js_or (feed_title feed) (JStr "Unknown Feed"))
                     (js_or (feed_description feed) (JStr "")) in
        let s1 :=
          set_feeds
            (<[channelId := <[feedUrl := feedData]> channelFeeds]> feeds1) s in
        match saveFeeds written s1 with
        | (s2, true) => (s2, AddOk feedData)
        | (s2, false) => (s2, AddError)
        end
  end.

Inductive RemoveResult : Type :=
  | RemoveOk
  | RemoveNoChannel
  | RemoveNotFound
  | RemoveError.

(** [removeFeed channelId feedUrl]. *)
Definition removeFeed (written : bool) (s : RSSManager)
    (channelId feedUrl : string) : RSSManager * RemoveResult :=
  match feeds s !! channelId with
  | None => (s, RemoveNoChannel)
  | Some channelFeeds =>
      match channelFeeds !! feedUrl with
      | None => (s, RemoveNotFound)
      | Some _ =>
          let channelFeeds1 := delete feedUrl channelFeeds in
          let feeds1 :=
            if bool_decide (size channelFeeds1 = 0)
            then delete channelId (feeds s)
            else <[channelId := channelFeeds1]> (feeds s) in
          match saveFeeds written (set_feeds feeds1 s) with
          | (s2, true) => (s2, RemoveOk)
          | (s2, false) => (s2, RemoveError)
          end
      end
  end.

(** One element of the array [getChannelFeeds] returns. *)
Record FeedListing : Type := mkFeedListing {
  l_url : string;
  l_title : jsval;
  l_description : jsval;
  l_active : bool;
  l_lastChecked : option Z;
  l_interval : Z
}.

(** [getChannelFeeds channelId]: one element for each feed of the channel.
    The array of the code follows the insertion order of the [Map]; the
    list here follows [map_to_list], and what is stated of it holds of any
    reordering. *)
Definition getChannelFeeds (s : RSSManager) (channelId : string)
  : list FeedListing :=
  match feeds s !! channelId with
  | None => []
  | Some channelFeeds =>
      (λ kv, mkFeedListing kv.1 (title kv.2) (description kv.2)
                            (active kv.2) (lastChecked kv.2) (interval kv.2))
        <$> map_to_list channelFeeds
  end.

Definition getTotalFeedCount (s : RSSManager) : nat :=
  map_fold (λ _ channelFeeds count, count + size channelFeeds) 0 (feeds s).

(** The two counts of [getStatistics] that are read off the registry;
    [activeJobs] and the copy of the configuration are left out. *)
Record Statistics : Type := mkStatistics {
  totalFeeds : nat;
  totalChannels : nat
}.

Definition getStatistics (s : RSSManager) : Statistics :=
  mkStatistics (getTotalFeedCount s) (size (feeds s)).

(** ** Polling: [checkFeed] and [postFeedItem] *)

(** What one call of [checkFeed] meets outside: the clock, the result of
    [parser.parseURL] ([None]: it throws), whether sending a given item to
    the channel succeeds, and whether the save succeeds. *)
Record PollEnv : Type := mkPollEnv {
  now : Z;
  fetched : option Feed;
  send : Item → bool;
  written : bool
}.

(** [postFeedItem]: a channel that is not found and an exception of
    [channel.send] are both logged inside the function, which returns
    normally either way. *)
Definition postFeedItem (send : Item → bool) (channelId : string)
    (feed : Feed) (item : Item) : list event :=
  [EvPost channelId item (send item)].

(** The loop [for (const item of feed.items)] that fills [newItems]. *)
Fixpoint collectNewItems (lastPostId : jsval) (feedItems newItems : list Item)
  : list Item :=
  match feedItems with
  | [] => newItems
  | item :: rest =>
      if truthy lastPostId && strict_eq (guid item) lastPostId
      then newItems
      else
        let newItems1 := newItems ++ [item] in
        if bool_decide (5 ≤ length newItems1)
        then newItems1
        else collectNewItems lastPostId rest newItems1
  end.

(** The loop [for (const item of newItems)] that posts; [n] is
    [newItems.length]. *)
Fixpoint postItems (send : Item → bool) (channelId : string) (feed : Feed)
    (n : nat) (batch : list Item) : list event :=
  match batch with
  | [] => []
  | item :: rest =>
      postFeedItem send channelId feed item
        ++ (if bool_decide (1 < n) then [EvDelay 1000] else [])
        ++ postItems send channelId feed n rest
  end.

(** The body of [checkFeed] on the feed record, after a successful parse and
    before [lastChecked] is set: the refreshed record and the events of the
    posts. *)
Definition checkItems (send : Item → bool) (channelId : string) (feed : Feed)
    (feedInfo : FeedInfo) : FeedInfo * list event :=
  let feedInfo1 :=
    if negb (strict_eq (feed_title feed) (title feedInfo))
    then set_title (feed_title feed) feedInfo else feedInfo in
  let feedInfo2 :=
    if negb (strict_eq (feed_description feed) (description feedInfo1))
    then set_description (feed_description feed) feedInfo1 else feedInfo1 in
  match items feed with
  | [] => (feedInfo2, [])
  | latestItem :: _ =>
      if negb (truthy (lastPostId feedInfo2))
         || negb (strict_eq (lastPostId feedInfo2) (guid latestItem))
      then
        let newItems :=
          reverse (collectNewItems (lastPostId feedInfo2) (items feed) []) in
        (set_lastPostId (guid latestItem) feedInfo2,
         postItems send channelId feed (length newItems) newItems)
      else (feedInfo2, [])
  end.

(** [checkFeed channelId feedUrl].  An exception of [parser.parseURL] or of
    [saveFeeds] is caught and logged; the statements after the throwing one
    are skipped. *)
Definition checkFeed (env : PollEnv) (s : RSSManager)
    (channelId feedUrl : string) : RSSManager * list event :=
  if negb (client s) then (s, [])
  else
    match feeds s !! channelId with
    | None => (s, [])
    | Some channelFeeds =>
        match channelFeeds !! feedUrl with
        | None => (s, [])
        | Some feedInfo =>
            if negb (active feedInfo) then (s, [])
            else
              match fetched env with
              | None => (s, [EvFetch feedUrl])
              | Some feed =>
                  let '(feedInfo1, posts) :=
                    checkItems (send env) channelId feed feedInfo in
                  let feedInfo2 := set_lastChecked (Some (now env)) feedInfo1 in
                  let s1 :=
                    set_feeds
                      (<[channelId := <[feedUrl := feedInfo2]> channelFeeds]>
                         (feeds s)) s in
                  let '(s2, ok) := saveFeeds (written env) s1 in
                  (s2, EvFetch feedUrl :: posts ++ [EvSave ok])
              end
        end
    end.

(** The feed record of [(channelId, feedUrl)], if any. *)
Definition getFeed (s : RSSManager) (channelId feedUrl : string)
  : option FeedInfo :=
  feeds s !! channelId ≫= λ channelFeeds, channelFeeds !! feedUrl.

(** Successive ticks of the timer of one feed: the state after the last
    one and the trace of each. *)
Fixpoint runPolls (envs : list PollEnv) (s : RSSManager)
    (channelId feedUrl : string) : RSSManager * list (list event) :=
  match envs with
  | [] => (s, [])
  | env :: envs' =>
      let '(s1, tr) := checkFeed env s channelId feedUrl in
      let '(s2, trs) := runPolls envs' s1 channelId feedUrl in
      (s2, tr :: trs)
  end.

(** ** Reference notions for the statements *)

(** [item] is the one the watermark [w] points at: the test of the loop. *)
Definition is_watermark (w : jsval) (item : Item) : bool :=
  truthy w && strict_eq (guid item) w.

(** The items of a document that come before the first one matching the
    watermark, in document order; all of them when none matches or the
    watermark is falsy. *)
Fixpoint unseen (w : jsval) (feedItems : list Item) : list Item :=
  match feedItems with
  | [] => []
  | item :: rest => if is_watermark w item then [] else item :: unseen w rest
  end.

(** The watermark as the code reads it: an identifier when the stored value
    is truthy, absent otherwise. *)
Definition watermark_of (v : jsval) : option string :=
  match v with
  | JStr s => if String.eqb s "" then None else Some s
  | _ => None
  end.

(** Later ticks of a feed whose provider lists newest first: each document
    fetched after [doc] puts fresh items in front of a (possibly shortened)
    [doc], and the item [x] is not published again as a fresh one. *)
Fixpoint later_documents (x : Item) (doc : list Item) (envs : list PollEnv)
  : Prop :=
  match envs with
  | [] => True
  | env :: envs' =>
      match fetched env with
      | None => later_documents x doc envs'
      | Some feed' =>
          (∃ fresh k, items feed' = fresh ++ take k doc ∧ x ∉ fresh)
          ∧ later_documents x (items feed') envs'
      end
  end.

Definition set_send (send' : Item → bool) (env : PollEnv) : PollEnv :=
  mkPollEnv (now env) (fetched env) send' (written env).

(** ** The manager as a transition system *)

(** [startFeedChecking client] stores the client. *)
Definition startFeedChecking (s : RSSManager) : RSSManager :=
  mkRSSManager (feeds s) (config s) true (feedsFile s).

(** A new process: the constructor, then [initialize], which calls
    [loadFeeds] (under the constructor's configuration) and then
    [loadConfig], after which the configuration is [cfg]. *)
Definition initialize (cfg : Config) (disk : Storage) : RSSManager :=
  mkRSSManager (feeds (loadFeeds (new_manager disk))) cfg false disk.

Inductive Op : Type :=
  | OpAddFeed (validated : Validation) (written : bool)
              (channelId feedUrl : string) (interval : option Z)
  | OpRemoveFeed (written : bool) (channelId feedUrl : string)
  | OpCheckFeed (env : PollEnv) (channelId feedUrl : string)
  | OpSaveFeeds (written : bool)
  | OpStartFeedChecking
  | OpRestart.

Definition exec (op : Op) (s : RSSManager) : RSSManager :=
  match op with
  | OpAddFeed validated written channelId feedUrl interval =>
      (addFeed validated written s channelId feedUrl interval).1
  | OpRemoveFeed written channelId feedUrl =>
      (removeFeed written s channelId feedUrl).1
  | OpCheckFeed env channelId feedUrl =>
      (checkFeed env s channelId feedUrl).1
  | OpSaveFeeds written => (saveFeeds written s).1
  | OpStartFeedChecking => startFeedChecking s
  | OpRestart => initialize (config s) (feedsFile s)
  end.

(** How one call of [addFeed], [removeFeed] or [checkFeed] can change the
    registry. *)
Inductive feeds_step (cfg : Config) (m : gmap string (gmap string FeedInfo))
  : gmap string (gmap string FeedInfo) → Prop :=
  | step_same : feeds_step cfg m m
  | step_empty_channel c :
      m !! c = None → maxFeedsPerChannel cfg = 0 →
      feeds_step cfg m (<[c := ∅]> m)
  | step_add c u fd i :
      default ∅ (m !! c) !! u = None →
      size (default ∅ (m !! c)) < maxFeedsPerChannel cfg →
      interval fd = match i with
                    | Some n => num_or n (defaultInterval cfg)
                    | None => defaultInterval cfg
                    end →
      feeds_step cfg m (<[c := <[u := fd]> (default ∅ (m !! c))]> m)
  | step_remove c u cf :
      m !! c = Some cf → is_Some (cf !! u) →
      feeds_step cfg m (if bool_decide (size (delete u cf) = 0)
                        then delete c m
                        else <[c := delete u cf]> m)
  | step_update c u cf fi fi' :
      m !! c = Some cf → cf !! u = Some fi → interval fi' = interval fi →
      feeds_step cfg m (<[c := <[u := fi']> cf]> m).

(** The channels recorded in the file; none when there is no readable
    file. *)
Definition stored_feeds (d : Storage) : gmap string (gmap string StoredFeed) :=
  match d with
  | FileData feedData => feedData
  | _ => ∅
  end.

(** No channel holds more than [cap] feeds. *)
Definition within_cap {A} (cap : nat) (m : gmap string (gmap string A)) : Prop :=
  map_Forall (λ _ cf, size cf ≤ cap) m.

Definition capacity_inv (s : RSSManager) : Prop :=
  within_cap (maxFeedsPerChannel (config s)) (feeds s)
  ∧ within_cap (maxFeedsPerChannel (config s)) (stored_feeds (feedsFile s)).

(** No channel key maps to an empty map. *)
Definition no_empty_channel {A} (m : gmap string (gmap string A)) : Prop :=
  map_Forall (λ _ cf, size cf ≠ 0) m.

Definition nonempty_inv (s : RSSManager) : Prop :=
  no_empty_channel (feeds s) ∧ no_empty_channel (stored_feeds (feedsFile s)).

(** Every interval is a non-zero number of milliseconds. *)
Definition intervals_nonzero (m : gmap string (gmap string FeedInfo)) : Prop :=
  ∀ c cf u f, m !! c = Some cf → cf !! u = Some f → interval f ≠ 0%Z.

(** Two records with the same URL, watermark, interval, active flag and
    time of last check. *)
Definition same_entry (f f' : FeedInfo) : Prop :=
  url f = url f'
  ∧ watermark_of (lastPostId f) = watermark_of (lastPostId f')
  ∧ interval f = interval f'
  ∧ active f = active f'
  ∧ lastChecked f = lastChecked f'.

(** Two registries with the same destinations, the same URLs under each
    destination and the same entry under each URL. *)
Definition registry_equiv (m m' : gmap string (gmap string FeedInfo)) : Prop :=
  dom m = dom m'
  ∧ ∀ c cf cf', m !! c = Some cf → m' !! c = Some cf' →
      dom cf = dom cf'
      ∧ ∀ u f f', cf !! u = Some f → cf' !! u = Some f' → same_entry f f'.

(** ** Sample data *)

Definition sample_item (g : string) : Item :=
  mkItem (JStr g) (JStr ("Post " +:+ g)) (JStr ("https://example.org/" +:+ g)).

Definition sample_feed (ids : list string) : Feed :=
  mkFeed (JStr "Example") (JStr "An example feed") (sample_item <$> ids).

Definition sample_env (ids : list string) : PollEnv :=
  mkPollEnv 1000 (Some (sample_feed ids)) (λ _, true) true.

Definition failing_env : PollEnv := mkPollEnv 1000 None (λ _, true) true.

Definition sample_url : string := "https://example.org/rss".

(** A feed just added to channel ["chan"] of a new manager whose client is
    set. *)
Definition sample_added : RSSManager :=
  (addFeed (Valid (sample_feed ["A"; "B"; "C"])) true
           (startFeedChecking (new_manager FileAbsent))
           "chan" sample_url None).1.

(** The same manager with the watermark of the feed set to [w] and its
    active flag to [a]. *)
Definition sample_state (w : jsval) (a : bool) : RSSManager :=
  mkRSSManager
    {[ "chan" := {[ sample_url :=
         mkFeedInfo sample_url 300000 None w a (JStr "Example")
                    (JStr "An example feed") ]} ]}
    default_config true FileAbsent.

(** A manager whose channel ["chan"] holds the feeds of the given URLs. *)
Definition sample_channel (urls : list string) : RSSManager :=
  mkRSSManager
    {[ "chan" := list_to_map
         ((λ u, (u, mkFeedInfo u 300000 None JNull true (JStr "Example")
                               (JStr "An example feed"))) <$> urls) ]}
    default_config true FileAbsent.

Definition nine_urls : list string :=
  ["u1"; "u2"; "u3"; "u4"; "u5"; "u6"; "u7"; "u8"; "u9"].

(** A document with eight items in front of the item ["W"]. *)
Definition eight_new : list string :=
  ["N1"; "N2"; "N3"; "N4"; "N5"; "N6"; "N7"; "N8"; "W"; "O1"].

(** An environment in which sending the item of identifier [bad] fails. *)
Definition flaky_env (ids : list string) (bad : string) : PollEnv :=
  mkPollEnv 1000 (Some (sample_feed ids))
            (λ it, negb (bool_decide (guid it = JStr bad))) true.

Definition ten_urls : list string := nine_urls ++ ["u10"].

(** A manager configured with a cap of zero feeds per channel. *)
Definition zero_cap_manager : RSSManager :=
  mkRSSManager ∅ (mkConfig 300000 0) true FileAbsent.

Definition add_succeeded (r : AddResult) : bool :=
  match r with
  | AddOk _ => true
  | _ => false
  end.

(** The manager after ["u10"] was added as tenth feed of a channel of
    nine. *)
Definition after_tenth_add : RSSManager * AddResult :=
  addFeed (Valid (sample_feed ["A"])) true (sample_channel nine_urls)
          "chan" "u10" None.

(** The manager of cap zero after an [addFeed] on a channel without key. *)
Definition after_zero_cap_add : RSSManager :=
  (addFeed (Valid (sample_feed ["A"])) true zero_cap_manager
           "chan" sample_url None).1.

(** The sample manager after a first poll of its feed. *)
Definition sample_polled : RSSManager :=
  (checkFeed (sample_env ["A"; "B"; "C"]) sample_added "chan" sample_url).1.

(** The sample manager of watermark ["W"] after a poll of the document
    [eight_new], which has eight items in front of ["W"]. *)
Definition after_capped_poll : RSSManager :=
  (checkFeed (sample_env eight_new) (sample_state (JStr "W") true)
             "chan" sample_url).1.

(** A manager whose [config.json] gives a default interval of zero, and
    the same after a feed was added without an interval of its own. *)
Definition zero_default_manager : RSSManager :=
  mkRSSManager ∅ (mkConfig 0 10) true FileAbsent.

Definition zero_interval_added : RSSManager :=
  (addFeed (Valid (sample_feed ["A"])) true zero_default_manager
           "chan" sample_url None).1.

(** What a new process loads from the file of [zero_interval_added]. *)
Definition zero_interval_reloaded : RSSManager :=
  initialize (config zero_interval_added)
             (feedsFile (saveFeeds true zero_interval_added).1).

(** ** The cron jobs: [startFeedCheck], [stopFeedCheck] and their callers *)

(** One entry of [this.cronJobs]: the job created by
    [cron.schedule(cronExpression, () => this.checkFeed(channelId, feedUrl))],
    that is the expression it was given and the two arguments of the call
    it makes.  When the expression makes the job fire is the matter of the
    cron library and is not modelled. *)
Record CronJob : Type := mkCronJob {
  job_channel : string;
  job_url : string;
  job_expression : string
}.

#[global] Instance CronJob_eq_dec : EqDecision CronJob.
Proof. solve_decision. Defined.

(** The key [`${channelId}-${feedUrl}`]. *)
Definition feedKey (channelId feedUrl : string) : string :=
  channelId +:+ "-" +:+ feedUrl.

(** [Math.max(1, Math.floor(feedInfo.interval / 60000))]. *)
Definition intervalMinutes (interval : Z) : Z :=
  Z.max 1 (interval / 60000).

(** The template [`*/${intervalMinutes} * * * *`]. *)
Definition cronExpression (intervalMinutes : Z) : string :=
  "*/" +:+ pretty intervalMinutes +:+ " * * * *".

(** [stopFeedCheck]: the job under the key, if any, is stopped, destroyed
    and deleted. *)
Definition stopFeedCheck (jobs : gmap string CronJob)
    (channelId feedUrl : string) : gmap string CronJob :=
  delete (feedKey channelId feedUrl) jobs.

(** [startFeedCheck]: [schedule_ok e] tells whether [cron.schedule] accepts
    the expression [e]; when it throws, the exception is logged and no job
    is stored. *)
Definition startFeedCheck (schedule_ok : string → bool) (s : RSSManager)
    (jobs : gmap string CronJob) (channelId feedUrl : string)
  : gmap string CronJob :=
  let jobs1 := stopFeedCheck jobs channelId feedUrl in
  match getFeed s channelId feedUrl with
  | None => jobs1
  | Some feedInfo =>
      if negb (active feedInfo) then jobs1
      else
        let expression := cronExpression (intervalMinutes (interval feedInfo)) in
        if schedule_ok expression
        then <[feedKey channelId feedUrl
               := mkCronJob channelId feedUrl expression]> jobs1
        else jobs1
  end.

(** The loops of [startFeedChecking] over the registry; [order] lists the
    pairs (channel, URL) in the iteration order of the two [Map]s. *)
Definition startFeedChecking_jobs (schedule_ok : string → bool) (s : RSSManager)
    (jobs : gmap string CronJob) (order : list (string * string))
  : gmap string CronJob :=
  foldl (λ jobs1 cu, startFeedCheck schedule_ok s jobs1 cu.1 cu.2) jobs order.

(** [order] lists the feeds of the registry. *)
Definition enumerates (s : RSSManager) (order : list (string * string)) : Prop :=
  ∀ c u, (c, u) ∈ order ↔ is_Some (getFeed s c u).

(** [stopFeedChecking]: every job is stopped and the map cleared. *)
Definition stopFeedChecking (jobs : gmap string CronJob)
  : gmap string CronJob := ∅.

(** The cron jobs after [addFeed]: [startFeedCheck] is called once the save
    succeeded. *)
Definition addFeed_jobs (schedule_ok : string → bool) (validated : Validation)
    (written : bool) (s : RSSManager) (jobs : gmap string CronJob)
    (channelId feedUrl : string) (interval : option Z)
  : gmap string CronJob :=
  match addFeed validated written s channelId feedUrl interval with
  | (s', AddOk _) => startFeedCheck schedule_ok s' jobs channelId feedUrl
  | _ => jobs
  end.

(** The cron jobs after [removeFeed]: [stopFeedCheck] is called once the
    record was found and deleted, before the save. *)
Definition removeFeed_jobs (written : bool) (s : RSSManager)
    (jobs : gmap string CronJob) (channelId feedUrl : string)
  : gmap string CronJob :=
  match removeFeed written s channelId feedUrl with
  | (_, RemoveOk) | (_, RemoveError) => stopFeedCheck jobs channelId feedUrl
  | _ => jobs
  end.

(** Every job belongs to a feed that is registered and active, under the
    key of that feed and with the expression made from the interval of that
    feed. *)
Definition jobs_inv (s : RSSManager) (jobs : gmap string CronJob) : Prop :=
  map_Forall
    (λ key job,
       key = feedKey (job_channel job) (job_url job)
       ∧ ∃ feedInfo,
           getFeed s (job_channel job) (job_url job) = Some feedInfo
           ∧ active feedInfo = true
           ∧ job_expression job
             = cronExpression (intervalMinutes (interval feedInfo)))
    jobs.

(** No character of the string is a hyphen (code 45). *)
Fixpoint hyphen_free (s : string) : bool :=
  match s with
  | EmptyString => true
  | String a s' => negb (Ascii.eqb a (Ascii.ascii_of_nat 45)) && hyphen_free s'
  end.

(** ** The command [newrss] *)

Inductive NewRssReply : Type :=
  | ReplyInvalidUrl
  | ReplyInvalidInterval
  | ReplyTooShort
  | ReplyTooLong
  | ReplyAdded (feedInfo : FeedInfo)
  | ReplyFailed (result : AddResult).

(** The interval part of [execute]: [arg] is [None] when [args[1]] is
    missing, and otherwise holds the result of [parseInt(args[1])], [None]
    for [NaN].  The result is the reply of an early return, or the value of
    [interval] ([None] for [null]). *)
Definition newrss_interval (arg : option (option Z))
  : NewRssReply + option Z :=
  match arg with
  | None => inr None
  | Some None => inl ReplyInvalidInterval
  | Some (Some minutes) =>
      if (minutes <? 1)%Z then inl ReplyInvalidInterval
      else
        let interval := (minutes * 60 * 1000)%Z in
        if (minutes <? 1)%Z then inl ReplyTooShort
        else if (1440 <? minutes)%Z then inl ReplyTooLong
        else inr (Some interval)
  end.

(** [execute] of [newrss]: [urlValid] is the result of [isValidUrl(feedUrl)];
    the replies are taken to be sent without error. *)
Definition newrss (urlValid : bool) (arg : option (option Z))
    (schedule_ok : string → bool) (validated : Validation) (written : bool)
    (s : RSSManager) (jobs : gmap string CronJob)
    (channelId feedUrl : string)
  : RSSManager * gmap string CronJob * NewRssReply :=
  if negb urlValid then (s, jobs, ReplyInvalidUrl)
  else
    match newrss_interval arg with
    | inl reply => (s, jobs, reply)
    | inr interval =>
        let r := addFeed validated written s channelId feedUrl interval in
        (r.1,
         addFeed_jobs schedule_ok validated written s jobs channelId feedUrl
                      interval,
         match r.2 with
         | AddOk feedInfo => ReplyAdded feedInfo
         | result => ReplyFailed result
         end)
    end.

(** ** Texts *)

(** A JavaScript string is written as the sequence of its code units, one
    character of the Rocq string for each; [length] and [substring] count
    code units. *)

(** [text.substring(0, k)]: a negative [k] counts as [0], one beyond the
    length as the length. *)
Definition js_substring0 (k : Z) (text : string) : string :=
  String.substring 0 (Z.to_nat k) text.

(** [truncateDescription(text, maxLength)] of the manager. *)
Definition truncateDescription (text : jsval) (maxLength : Z) : string :=
  match text with
  | JStr t =>
      if negb (truthy text) then "No description available"
      else if (Z.of_nat (String.length t) <=? maxLength)%Z then t
      else js_substring0 (maxLength - 3) t +:+ "..."
  | _ => "No description available"
  end.

(** The description [postFeedItem] gives to the embed of an item:
    [truncateDescription(item.contentSnippet || item.description
    || 'No description available')], with the default [maxLength]. *)
Definition embedDescription (contentSnippet description : jsval) : string :=
  truncateDescription
    (js_or (js_or contentSnippet description)
           (JStr "No description available"))
    2048.

(** [truncateText(text, maxLength)] of the command [listrss]. *)
Definition truncateText (text : jsval) (maxLength : Z) : string :=
  match text with
  | JStr t =>
      if negb (truthy text) || (Z.of_nat (String.length t) <=? maxLength)%Z
      then (if truthy text then t else "No title")
      else js_substring0 (maxLength - 3) t +:+ "..."
  | _ => "No title"
  end.

(** ** Times and intervals shown by [listrss] *)

(** The numbers [formatTimeDifference] puts into its four templates. *)
Inductive TimeAgo : Type :=
  | AgoDays (days hours : Z)
  | AgoHours (hours minutes : Z)
  | AgoMinutes (minutes : Z)
  | AgoSeconds (seconds : Z).

(** The branch and the numbers of [formatTimeDifference(timeDiff)];
    [Math.floor] of a quotient is [Z.div], [%] is [Z.rem]. *)
Definition timeAgo (timeDiff : Z) : TimeAgo :=
  let seconds := (timeDiff / 1000)%Z in
  let minutes := (seconds / 60)%Z in
  let hours := (minutes / 60)%Z in
  let days := (hours / 24)%Z in
  if (0 <? days)%Z then AgoDays days (Z.rem hours 24)
  else if (0 <? hours)%Z then AgoHours hours (Z.rem minutes 60)
  else if (0 <? minutes)%Z then AgoMinutes minutes
  else AgoSeconds seconds.

Definition render_TimeAgo (a : TimeAgo) : string :=
  match a with
  | AgoDays d h => pretty d +:+ "d " +:+ pretty h +:+ "h ago"
  | AgoHours h m => pretty h +:+ "h " +:+ pretty m +:+ "m ago"
  | AgoMinutes m => pretty m +:+ "m ago"
  | AgoSeconds sec => pretty sec +:+ "s ago"
  end.

Definition formatTimeDifference (timeDiff : Z) : string :=
  render_TimeAgo (timeAgo timeDiff).

(** The milliseconds a shown time stands for, and the width of the unit it
    is rounded down to. *)
Definition TimeAgo_ms (a : TimeAgo) : Z :=
  match a with
  | AgoDays d h => ((d * 24 + h) * 3600000)%Z
  | AgoHours h m => ((h * 60 + m) * 60000)%Z
  | AgoMinutes m => (m * 60000)%Z
  | AgoSeconds sec => (sec * 1000)%Z
  end.

Definition TimeAgo_unit (a : TimeAgo) : Z :=
  match a with
  | AgoDays _ _ => 3600000%Z
  | AgoHours _ _ => 60000%Z
  | AgoMinutes _ => 60000%Z
  | AgoSeconds _ => 1000%Z
  end.

(** The numbers of the interval text of [listrss]. *)
Inductive IntervalText : Type :=
  | IntervalHours (hours minutes : Z)
  | IntervalMinutes (minutes : Z).

Definition intervalText (interval : Z) : IntervalText :=
  let intervalMinutes := (interval / 60000)%Z in
  if (60 <=? intervalMinutes)%Z
  then IntervalHours (intervalMinutes / 60) (Z.rem intervalMinutes 60)
  else IntervalMinutes intervalMinutes.

Definition render_IntervalText (t : IntervalText) : string :=
  match t with
  | IntervalHours h m => pretty h +:+ "h " +:+ pretty m +:+ "m"
  | IntervalMinutes m => pretty m +:+ "m"
  end.

Definition IntervalText_minutes (t : IntervalText) : Z :=
  match t with
  | IntervalHours h m => (h * 60 + m)%Z
  | IntervalMinutes m => m
  end.

(** ** The command [listrss] *)

(** One field of the embed: the number and title of its name, and the lines
    of its value. *)
Record ListField : Type := mkListField {
  field_number : nat;
  field_title : string;
  field_url : string;
  field_active : bool;
  field_interval : string;
  field_lastChecked : string;
  field_description : option string
}.

Definition listrss_field (now : Z) (i : nat) (feed : FeedListing) : ListField :=
  mkListField (i + 1)
    (truncateText (l_title feed) 50)
    (l_url feed)
    (l_active feed)
    (render_IntervalText (intervalText (l_interval feed)))
    (match l_lastChecked feed with
     | Some t => formatTimeDifference (now - t)
     | None => "Never"
     end)
    (if truthy (l_description feed)
     then Some (truncateText (l_description feed) 100)
     else None).

Inductive ListFooter : Type :=
  | FooterFirst25 (total : nat)
  | FooterRemoveHint.

(** The embeds [execute] of [listrss] replies with: the one that says no
    feed is configured, the list with the count of its description, its
    fields and its footer, and the error embed of the [catch] block. *)
Inductive ListReply : Type :=
  | ListNoFeeds
  | ListFeeds (count : nat) (fields : list ListField) (footer : ListFooter)
  | ListError.

(** [execute] of [listrss] from the array [feeds] that [getChannelFeeds]
    returned, in the order of that array.  [now i] is what [Date.now()]
    gives in the turn [i] of the loop; [accepts field] tells whether
    [addFields] of the embed builder takes the field, which it validates,
    or throws, which ends the loop in the [catch] block.  The replies are
    taken to be sent without error. *)
Definition listrss (accepts : ListField → bool) (now : nat → Z)
    (feeds : list FeedListing) : ListReply :=
  if bool_decide (length feeds = 0) then ListNoFeeds
  else
    let fields :=
      imap (λ i, listrss_field (now i) i)
           (take (min (length feeds) 25) feeds) in
    if forallb accepts fields
    then ListFeeds (length feeds) fields
           (if bool_decide (25 < length feeds)
            then FooterFirst25 (length feeds) else FooterRemoveHint)
    else ListError.

(** An embed builder that takes a field whose URL has at most 1000 code
    units. *)
Definition short_urls : ListField → bool :=
  λ field, bool_decide (String.length (field_url field) ≤ 1000).

(** ** The logger *)







(** ** The command [ping] *)

Inductive Quality : Type := Excellent | Good | Fair | Poor.

(** The three successive tests of [execute]; the colour is set together
    with the quality. *)
Definition connectionQuality (botLatency apiLatency : Z) : Quality * Z :=
  let q0 := (Excellent, 65280%Z) in
  let q1 :=
    if (200 <? botLatency)%Z || (200 <? apiLatency)%Z
    then (Good, 16776960%Z) else q0 in
  let q2 :=
    if (500 <? botLatency)%Z || (500 <? apiLatency)%Z
    then (Fair, 16744448%Z) else q1 in
  if (1000 <? botLatency)%Z || (1000 <? apiLatency)%Z
  then (Poor, 16711680%Z) else q2.

(** The quality by thresholds on one latency. *)
Definition quality_of (latency : Z) : Quality :=
  if (1000 <? latency)%Z then Poor
  else if (500 <? latency)%Z then Fair
  else if (200 <? latency)%Z then Good
  else Excellent.

Definition quality_rank (q : Quality) : nat :=
  match q with
  | Excellent => 0
  | Good => 1
  | Fair => 2
  | Poor => 3
  end.

(** An item without [guid], as the parser gives for an Atom entry, and an
    environment that fetches a document of such items. *)
Definition atom_item (t : string) : Item :=
  mkItem JUndefined (JStr t) (JStr ("https://example.org/" +:+ t)).

Definition atom_env (titles : list string) : PollEnv :=
  mkPollEnv 1000
    (Some (mkFeed (JStr "Example") (JStr "An example feed")
                  (atom_item <$> titles)))
    (λ _, true) true.

(** An environment in which the save fails. *)
Definition unsaved_env (ids : list string) : PollEnv :=
  mkPollEnv 1000 (Some (sample_feed ids)) (λ _, true) false.

(** A manager with two feeds, one of them inactive, and a schedule that
    accepts every expression. *)
Definition two_feeds : RSSManager :=
  mkRSSManager
    {[ "chan" := {[ "u1" := mkFeedInfo "u1" 900000 None JNull true
                                       (JStr "One") (JStr "");
                    "u2" := mkFeedInfo "u2" 300000 None JNull false
                                       (JStr "Two") (JStr "") ]} ]}
    default_config true FileAbsent.

Definition any_schedule : string → bool := λ _, true.

(** A schedule that accepts steps written with at most two digits only. *)
Definition short_schedule : string → bool :=
  λ e, bool_decide (String.length e ≤ 12).

(** * Properties *)

(** ** The new-item loop *)

Section new_items.
Implicit Types (w : jsval) (l acc : list Item).

Lemma unseen_falsy w l : truthy w = false → unseen w l = l.
Proof.
  intros Hw. induction l as [|x l IH]; simpl; [done|].
  unfold is_watermark. rewrite Hw. simpl. by rewrite IH.
Qed.

Lemma unseen_app_match w pre x post :
  truthy w = true → guid x = w →
  Forall (λ it, guid it ≠ w) pre →
  unseen w (pre ++ x :: post) = pre.
Proof.
  intros Hw Hx Hpre. induction Hpre as [|y pre Hy _ IH]; simpl.
  - unfold is_watermark, strict_eq. rewrite Hw, bool_decide_eq_true_2; done.
  - unfold is_watermark, strict_eq.
    rewrite bool_decide_eq_false_2 by done.
    rewrite andb_false_r. by rewrite IH.
Qed.

Lemma unseen_prefix w l : unseen w l `prefix_of` l.
Proof.
  induction l as [|x l IH]; simpl; [done|].
  destruct (is_watermark w x); [apply prefix_nil | by apply prefix_cons].
Qed.

Lemma take_unseen w l n : take n (unseen w l) `prefix_of` take n l.
Proof.
  destruct (unseen_prefix w l) as [k Hk].
  rewrite Hk at 2. rewrite take_app. by eexists.
Qed.

(** The loop stops at the watermark or when five items were pushed. *)
Lemma collectNewItems_acc w l acc :
  length acc < 5 →
  collectNewItems w l acc = acc ++ take (5 - length acc) (unseen w l).
Proof.
  revert acc. induction l as [|x l IH]; intros acc Hacc; simpl.
  - by rewrite take_nil, app_nil_r.
  - fold (is_watermark w x). destruct (is_watermark w x).
    + by rewrite take_nil, app_nil_r.
    + case_bool_decide as Hlen; rewrite length_app in Hlen; simpl in Hlen.
      * replace (5 - length acc) with 1 by lia.
        simpl. by rewrite take_0.
      * rewrite IH by (rewrite length_app; simpl; lia).
        rewrite length_app. simpl.
        replace (5 - length acc) with (S (5 - (length acc + 1))) by lia.
        simpl. by rewrite <- app_assoc.
Qed.

Lemma collectNewItems_spec w l :
  collectNewItems w l [] = take 5 (unseen w l).
Proof. by rewrite collectNewItems_acc by (simpl; lia). Qed.

Lemma posted_app tr1 tr2 : posted (tr1 ++ tr2) = posted tr1 ++ posted tr2.
Proof.
  induction tr1 as [|e tr1 IH]; simpl; [done|].
  destruct e; simpl; by rewrite ?IH.
Qed.

Lemma saves_app tr1 tr2 : saves (tr1 ++ tr2) = saves tr1 ++ saves tr2.
Proof.
  induction tr1 as [|e tr1 IH]; simpl; [done|].
  destruct e; simpl; by rewrite ?IH.
Qed.

Lemma delivered_app tr1 tr2 :
  delivered (tr1 ++ tr2) = delivered tr1 ++ delivered tr2.
Proof.
  induction tr1 as [|e tr1 IH]; simpl; [done|].
  destruct e as [| ? ? [] | |]; simpl; by rewrite ?IH.
Qed.

(** Every item of the batch is handed to [postFeedItem], whatever the
    outcome of the sends before it. *)
Lemma posted_postItems send0 c feed n batch :
  posted (postItems send0 c feed n batch) = batch.
Proof.
  induction batch as [|x batch IH]; simpl; [done|].
  rewrite posted_app. case_bool_decide; simpl; by rewrite IH.
Qed.

Lemma delivered_postItems send0 c feed n batch :
  delivered (postItems send0 c feed n batch) = filter (λ it, send0 it = true) batch.
Proof.
  induction batch as [|x batch IH]; simpl; [done|].
  rewrite filter_cons, delivered_app.
  case_decide as Hx; [|apply not_true_is_false in Hx]; rewrite Hx;
    case_bool_decide; simpl; by rewrite IH.
Qed.

Lemma saves_postItems send0 c feed n batch :
  saves (postItems send0 c feed n batch) = [].
Proof.
  induction batch as [|x batch IH]; simpl; [done|].
  case_bool_decide; simpl; by rewrite IH.
Qed.
End new_items.

(** ** One poll *)

Section poll.
Implicit Types (s : RSSManager) (env : PollEnv) (fi : FeedInfo)
  (feed : Feed) (c u : string).

Lemma getFeed_Some s c u fi :
  getFeed s c u = Some fi ↔
  ∃ cf, feeds s !! c = Some cf ∧ cf !! u = Some fi.
Proof.
  unfold getFeed. destruct (feeds s !! c) as [cf|]; simpl.
  - split; [eauto | by intros (? & [= <-] & ?)].
  - split; [done | by intros (? & ? & ?)].
Qed.

Lemma saveFeeds_feeds w s : feeds (saveFeeds w s).1 = feeds s.
Proof. by destruct w. Qed.

Lemma saveFeeds_config w s : config (saveFeeds w s).1 = config s.
Proof. by destruct w. Qed.

Lemma saveFeeds_client w s : client (saveFeeds w s).1 = client s.
Proof. by destruct w. Qed.

Lemma saveFeeds_ok w s : (saveFeeds w s).2 = w.
Proof. by destruct w. Qed.

Lemma getFeed_saveFeeds w s c u : getFeed (saveFeeds w s).1 c u = getFeed s c u.
Proof. unfold getFeed. by rewrite saveFeeds_feeds. Qed.

(** The record after the title and description refresh keeps its
    watermark; so the decisions of [checkItems] read the stored one. *)
Lemma checkItems_posted send0 c feed fi :
  posted (checkItems send0 c feed fi).2
  = reverse (take 5 (unseen (lastPostId fi) (items feed))).
Proof.
  unfold checkItems.
  set (fi1 := if negb (strict_eq (feed_title feed) (title fi))
              then set_title (feed_title feed) fi else fi).
  set (fi2 := if negb (strict_eq (feed_description feed) (description fi1))
              then set_description (feed_description feed) fi1 else fi1).
  assert (lastPostId fi2 = lastPostId fi) as Hw.
  { subst fi2 fi1. by repeat case_match. }
  rewrite Hw. destruct (items feed) as [|latest rest] eqn:Hitems; [done|].
  destruct (truthy (lastPostId fi)) eqn:Htr; cbn [negb orb].
  - unfold strict_eq. case_bool_decide as Heq; cbn [negb snd].
    + cbn [unseen]. unfold is_watermark, strict_eq.
      rewrite Htr, bool_decide_eq_true_2 by done. done.
    + by rewrite posted_postItems, collectNewItems_spec.
  - cbn [snd]. by rewrite posted_postItems, collectNewItems_spec.
Qed.

Lemma checkItems_trace send0 c feed fi :
  (checkItems send0 c feed fi).2
  = let batch := reverse (take 5 (unseen (lastPostId fi) (items feed))) in
    postItems send0 c feed (length batch) batch.
Proof.
  unfold checkItems.
  set (fi1 := if negb (strict_eq (feed_title feed) (title fi))
              then set_title (feed_title feed) fi else fi).
  set (fi2 := if negb (strict_eq (feed_description feed) (description fi1))
              then set_description (feed_description feed) fi1 else fi1).
  assert (lastPostId fi2 = lastPostId fi) as Hw.
  { subst fi2 fi1. by repeat case_match. }
  rewrite Hw. destruct (items feed) as [|latest rest] eqn:Hitems; [done|].
  destruct (truthy (lastPostId fi)) eqn:Htr; cbn [negb orb].
  - unfold strict_eq. case_bool_decide as Heq; cbn [negb snd].
    + cbn [unseen]. unfold is_watermark, strict_eq.
      rewrite Htr, bool_decide_eq_true_2 by done. done.
    + by rewrite collectNewItems_spec.
  - cbn [snd]. by rewrite collectNewItems_spec.
Qed.

(** After a parse with at least one item the watermark is the identifier
    of the first item of the document. *)
Lemma checkItems_lastPostId send0 c feed fi latest rest :
  items feed = latest :: rest →
  lastPostId (checkItems send0 c feed fi).1 = guid latest.
Proof.
  intros Hitems. unfold checkItems.
  set (fi1 := if negb (strict_eq (feed_title feed) (title fi))
              then set_title (feed_title feed) fi else fi).
  set (fi2 := if negb (strict_eq (feed_description feed) (description fi1))
              then set_description (feed_description feed) fi1 else fi1).
  rewrite Hitems.
  destruct (truthy (lastPostId fi2)) eqn:Htr; simpl; [|done].
  unfold strict_eq. by case_bool_decide.
Qed.

Lemma checkItems_lastPostId_nil send0 c feed fi :
  items feed = [] →
  lastPostId (checkItems send0 c feed fi).1 = lastPostId fi.
Proof.
  intros Hitems. unfold checkItems. rewrite Hitems. simpl.
  by repeat case_match.
Qed.

(** The poll leaves the identity, the period and the flag of the record
    alone, and caches the title and description of the document. *)
Lemma checkItems_frame send0 c feed fi :
  let fi' := (checkItems send0 c feed fi).1 in
  url fi' = url fi ∧ interval fi' = interval fi ∧ active fi' = active fi ∧
  lastChecked fi' = lastChecked fi ∧
  title fi' = feed_title feed ∧ description fi' = feed_description feed.
Proof.
  unfold checkItems, strict_eq.
  case_bool_decide as Ht; cbn [negb];
    (case_bool_decide as Hd; cbn [negb]);
    destruct (items feed) as [|latest rest]; simpl in *;
    repeat case_match; simpl; split_and!; congruence.
Qed.

(** The outcome of the sends has no part in the new record. *)
Lemma checkItems_send_irrelevant send1 send2 c feed fi :
  (checkItems send1 c feed fi).1 = (checkItems send2 c feed fi).1.
Proof. unfold checkItems. by repeat case_match. Qed.

(** [checkFeed] on an active, registered feed whose document parses. *)
Lemma checkFeed_polled env s c u cf fi feed :
  client s = true →
  feeds s !! c = Some cf → cf !! u = Some fi →
  active fi = true → fetched env = Some feed →
  checkFeed env s c u =
    ((saveFeeds (written env)
        (set_feeds
           (<[c := <[u := set_lastChecked (Some (now env))
                             (checkItems (send env) c feed fi).1]> cf]>
              (feeds s)) s)).1,
     EvFetch u :: (checkItems (send env) c feed fi).2
       ++ [EvSave (written env)]).
Proof.
  intros Hcl Hc Hu Hact Hf. unfold checkFeed.
  rewrite Hcl, Hc, Hu, Hact, Hf. simpl.
  destruct (checkItems (send env) c feed fi) as [fi1 posts]. simpl.
  by destruct (written env).
Qed.

(** What a poll posts, delivers, saves and leaves in the registry. *)
Lemma checkFeed_poll env s c u fi feed :
  client s = true → getFeed s c u = Some fi →
  active fi = true → fetched env = Some feed →
  posted (checkFeed env s c u).2
    = reverse (take 5 (unseen (lastPostId fi) (items feed))) ∧
  saves (checkFeed env s c u).2 = [written env] ∧
  getFeed (checkFeed env s c u).1 c u
    = Some (set_lastChecked (Some (now env))
              (checkItems (send env) c feed fi).1) ∧
  delivered (checkFeed env s c u).2
    = filter (λ it, send env it = true)
             (reverse (take 5 (unseen (lastPostId fi) (items feed)))).
Proof.
  intros Hcl (cf & Hc & Hu)%getFeed_Some Hact Hf.
  rewrite (checkFeed_polled env s c u cf fi feed) by done. simpl.
  rewrite posted_app, saves_app, delivered_app, checkItems_posted,
    checkItems_trace.
  simpl. rewrite saves_postItems, delivered_postItems, !app_nil_r.
  split_and!; [done..| |done].
  rewrite getFeed_saveFeeds. unfold getFeed. simpl.
  rewrite lookup_insert_eq. simpl. by rewrite lookup_insert_eq.
Qed.

(** Whatever the state and the outside world, a poll hands to
    [postFeedItem] only items among the first five of the document it
    fetched, and nothing when the fetch failed. *)
Lemma checkFeed_posted_first_five env s c u :
  posted (checkFeed env s c u).2
    ⊆ take 5 (from_option items [] (fetched env)).
Proof.
  unfold checkFeed.
  destruct (client s); simpl; [|set_solver].
  destruct (feeds s !! c) as [cf|]; [|set_solver].
  destruct (cf !! u) as [fi|]; [|set_solver].
  destruct (active fi); simpl; [|set_solver].
  destruct (fetched env) as [feed|]; simpl; [|set_solver].
  pose proof (checkItems_posted (send env) c feed fi) as Hp.
  destruct (checkItems (send env) c feed fi) as [fi1 posts].
  destruct (saveFeeds (written env) _) as [s2 ok]. simpl in *.
  rewrite posted_app, Hp. simpl. rewrite app_nil_r.
  intros x Hx. rewrite elem_of_reverse in Hx.
  eapply elem_of_prefix; [done | apply take_unseen].
Qed.
End poll.

(** ** The claims about polling *)

(** C1 (as amended).  On a registered, active feed whose watermark is absent
    (falsy), a poll that parses a non-empty document hands to [postFeedItem]
    the first five items of the document (all of them when there are fewer),
    oldest first; those whose send succeeds are delivered; and the watermark
    becomes the identifier of the first item of the document. *)
Theorem first_poll_posts_up_to_five env s c u fi feed latest rest :
  client s = true → getFeed s c u = Some fi → active fi = true →
  truthy (lastPostId fi) = false →
  fetched env = Some feed → items feed = latest :: rest →
  posted (checkFeed env s c u).2 = reverse (take 5 (items feed))
  ∧ delivered (checkFeed env s c u).2
    = filter (λ it, send env it = true) (reverse (take 5 (items feed)))
  ∧ lastPostId <$> getFeed (checkFeed env s c u).1 c u = Some (guid latest).
Proof.
  intros Hcl Hfi Hact Hw Hf Hitems.
  destruct (checkFeed_poll env s c u fi feed) as (Hp & _ & Hg & Hd);
    [done..|].
  rewrite Hp, Hd, Hg, unseen_falsy by done. split_and!; [done..|]. simpl.
  by erewrite checkItems_lastPostId.
Qed.

Lemma first_poll_posts_up_to_five_witness :
  posted (checkFeed (sample_env ["A"; "B"; "C"]) sample_added "chan" sample_url).2
    = sample_item <$> ["C"; "B"; "A"]
  ∧ delivered
      (checkFeed (sample_env ["A"; "B"; "C"]) sample_added "chan" sample_url).2
    = sample_item <$> ["C"; "B"; "A"]
  ∧ lastPostId <$> getFeed
      (checkFeed (sample_env ["A"; "B"; "C"]) sample_added "chan" sample_url).1
      "chan" sample_url = Some (JStr "A").
Proof.
  apply (first_poll_posts_up_to_five (sample_env ["A"; "B"; "C"]) sample_added
           "chan" sample_url
           (mkFeedInfo sample_url 300000 None JNull true (JStr "Example")
                       (JStr "An example feed"))
           (sample_feed ["A"; "B"; "C"]) (sample_item "A")
           (sample_item <$> ["B"; "C"])); by vm_compute.
Defined.

(** C1 (as stated) fails: the first poll of a feed just added, whose
    watermark is [null], posts the items of the document instead of none. *)
Lemma first_poll_not_suppressed :
  lastPostId <$> getFeed sample_added "chan" sample_url = Some JNull
  ∧ fetched (sample_env ["A"; "B"; "C"]) = Some (sample_feed ["A"; "B"; "C"])
  ∧ posted (checkFeed (sample_env ["A"; "B"; "C"]) sample_added
                      "chan" sample_url).2 ≠ []
  ∧ delivered (checkFeed (sample_env ["A"; "B"; "C"]) sample_added
                         "chan" sample_url).2 ≠ [].
Proof. split_and!; by vm_compute. Qed.

(** C2.  On a registered, active feed whose watermark is the identifier of
    [B], a poll that parses the document [A; B; C] posts exactly [A], which
    is delivered when its send succeeds, and the watermark becomes the
    identifier of [A].  The watermark is found by its identifier wherever it
    stands: for a document [pre ++ B :: post] with at most five items [pre],
    none of which carries the watermark, the poll posts [pre] oldest first
    and the watermark becomes the identifier of the first item of the
    document. *)
Theorem dedup_by_identifier env s c u fi feed :
  client s = true → getFeed s c u = Some fi → active fi = true →
  truthy (lastPostId fi) = true → fetched env = Some feed →
  (∀ A B C,
     items feed = [A; B; C] → guid B = lastPostId fi → guid A ≠ guid B →
     posted (checkFeed env s c u).2 = [A]
     ∧ delivered (checkFeed env s c u).2 = (if send env A then [A] else [])
     ∧ lastPostId <$> getFeed (checkFeed env s c u).1 c u = Some (guid A))
  ∧ (∀ pre B post,
       items feed = pre ++ B :: post → guid B = lastPostId fi →
       Forall (λ it, guid it ≠ lastPostId fi) pre → length pre ≤ 5 →
       posted (checkFeed env s c u).2 = reverse pre
       ∧ delivered (checkFeed env s c u).2
         = filter (λ it, send env it = true) (reverse pre)
       ∧ lastPostId <$> getFeed (checkFeed env s c u).1 c u
         = Some (guid (hd B pre))).
Proof.
  intros Hcl Hfi Hact Hw Hf.
  destruct (checkFeed_poll env s c u fi feed) as (Hp & _ & Hg & Hd);
    [done..|].
  assert (∀ pre B post,
            items feed = pre ++ B :: post → guid B = lastPostId fi →
            Forall (λ it, guid it ≠ lastPostId fi) pre → length pre ≤ 5 →
            posted (checkFeed env s c u).2 = reverse pre
            ∧ delivered (checkFeed env s c u).2
              = filter (λ it, send env it = true) (reverse pre)
            ∧ lastPostId <$> getFeed (checkFeed env s c u).1 c u
              = Some (guid (hd B pre))) as Hgen.
  { intros pre B post Hitems HB Hpre Hlen.
    rewrite Hp, Hd, Hg, Hitems, unseen_app_match, take_ge by done.
    split_and!; [done..|]. simpl. f_equal.
    destruct pre as [|A pre]; by erewrite checkItems_lastPostId. }
  split; [|done].
  intros A B C Hitems HB HA.
  destruct (Hgen [A] B [C]) as (HpA & HdA & HgA); [done..| |simpl; lia|].
  { constructor; [congruence | constructor]. }
  split_and!; [done| |done].
  rewrite HdA. change (reverse [A]) with [A]. rewrite filter_cons, filter_nil.
  case_decide as HsA; [by rewrite HsA|].
  by apply not_true_is_false in HsA as ->.
Qed.

Lemma dedup_by_identifier_witness :
  posted (checkFeed (sample_env ["A"; "B"; "C"]) (sample_state (JStr "B") true)
                    "chan" sample_url).2 = [sample_item "A"]
  ∧ delivered
      (checkFeed (sample_env ["A"; "B"; "C"]) (sample_state (JStr "B") true)
                 "chan" sample_url).2 = [sample_item "A"]
  ∧ lastPostId <$> getFeed
      (checkFeed (sample_env ["A"; "B"; "C"]) (sample_state (JStr "B") true)
                 "chan" sample_url).1 "chan" sample_url = Some (JStr "A").
Proof.
  refine (proj1 (dedup_by_identifier (sample_env ["A"; "B"; "C"])
                   (sample_state (JStr "B") true) "chan" sample_url
                   (mkFeedInfo sample_url 300000 None (JStr "B") true
                               (JStr "Example") (JStr "An example feed"))
                   (sample_feed ["A"; "B"; "C"]) _ _ _ _ _)
                (sample_item "A") (sample_item "B") (sample_item "C") _ _ _);
    by vm_compute.
Defined.

(** The items the loop can reach never include one beyond the fifth. *)
Lemma later_documents_first_five x doc envs :
  x ∉ take 5 doc → later_documents x doc envs →
  ∀ s c u, Forall (λ tr, x ∉ posted tr) (runPolls envs s c u).2.
Proof.
  revert doc. induction envs as [|env envs IH]; intros doc Hx Hhist s c u;
    simpl; [by constructor|].
  destruct (checkFeed env s c u) as [s1 tr] eqn:Hcheck.
  destruct (runPolls envs s1 c u) as [s2 trs] eqn:Hrun. simpl.
  pose proof (checkFeed_posted_first_five env s c u) as Hsub.
  rewrite Hcheck in Hsub. simpl in Hsub, Hhist.
  destruct (fetched env) as [feed'|]; simpl in Hsub.
  - destruct Hhist as [(fresh & k & Hitems & Hfresh) Hhist].
    assert (x ∉ take 5 (items feed')) as Hx'.
    { rewrite Hitems, take_app, elem_of_app. intros [Hin|Hin].
      - apply Hfresh. by eapply elem_of_prefix; [|apply prefix_take].
      - apply Hx. rewrite take_take in Hin.
        apply elem_of_take in Hin as (i & Hi & Hlt).
        apply elem_of_take. exists i. split; [done | lia]. }
    constructor; [set_solver|].
    specialize (IH (items feed') Hx' Hhist s1 c u). by rewrite Hrun in IH.
  - constructor; [set_solver|].
    specialize (IH doc Hx Hhist s1 c u). by rewrite Hrun in IH.
Qed.

(** C3 (as amended).  On a registered, active feed with a set watermark, a
    poll that parses a document with more than five items before the
    watermark posts exactly five items: the first five of the document,
    which are the five most recent unseen ones, oldest first.  The
    watermark becomes the identifier of the first item of the document.
    When the items of the document are pairwise distinct, an unseen item
    [x] beyond the fifth is posted in no later poll, along every run in
    which the later documents list newest first: each puts fresh items, [x]
    not among them, in front of a possibly shortened copy of the document
    before it. *)
Theorem cap_five_newest env s c u fi feed :
  client s = true → getFeed s c u = Some fi → active fi = true →
  truthy (lastPostId fi) = true → fetched env = Some feed →
  5 < length (unseen (lastPostId fi) (items feed)) →
  posted (checkFeed env s c u).2
    = reverse (take 5 (unseen (lastPostId fi) (items feed)))
  ∧ posted (checkFeed env s c u).2 = reverse (take 5 (items feed))
  ∧ length (posted (checkFeed env s c u).2) = 5
  ∧ delivered (checkFeed env s c u).2
    = filter (λ it, send env it = true) (reverse (take 5 (items feed)))
  ∧ lastPostId <$> getFeed (checkFeed env s c u).1 c u
    = head (guid <$> items feed)
  ∧ ∀ x envs,
      NoDup (items feed) →
      x ∈ drop 5 (unseen (lastPostId fi) (items feed)) →
      later_documents x (items feed) envs →
      Forall (λ tr, x ∉ posted tr)
             (runPolls envs (checkFeed env s c u).1 c u).2.
Proof.
  intros Hcl Hfi Hact Hw Hf Hlen.
  destruct (checkFeed_poll env s c u fi feed) as (Hp & _ & Hg & Hd);
    [done..|].
  destruct (unseen_prefix (lastPostId fi) (items feed)) as [older Holder].
  assert (take 5 (unseen (lastPostId fi) (items feed)) = take 5 (items feed))
    as Htake.
  { rewrite Holder at 2. rewrite take_app_le by lia. done. }
  split_and!.
  - done.
  - by rewrite Hp, Htake.
  - rewrite Hp, length_reverse, length_take. lia.
  - by rewrite Hd, Htake.
  - rewrite Hg. simpl.
    destruct (items feed) as [|latest rest] eqn:Hitems.
    { simpl in Hlen. lia. }
    by erewrite checkItems_lastPostId.
  - intros x envs Hnd Hx Hhist.
    apply (later_documents_first_five x (items feed)); [|done].
    rewrite <- Htake. intros Hin.
    rewrite <- (take_drop 5 (unseen (lastPostId fi) (items feed))) in Holder.
    rewrite Holder in Hnd.
    apply NoDup_app in Hnd as [Hnd _].
    apply NoDup_app in Hnd as (_ & Hdisj & _).
    by apply (Hdisj x).
Qed.

Lemma cap_five_newest_witness :
  posted (checkFeed (sample_env eight_new) (sample_state (JStr "W") true)
                    "chan" sample_url).2
    = sample_item <$> ["N5"; "N4"; "N3"; "N2"; "N1"]
  ∧ Forall (λ tr, sample_item "N6" ∉ posted tr)
           (runPolls [sample_env eight_new; failing_env;
                      sample_env ("N0" :: eight_new)]
                     (checkFeed (sample_env eight_new)
                                (sample_state (JStr "W") true)
                                "chan" sample_url).1
                     "chan" sample_url).2.
Proof.
  destruct (cap_five_newest (sample_env eight_new)
              (sample_state (JStr "W") true) "chan" sample_url
              (mkFeedInfo sample_url 300000 None (JStr "W") true
                          (JStr "Example") (JStr "An example feed"))
              (sample_feed eight_new))
    as (_ & Hposted & _ & _ & _ & Hlater).
  - reflexivity.
  - by vm_compute.
  - reflexivity.
  - reflexivity.
  - reflexivity.
  - vm_compute. lia.
  - split.
    + etrans; [exact Hposted | by vm_compute].
    + apply Hlater.
      * apply (bool_decide_unpack _). by vm_compute.
      * apply (bool_decide_unpack _). by vm_compute.
      * simpl. split_and!; [| |done].
        -- exists [], 10. split; [done|]. apply not_elem_of_nil.
        -- exists [sample_item "N0"], 10. split; [done|].
           apply (bool_decide_unpack _). by vm_compute.
Defined.

(** C3 (as stated) fails: the poll of [eight_new] under the watermark
    ["W"] posts [N5] to [N1] and leaves [N6], unseen, aside; when the next
    document no longer holds the new watermark [N1] and starts with [N6],
    the poll posts [N6]. *)
Lemma skipped_item_posted_later :
  posted (checkFeed (sample_env eight_new) (sample_state (JStr "W") true)
                    "chan" sample_url).2
    = sample_item <$> ["N5"; "N4"; "N3"; "N2"; "N1"]
  ∧ sample_item "N6" ∈ unseen (JStr "W") (sample_item <$> eight_new)
  ∧ lastPostId <$> getFeed after_capped_poll "chan" sample_url
    = Some (JStr "N1")
  ∧ sample_item "N6"
    ∈ posted (checkFeed (sample_env ["N6"; "N7"; "N8"; "W"; "O1"])
                        after_capped_poll "chan" sample_url).2
  ∧ sample_item "N6"
    ∈ delivered (checkFeed (sample_env ["N6"; "N7"; "N8"; "W"; "O1"])
                           after_capped_poll "chan" sample_url).2.
Proof.
  split_and!; [by vm_compute | | by vm_compute | |];
    apply (bool_decide_unpack _); by vm_compute.
Qed.

(** ** Failed fetches and inactive feeds *)

(** C4 (as amended).  A poll whose fetch or parse step fails changes
    nothing: the manager, with the watermark and [lastChecked] of every
    feed and the file, is as before; nothing is posted and nothing is
    saved. *)
Theorem failed_fetch_changes_nothing env s c u :
  fetched env = None →
  (checkFeed env s c u).1 = s
  ∧ posted (checkFeed env s c u).2 = []
  ∧ saves (checkFeed env s c u).2 = [].
Proof.
  intros Hf. unfold checkFeed. rewrite Hf.
  destruct (client s); simpl; [|done].
  destruct (feeds s !! c) as [cf|]; [|done].
  destruct (cf !! u) as [fi|]; [|done].
  by destruct (active fi).
Qed.

Lemma failed_fetch_changes_nothing_witness :
  (checkFeed failing_env (sample_state (JStr "B") true) "chan" sample_url).1
    = sample_state (JStr "B") true
  ∧ posted (checkFeed failing_env (sample_state (JStr "B") true)
                      "chan" sample_url).2 = []
  ∧ saves (checkFeed failing_env (sample_state (JStr "B") true)
                     "chan" sample_url).2 = [].
Proof.
  apply (failed_fetch_changes_nothing failing_env
           (sample_state (JStr "B") true) "chan" sample_url).
  reflexivity.
Defined.

(** C4 (as stated) fails: after a poll at time [1000] whose fetch fails,
    [lastChecked] of the feed is still [null], not the time of the poll. *)
Lemma failed_fetch_keeps_lastChecked :
  fetched failing_env = None
  ∧ now failing_env = 1000%Z
  ∧ lastChecked <$> getFeed (sample_state (JStr "B") true) "chan" sample_url
    = Some None
  ∧ lastChecked <$> getFeed
      (checkFeed failing_env (sample_state (JStr "B") true)
                 "chan" sample_url).1 "chan" sample_url
    ≠ Some (Some (now failing_env)).
Proof. split_and!; by vm_compute. Qed.

(** C9.  [checkFeed] on a feed whose active flag is false returns at once:
    the manager (registry and file) is unchanged and the trace is empty, so
    nothing is fetched, posted or saved. *)
Theorem inactive_feed_untouched env s c u fi :
  getFeed s c u = Some fi → active fi = false →
  checkFeed env s c u = (s, [])
  ∧ fetches (checkFeed env s c u).2 = []
  ∧ posted (checkFeed env s c u).2 = []
  ∧ saves (checkFeed env s c u).2 = [].
Proof.
  intros (cf & Hc & Hu)%getFeed_Some Hact.
  assert (checkFeed env s c u = (s, [])) as ->; [|done].
  unfold checkFeed. rewrite Hc, Hu, Hact. by destruct (client s).
Qed.

Lemma inactive_feed_untouched_witness :
  checkFeed (sample_env ["A"; "B"; "C"]) (sample_state (JStr "B") false)
            "chan" sample_url
    = (sample_state (JStr "B") false, [])
  ∧ fetches (checkFeed (sample_env ["A"; "B"; "C"])
                       (sample_state (JStr "B") false) "chan" sample_url).2 = []
  ∧ posted (checkFeed (sample_env ["A"; "B"; "C"])
                      (sample_state (JStr "B") false) "chan" sample_url).2 = []
  ∧ saves (checkFeed (sample_env ["A"; "B"; "C"])
                     (sample_state (JStr "B") false) "chan" sample_url).2 = [].
Proof.
  apply (inactive_feed_untouched (sample_env ["A"; "B"; "C"])
           (sample_state (JStr "B") false) "chan" sample_url
           (mkFeedInfo sample_url 300000 None (JStr "B") false
                       (JStr "Example") (JStr "An example feed")));
    by vm_compute.
Defined.

(** ** Delivery failures *)

(** C8.  On a registered, active feed, a poll that parses a non-empty
    document hands every item of the batch to [postFeedItem] whatever the
    sends answer; the items delivered are those of the batch whose send
    succeeds; the watermark afterwards is the identifier of the first item
    of the document; and the registry after the poll is the same for any
    other outcome of the sends. *)
Theorem delivery_failure_isolated env s c u fi feed latest rest :
  client s = true → getFeed s c u = Some fi → active fi = true →
  fetched env = Some feed → items feed = latest :: rest →
  let batch := reverse (take 5 (unseen (lastPostId fi) (items feed))) in
  posted (checkFeed env s c u).2 = batch
  ∧ delivered (checkFeed env s c u).2 = filter (λ it, send env it = true) batch
  ∧ lastPostId <$> getFeed (checkFeed env s c u).1 c u = Some (guid latest)
  ∧ ∀ send',
      posted (checkFeed (set_send send' env) s c u).2 = batch
      ∧ (checkFeed (set_send send' env) s c u).1 = (checkFeed env s c u).1.
Proof.
  intros Hcl Hfi Hact Hf Hitems batch.
  destruct (checkFeed_poll env s c u fi feed) as (Hp & _ & Hg & Hd);
    [done..|].
  split_and!.
  - done.
  - done.
  - rewrite Hg. simpl. by erewrite checkItems_lastPostId.
  - intros send'.
    destruct (checkFeed_poll (set_send send' env) s c u fi feed)
      as (Hp' & _); [done..|].
    split; [done|].
    apply getFeed_Some in Hfi as (cf & Hc & Hu).
    rewrite (checkFeed_polled env s c u cf fi feed) by done.
    rewrite (checkFeed_polled (set_send send' env) s c u cf fi feed) by done.
    simpl.
    by rewrite (checkItems_send_irrelevant send' (send env)).
Qed.

Lemma delivery_failure_isolated_witness :
  posted (checkFeed (flaky_env ["A3"; "A2"; "A1"; "W"] "A2")
                    (sample_state (JStr "W") true) "chan" sample_url).2
    = sample_item <$> ["A1"; "A2"; "A3"]
  ∧ delivered (checkFeed (flaky_env ["A3"; "A2"; "A1"; "W"] "A2")
                         (sample_state (JStr "W") true) "chan" sample_url).2
    = sample_item <$> ["A1"; "A3"]
  ∧ lastPostId <$> getFeed
      (checkFeed (flaky_env ["A3"; "A2"; "A1"; "W"] "A2")
                 (sample_state (JStr "W") true) "chan" sample_url).1
      "chan" sample_url = Some (JStr "A3").
Proof.
  destruct (delivery_failure_isolated (flaky_env ["A3"; "A2"; "A1"; "W"] "A2")
              (sample_state (JStr "W") true) "chan" sample_url
              (mkFeedInfo sample_url 300000 None (JStr "W") true
                          (JStr "Example") (JStr "An example feed"))
              (sample_feed ["A3"; "A2"; "A1"; "W"])
              (sample_item "A3") (sample_item <$> ["A2"; "A1"; "W"]))
    as (Hposted & Hdelivered & Hmark & _); [by vm_compute..|].
  split_and!.
  - etrans; [exact Hposted | by vm_compute].
  - etrans; [exact Hdelivered | by vm_compute].
  - exact Hmark.
Defined.

(** ** The registry: shapes of the states after each operation *)

Section registry.
Implicit Types (s : RSSManager) (c u : string)
  (m : gmap string (gmap string FeedInfo)) (cf : gmap string FeedInfo).

Lemma set_feeds_id s : set_feeds (feeds s) s = s.
Proof. by destruct s. Qed.

(** [saveFeeds] leaves the file alone or writes the registry to it. *)
Lemma saveFeeds_file w s :
  feedsFile (saveFeeds w s).1 = feedsFile s
  ∨ feedsFile (saveFeeds w s).1 = FileData (toFeedData (feeds s)).
Proof. destruct w; simpl; auto. Qed.

(** The registry after [addFeed]: unchanged, or with a new empty channel
    map when the cap is zero, or with the new record inserted. *)
Lemma addFeed_feeds validated w s c u i :
  let s' := (addFeed validated w s c u i).1 in
  let cf := default ∅ (feeds s !! c) in
  feeds s' = feeds s
  ∨ (feeds s !! c = None ∧ maxFeedsPerChannel (config s) = 0
     ∧ feeds s' = <[c := ∅]> (feeds s))
  ∨ (∃ fd, cf !! u = None ∧ size cf < maxFeedsPerChannel (config s)
       ∧ interval fd
         = match i with
           | Some n => num_or n (defaultInterval (config s))
           | None => defaultInterval (config s)
           end
       ∧ feeds s' = <[c := <[u := fd]> cf]> (feeds s)).
Proof.
  unfold addFeed. destruct validated as [feed|e]; simpl; [|by left].
  destruct (feeds s !! c) as [cf|] eqn:Hc; simpl.
  - rewrite Hc. simpl. case_bool_decide as Hcap; simpl; [by left|].
    case_bool_decide as Hdup; simpl; [by left|].
    right; right.
    destruct w; simpl; (eexists; split_and!; [| | |reflexivity]; simpl;
      [by apply eq_None_not_Some | lia | done]).
  - rewrite lookup_insert_eq. simpl. rewrite map_size_empty.
    case_bool_decide as Hcap; simpl.
    { right; left. split_and!; [done|lia|done]. }
    rewrite lookup_empty. rewrite bool_decide_eq_false_2 by by intros [??].
    right; right.
    destruct w; simpl; rewrite insert_insert_eq;
      (eexists; split_and!; [| | |reflexivity]; simpl;
        [done | rewrite ?map_size_empty; lia | done]).
Qed.

Lemma addFeed_config validated w s c u i :
  config (addFeed validated w s c u i).1 = config s.
Proof.
  unfold addFeed. destruct validated; simpl; [|done].
  repeat case_bool_decide; simpl; try done.
  by destruct w.
Qed.

Lemma addFeed_file validated w s c u i :
  let s' := (addFeed validated w s c u i).1 in
  feedsFile s' = feedsFile s
  ∨ feedsFile s' = FileData (toFeedData (feeds s')).
Proof.
  unfold addFeed. destruct validated; simpl; [|by left].
  repeat case_bool_decide; simpl; try by left.
  destruct w; simpl; auto.
Qed.

(** The registry after [removeFeed]: unchanged, or without the record,
    and without the channel when the record was its last. *)
Lemma removeFeed_feeds w s c u :
  let s' := (removeFeed w s c u).1 in
  feeds s' = feeds s
  ∨ ∃ cf, feeds s !! c = Some cf ∧ is_Some (cf !! u)
      ∧ feeds s' = if bool_decide (size (delete u cf) = 0)
                   then delete c (feeds s)
                   else <[c := delete u cf]> (feeds s).
Proof.
  unfold removeFeed.
  destruct (feeds s !! c) as [cf|] eqn:Hc; [|by left].
  destruct (cf !! u) as [f|] eqn:Hu; [|by left].
  right. exists cf. split_and!; [done..|].
  by destruct w.
Qed.

Lemma removeFeed_config w s c u : config (removeFeed w s c u).1 = config s.
Proof.
  unfold removeFeed.
  destruct (feeds s !! c) as [cf|]; [|done].
  destruct (cf !! u) as [f|]; [|done].
  by destruct w.
Qed.

Lemma removeFeed_file w s c u :
  let s' := (removeFeed w s c u).1 in
  feedsFile s' = feedsFile s
  ∨ feedsFile s' = FileData (toFeedData (feeds s')).
Proof.
  unfold removeFeed.
  destruct (feeds s !! c) as [cf|]; [|by left].
  destruct (cf !! u) as [f|]; [|by left].
  destruct w; simpl; auto.
Qed.

(** The registry after [checkFeed]: unchanged, or with the polled record
    replaced by one of the same URL, interval and flag. *)
Lemma checkFeed_feeds env s c u :
  let s' := (checkFeed env s c u).1 in
  feeds s' = feeds s
  ∨ ∃ cf fi fi', feeds s !! c = Some cf ∧ cf !! u = Some fi
      ∧ interval fi' = interval fi
      ∧ feeds s' = <[c := <[u := fi']> cf]> (feeds s).
Proof.
  unfold checkFeed.
  destruct (client s); simpl; [|by left].
  destruct (feeds s !! c) as [cf|] eqn:Hc; [|by left].
  destruct (cf !! u) as [fi|] eqn:Hu; [|by left].
  destruct (active fi); simpl; [|by left].
  destruct (fetched env) as [feed|]; [|by left].
  pose proof (checkItems_frame (send env) c feed fi) as (_ & Hint & _).
  destruct (checkItems (send env) c feed fi) as [fi1 posts].
  right. exists cf, fi, (set_lastChecked (Some (now env)) fi1).
  split_and!; [done..|].
  by destruct (written env).
Qed.

Lemma checkFeed_config env s c u : config (checkFeed env s c u).1 = config s.
Proof.
  unfold checkFeed.
  destruct (client s); simpl; [|done].
  destruct (feeds s !! c) as [cf|]; [|done].
  destruct (cf !! u) as [fi|]; [|done].
  destruct (active fi); simpl; [|done].
  destruct (fetched env) as [feed|]; [|done].
  destruct (checkItems (send env) c feed fi) as [fi1 posts].
  by destruct (written env).
Qed.

Lemma checkFeed_file env s c u :
  let s' := (checkFeed env s c u).1 in
  feedsFile s' = feedsFile s
  ∨ feedsFile s' = FileData (toFeedData (feeds s')).
Proof.
  unfold checkFeed.
  destruct (client s); simpl; [|by left].
  destruct (feeds s !! c) as [cf|]; [|by left].
  destruct (cf !! u) as [fi|]; [|by left].
  destruct (active fi); simpl; [|by left].
  destruct (fetched env) as [feed|]; [|by left].
  destruct (checkItems (send env) c feed fi) as [fi1 posts].
  destruct (written env); simpl; auto.
Qed.

(** The registry a new process loads: the records of the file, each read
    by [fromStored] under the constructor's configuration. *)
Lemma initialize_feeds cfg disk :
  feeds (initialize cfg disk)
  = (λ scf : gmap string StoredFeed, fromStored default_config <$> scf)
      <$> stored_feeds disk.
Proof.
  unfold initialize, loadFeeds. simpl.
  destruct disk as [| |fd]; simpl; [by rewrite fmap_empty..|].
  apply map_eq. intros c.
  rewrite lookup_merge, lookup_fmap, lookup_empty.
  destruct (fd !! c) as [scf|]; simpl; [|done].
  by rewrite (right_id_L ∅ (∪)).
Qed.
End registry.

(** ** The manager as a transition system: invariants *)

Section invariants.
Implicit Types (s : RSSManager) (op : Op) (c u : string) (cfg : Config)
  (m : gmap string (gmap string FeedInfo)).

Lemma exec_config op s : config (exec op s) = config s.
Proof.
  destruct op; simpl;
    auto using addFeed_config, removeFeed_config, checkFeed_config,
               saveFeeds_config.
Qed.

(** Every operation leaves the file alone or writes the registry it
    leaves in memory. *)
Lemma exec_file op s :
  feedsFile (exec op s) = feedsFile s
  ∨ feedsFile (exec op s) = FileData (toFeedData (feeds (exec op s))).
Proof.
  destruct op; simpl;
    auto using addFeed_file, removeFeed_file, checkFeed_file.
  destruct written0; simpl; auto.
Qed.

Lemma restart_or_not op : op = OpRestart ∨ op ≠ OpRestart.
Proof. destruct op; auto. Qed.

(** Every operation but a restart changes the registry by one step. *)
Lemma exec_feeds_step op s :
  op ≠ OpRestart → feeds_step (config s) (feeds s) (feeds (exec op s)).
Proof.
  intros Hop. destruct op as [v w c u i|w c u|env c u|w| |]; simpl.
  - destruct (addFeed_feeds v w s c u i)
      as [-> | [(Hc & Hcap & ->) | (fd & Hu & Hsz & Hint & ->)]].
    + constructor.
    + by constructor.
    + by econstructor.
  - destruct (removeFeed_feeds w s c u) as [-> | (cf & Hc & Hu & ->)].
    + constructor.
    + by constructor.
  - destruct (checkFeed_feeds env s c u)
      as [-> | (cf & fi & fi' & Hc & Hu & Hint & ->)].
    + constructor.
    + by econstructor.
  - rewrite saveFeeds_feeds. constructor.
  - constructor.
  - done.
Qed.

(** *** The cap on the feeds of a channel *)

Lemma within_cap_toFeedData cap m :
  within_cap cap m → within_cap cap (toFeedData m).
Proof.
  intros Hm c scf. cbv beta. unfold toFeedData. rewrite lookup_fmap.
  destruct (m !! c) as [cf|] eqn:Hc; simpl; [|done].
  intros [= <-]. rewrite map_size_fmap. by eapply Hm.
Qed.

Lemma within_cap_step cfg m m' :
  feeds_step cfg m m' →
  within_cap (maxFeedsPerChannel cfg) m →
  within_cap (maxFeedsPerChannel cfg) m'.
Proof.
  intros Hstep Hm.
  destruct Hstep as [|c Hc Hcap|c u fd i Hu Hsz Hint|c u cf Hc Hu
                    |c u cf fi fi' Hc Hu Hint]; [done|..];
    intros c' cf'; cbv beta.
  - rewrite lookup_insert. case_decide; [|by apply Hm].
    intros [= <-]. rewrite map_size_empty. lia.
  - rewrite lookup_insert. case_decide; [|by apply Hm].
    intros [= <-]. rewrite map_size_insert_None by done. exact Hsz.
  - case_bool_decide.
    + rewrite lookup_delete. case_decide; [done | by apply Hm].
    + rewrite lookup_insert. case_decide; [|by apply Hm].
      intros [= <-]. rewrite map_size_delete_Some by done.
      specialize (Hm c cf Hc). simpl in Hm. lia.
  - rewrite lookup_insert. case_decide; [|by apply Hm].
    intros [= <-]. rewrite map_size_insert_Some by (by eexists).
    by apply (Hm c).
Qed.

Lemma capacity_inv_exec op s : capacity_inv s → capacity_inv (exec op s).
Proof.
  intros [Hmem Hfile]. unfold capacity_inv. rewrite exec_config.
  assert (within_cap (maxFeedsPerChannel (config s)) (feeds (exec op s)))
    as Hmem'.
  { destruct (restart_or_not op) as [->|Hop].
    - cbn [exec]. rewrite initialize_feeds. intros c cf. cbv beta.
      rewrite lookup_fmap.
      destruct (stored_feeds (feedsFile s) !! c) as [scf|] eqn:Hc;
        simpl; [|done].
      intros [= <-]. rewrite map_size_fmap. by eapply Hfile.
    - eapply within_cap_step; [by apply exec_feeds_step | done]. }
  split; [done|].
  destruct (exec_file op s) as [-> | ->]; [done|].
  by apply within_cap_toFeedData.
Qed.
End invariants.

(** ** The claims about [addFeed] *)

(** C5 (as amended).  When [(c, u)] is already in the registry, [addFeed c u]
    fails and leaves the manager, hence the entries of [c], unchanged.  The
    error is the invalid-feed one when the URL does not validate; otherwise
    the limit one when [c] holds [maxFeedsPerChannel] feeds or more; and the
    already-exists one in the remaining case. *)
Theorem addFeed_present_fails validated w s c u i cf fi :
  feeds s !! c = Some cf → cf !! u = Some fi →
  addFeed validated w s c u i
  = (s, match validated with
        | Invalid e => AddInvalidFeed e
        | Valid _ =>
            if bool_decide (maxFeedsPerChannel (config s) ≤ size cf)
            then AddLimitExceeded
            else AddAlreadyExists
        end).
Proof.
  intros Hc Hu. unfold addFeed. destruct validated as [feed|e]; [|done].
  rewrite Hc. simpl. rewrite Hc. simpl. rewrite set_feeds_id.
  case_bool_decide; [done|].
  by rewrite Hu, bool_decide_eq_true_2 by by eexists.
Qed.

Lemma addFeed_present_fails_witness :
  addFeed (Valid (sample_feed ["A"])) true (sample_state JNull true)
          "chan" sample_url None
  = (sample_state JNull true, AddAlreadyExists).
Proof.
  etrans.
  - apply (addFeed_present_fails (Valid (sample_feed ["A"])) true
             (sample_state JNull true) "chan" sample_url None
             {[ sample_url :=
                  mkFeedInfo sample_url 300000 None JNull true
                             (JStr "Example") (JStr "An example feed") ]}
             (mkFeedInfo sample_url 300000 None JNull true
                         (JStr "Example") (JStr "An example feed")));
      by vm_compute.
  - by vm_compute.
Defined.

(** C5 (as stated) fails: a channel holds nine feeds, ["u10"] is added with
    success as its tenth, and adding ["u10"] again is refused with the limit
    error, not the already-exists one. *)
Lemma addFeed_present_at_cap :
  add_succeeded after_tenth_add.2 = true
  ∧ is_Some (getFeed after_tenth_add.1 "chan" "u10")
  ∧ (addFeed (Valid (sample_feed ["A"])) true after_tenth_add.1
             "chan" "u10" None).2
    = AddLimitExceeded
  ∧ (addFeed (Valid (sample_feed ["A"])) true after_tenth_add.1
             "chan" "u10" None).2
    ≠ AddAlreadyExists.
Proof.
  split_and!; [by vm_compute | by vm_compute; eexists | by vm_compute|].
  by vm_compute.
Qed.

(** C6 (as amended).  From a state in which no channel, in memory or in the
    file, holds more than [maxFeedsPerChannel] feeds, every run of
    operations ([addFeed], [removeFeed], [checkFeed], [saveFeeds],
    [startFeedChecking], a restart) ends in such a state.  [addFeed] on a
    channel that holds [maxFeedsPerChannel] feeds or more fails and leaves
    the manager unchanged: no entry is created and none removed; the error
    is the limit one when the URL validates and the invalid-feed one when it
    does not. *)
Theorem capacity_invariant s :
  capacity_inv s →
  (∀ ops, capacity_inv (foldl (λ s' op, exec op s') s ops))
  ∧ (∀ validated w c u i cf,
       feeds s !! c = Some cf →
       maxFeedsPerChannel (config s) ≤ size cf →
       addFeed validated w s c u i
       = (s, match validated with
             | Valid _ => AddLimitExceeded
             | Invalid e => AddInvalidFeed e
             end)).
Proof.
  intros Hinv. split.
  - intros ops. revert s Hinv.
    induction ops as [|op ops IH]; intros s Hinv; simpl; [done|].
    apply IH. by apply capacity_inv_exec.
  - intros validated w c u i cf Hc Hcap. unfold addFeed.
    destruct validated as [feed|e]; [|done].
    rewrite Hc. simpl. rewrite Hc. simpl. rewrite set_feeds_id.
    by rewrite bool_decide_eq_true_2.
Qed.

Lemma capacity_invariant_witness :
  capacity_inv
    (foldl (λ s' op, exec op s') (sample_channel ten_urls)
       [OpRemoveFeed true "chan" "u3";
        OpAddFeed (Valid (sample_feed ["A"])) true "chan" "u11" None;
        OpCheckFeed (sample_env ["A"]) "chan" "u11";
        OpRestart])
  ∧ addFeed (Valid (sample_feed ["A"])) true (sample_channel ten_urls)
            "chan" "u11" None
    = (sample_channel ten_urls, AddLimitExceeded).
Proof.
  destruct (capacity_invariant (sample_channel ten_urls)) as [Hrun Hadd].
  - split; apply (bool_decide_unpack _); by vm_compute.
  - split; [apply Hrun|].
    apply (Hadd (Valid (sample_feed ["A"])) true "chan" "u11" None
             (list_to_map
                ((λ u, (u, mkFeedInfo u 300000 None JNull true (JStr "Example")
                                      (JStr "An example feed")))
                   <$> ten_urls))).
    + by vm_compute.
    + vm_compute. lia.
Defined.

(** C6 (as stated) fails: on a channel that holds ten feeds, the cap,
    [addFeed] with a URL that does not validate is refused with the
    invalid-feed error, not the limit one. *)
Lemma addFeed_at_cap_invalid :
  size <$> (feeds (sample_channel ten_urls) !! "chan") = Some 10
  ∧ maxFeedsPerChannel (config (sample_channel ten_urls)) = 10
  ∧ (addFeed (Invalid "Status code 404") true (sample_channel ten_urls)
             "chan" "u11" None).2
    ≠ AddLimitExceeded.
Proof. split_and!; by vm_compute. Qed.

(** ** Channels without feeds *)

Section nonempty.
Implicit Types (s : RSSManager) (op : Op) (c u : string) (cfg : Config)
  (m : gmap string (gmap string FeedInfo)).

Lemma no_empty_toFeedData m :
  no_empty_channel m → no_empty_channel (toFeedData m).
Proof.
  intros Hm c scf. cbv beta. unfold toFeedData. rewrite lookup_fmap.
  destruct (m !! c) as [cf|] eqn:Hc; simpl; [|done].
  intros [= <-]. rewrite map_size_fmap. by eapply (Hm c).
Qed.

Lemma no_empty_step cfg m m' :
  0 < maxFeedsPerChannel cfg →
  feeds_step cfg m m' → no_empty_channel m → no_empty_channel m'.
Proof.
  intros Hpos Hstep Hm.
  destruct Hstep as [|c Hc Hcap|c u fd i Hu Hsz Hint|c u cf Hc Hu
                    |c u cf fi fi' Hc Hu Hint]; [done|lia|..];
    intros c' cf'; cbv beta.
  - rewrite lookup_insert. case_decide; [|by apply Hm].
    intros [= <-]. by rewrite map_size_insert_None.
  - case_bool_decide.
    + rewrite lookup_delete. case_decide; [done | by apply Hm].
    + rewrite lookup_insert. case_decide; [|by apply Hm].
      by intros [= <-].
  - rewrite lookup_insert. case_decide; [|by apply Hm].
    intros [= <-]. rewrite map_size_insert_Some by (by eexists).
    by apply (Hm c).
Qed.

Lemma nonempty_inv_exec op s :
  0 < maxFeedsPerChannel (config s) →
  nonempty_inv s → nonempty_inv (exec op s).
Proof.
  intros Hpos [Hmem Hfile]. unfold nonempty_inv.
  assert (no_empty_channel (feeds (exec op s))) as Hmem'.
  { destruct (restart_or_not op) as [->|Hop].
    - cbn [exec]. rewrite initialize_feeds. intros c cf. cbv beta.
      rewrite lookup_fmap.
      destruct (stored_feeds (feedsFile s) !! c) as [scf|] eqn:Hc;
        simpl; [|done].
      intros [= <-]. rewrite map_size_fmap. by eapply (Hfile c).
    - eapply no_empty_step; [done | by apply exec_feeds_step | done]. }
  split; [done|].
  destruct (exec_file op s) as [-> | ->]; [done|].
  by apply no_empty_toFeedData.
Qed.

(** With no empty channel, there are at least as many feeds as
    channels. *)
Lemma channels_le_feeds s :
  no_empty_channel (feeds s) →
  totalChannels (getStatistics s) ≤ totalFeeds (getStatistics s).
Proof.
  simpl. unfold getTotalFeedCount. generalize (feeds s).
  apply (map_fold_weak_ind
           (λ count m, no_empty_channel m → size m ≤ count)).
  - intros _. by rewrite map_size_empty.
  - intros c cf m count Hc IH Hm.
    rewrite map_size_insert_None by done.
    assert (size cf ≠ 0) as Hcf.
    { apply (Hm c). by rewrite lookup_insert_eq. }
    assert (size m ≤ count) as Hle.
    { apply IH. intros c' cf' Hc'. apply (Hm c').
      rewrite lookup_insert_ne; [done|]. by intros ->; simplify_eq. }
    lia.
Qed.
End nonempty.

(** A new process that finds no file starts within both invariants. *)
Lemma invariants_init cfg :
  capacity_inv (initialize cfg FileAbsent)
  ∧ nonempty_inv (initialize cfg FileAbsent).
Proof. by repeat split. Qed.

(** C10 (as amended).  Let [maxFeedsPerChannel] be at least one.  From a
    state in which every channel key, in memory and in the file, maps to a
    non-empty map, every run of operations ends in such a state.
    [removeFeed] of the only feed of a channel removes the channel key.
    [addFeed] on a channel that has no key either leaves it without key or
    leaves it with a map holding the new feed.  [getChannelFeeds] of a
    channel without key is the empty list, and the channels with a key are
    those for which it is not empty; [getStatistics] counts as channels
    the channels holding at least one feed, which are no more than the
    feeds. *)
Theorem no_empty_channel_invariant s :
  0 < maxFeedsPerChannel (config s) → nonempty_inv s →
  (∀ ops, nonempty_inv (foldl (λ s' op, exec op s') s ops))
  ∧ (∀ w c u cf,
       feeds s !! c = Some cf → size cf = 1 → is_Some (cf !! u) →
       feeds (removeFeed w s c u).1 !! c = None)
  ∧ (∀ validated w c u i,
       feeds s !! c = None →
       feeds (addFeed validated w s c u i).1 !! c = None
       ∨ ∃ fd, feeds (addFeed validated w s c u i).1 !! c = Some {[u := fd]})
  ∧ (∀ c, feeds s !! c = None → getChannelFeeds s c = [])
  ∧ (∀ c, c ∈ dom (feeds s) ↔ getChannelFeeds s c ≠ [])
  ∧ totalChannels (getStatistics s)
    = size (filter (λ kv, size kv.2 ≠ 0) (feeds s))
  ∧ totalChannels (getStatistics s) ≤ totalFeeds (getStatistics s).
Proof.
  intros Hpos Hinv. split_and!.
  - intros ops. revert s Hpos Hinv.
    induction ops as [|op ops IH]; intros s Hpos Hinv; simpl; [done|].
    apply IH; [by rewrite exec_config | by apply nonempty_inv_exec].
  - intros w c u cf Hc Hsz [f Hu]. unfold removeFeed. rewrite Hc, Hu.
    rewrite bool_decide_eq_true_2
      by (rewrite map_size_delete_Some by (by eexists); lia).
    destruct w; simpl; by rewrite lookup_delete_eq.
  - intros validated w c u i Hc.
    destruct (addFeed_feeds validated w s c u i)
      as [-> | [(_ & Hcap & _) | (fd & _ & _ & _ & ->)]]; [by left|lia|].
    right. exists fd. rewrite Hc. simpl. rewrite lookup_insert_eq.
    by rewrite insert_empty.
  - intros c Hc. unfold getChannelFeeds. by rewrite Hc.
  - intros c. rewrite elem_of_dom. unfold getChannelFeeds.
    destruct (feeds s !! c) as [cf|] eqn:Hc.
    + split; [intros _ | by eexists].
      intros Hnil%fmap_nil_inv%map_to_list_empty_iff.
      destruct Hinv as [Hmem _]. apply (Hmem c cf Hc).
      by rewrite Hnil, map_size_empty.
    + split; [by intros [??] | done].
  - simpl. rewrite map_filter_id; [done|].
    intros c cf Hc. destruct Hinv as [Hmem _]. by apply (Hmem c).
  - apply channels_le_feeds. by destruct Hinv.
Qed.

Lemma no_empty_channel_invariant_witness :
  nonempty_inv
    (foldl (λ s' op, exec op s') (sample_state JNull true)
       [OpAddFeed (Valid (sample_feed ["A"])) true "other" "u1" None;
        OpRemoveFeed true "chan" sample_url;
        OpCheckFeed (sample_env ["A"]) "other" "u1";
        OpRestart])
  ∧ feeds (removeFeed true (sample_state JNull true) "chan" sample_url).1
      !! "chan" = None
  ∧ getChannelFeeds (sample_state JNull true) "nowhere" = [].
Proof.
  destruct (no_empty_channel_invariant (sample_state JNull true))
    as (Hrun & Hremove & _ & Hlist & _).
  - vm_compute. lia.
  - split; apply (bool_decide_unpack _); by vm_compute.
  - split_and!.
    + apply Hrun.
    + apply (Hremove true "chan" sample_url
               {[ sample_url :=
                    mkFeedInfo sample_url 300000 None JNull true
                               (JStr "Example") (JStr "An example feed") ]});
        [by vm_compute | by vm_compute | by vm_compute; eexists].
    + apply Hlist. by vm_compute.
Defined.

(** C10 (as stated) fails when the cap is zero: [addFeed] on a channel
    without key creates the empty map of the channel and then refuses the
    feed, so that the channel is counted by [getStatistics] though
    [getChannelFeeds] lists nothing for it. *)
Lemma addFeed_zero_cap_leaves_empty_channel :
  nonempty_inv zero_cap_manager
  ∧ feeds after_zero_cap_add !! "chan" = Some ∅
  ∧ getChannelFeeds after_zero_cap_add "chan" = []
  ∧ totalChannels (getStatistics after_zero_cap_add) = 1
  ∧ totalFeeds (getStatistics after_zero_cap_add) = 0
  ∧ ¬ nonempty_inv after_zero_cap_add.
Proof.
  split_and!.
  - split; apply (bool_decide_unpack _); by vm_compute.
  - by vm_compute.
  - by vm_compute.
  - by vm_compute.
  - by vm_compute.
  - intros [Hmem _]. by apply (Hmem "chan" ∅).
Qed.

(** ** Persistence *)

Section persistence.
Implicit Types (s : RSSManager) (cfg : Config) (f : FeedInfo) (w : jsval)
  (m : gmap string (gmap string FeedInfo)).

Lemma watermark_of_js_or_null w :
  watermark_of (js_or w JNull) = watermark_of w.
Proof.
  destruct w as [| |id]; [done..|].
  unfold js_or. simpl.
  destruct (String.eqb id "") eqn:Hid; simpl; by rewrite ?Hid.
Qed.

Lemma watermark_of_truthy w : truthy w = bool_decide (is_Some (watermark_of w)).
Proof.
  destruct w as [| |id]; simpl; [done..|].
  by destruct (String.eqb id "").
Qed.

Lemma watermark_of_inj w w' :
  watermark_of w = watermark_of w' → is_Some (watermark_of w) → w = w'.
Proof.
  destruct w as [| |id], w' as [| |id']; simpl;
    repeat case_match; intros; simplify_eq; try done;
    by match goal with H : is_Some None |- _ => destruct H end.
Qed.

(** The loop reads the stored watermark through [watermark_of] only: two
    stored values with the same reading select the same items. *)
Lemma unseen_watermark_of w w' l :
  watermark_of w = watermark_of w' → unseen w l = unseen w' l.
Proof.
  intros Hw. destruct (watermark_of w) as [id|] eqn:Hid.
  - by rewrite (watermark_of_inj w w') by (by rewrite ?Hid).
  - rewrite !unseen_falsy; [done|..]; rewrite watermark_of_truthy.
    + rewrite <- Hw. apply bool_decide_eq_false_2. by intros [??].
    + rewrite Hid. apply bool_decide_eq_false_2. by intros [??].
Qed.

(** A record written by [saveFeeds] and read by [loadFeeds] is the same
    entry, provided its interval is not zero. *)
Lemma same_entry_reload cfg f :
  interval f ≠ 0%Z → same_entry (fromStored cfg (toStored f)) f.
Proof.
  intros Hint. unfold same_entry, fromStored, toStored, num_or. simpl.
  rewrite watermark_of_js_or_null.
  destruct (Z.eqb_spec (interval f) 0); [done|].
  split_and!; try done. by destruct (active f).
Qed.

Lemma registry_equiv_fmap (g : FeedInfo → FeedInfo) m :
  (∀ c cf u f, m !! c = Some cf → cf !! u = Some f → same_entry (g f) f) →
  registry_equiv ((λ cf : gmap string FeedInfo, g <$> cf) <$> m) m.
Proof.
  intros Hg. split; [by rewrite dom_fmap_L|].
  intros c cf' cf. rewrite lookup_fmap. intros Hc' Hc.
  rewrite Hc in Hc'. simpl in Hc'. injection Hc' as <-.
  split; [by rewrite dom_fmap_L|].
  intros u f' f. rewrite lookup_fmap. intros Hu' Hu.
  rewrite Hu in Hu'. simpl in Hu'. injection Hu' as <-.
  by eapply Hg.
Qed.

(** What a new process loads from the file [saveFeeds] wrote. *)
Lemma initialize_after_save cfg m :
  feeds (initialize cfg (FileData (toFeedData m)))
  = (λ cf : gmap string FeedInfo,
       (λ f, fromStored default_config (toStored f)) <$> cf) <$> m.
Proof.
  rewrite initialize_feeds. simpl. unfold toFeedData.
  rewrite <- map_fmap_compose. apply map_fmap_ext. intros c cf _. simpl.
  by rewrite <- map_fmap_compose.
Qed.

(** What [loadFeeds] leaves when called right after [saveFeeds] in the
    same process. *)
Lemma loadFeeds_after_save s :
  feeds (loadFeeds (saveFeeds true s).1)
  = (λ cf : gmap string FeedInfo,
       (λ f, fromStored (config s) (toStored f)) <$> cf) <$> feeds s.
Proof.
  unfold loadFeeds. simpl. apply map_eq. intros c.
  rewrite lookup_merge, lookup_fmap. unfold toFeedData.
  rewrite lookup_fmap.
  destruct (feeds s !! c) as [cf|]; simpl; [|done].
  f_equal. rewrite <- map_fmap_compose. apply map_eq. intros u.
  rewrite lookup_union, !lookup_fmap.
  by destruct (cf !! u).
Qed.

Lemma intervals_step cfg m m' :
  defaultInterval cfg ≠ 0%Z →
  feeds_step cfg m m' → intervals_nonzero m → intervals_nonzero m'.
Proof.
  intros Hdef Hstep Hm.
  destruct Hstep as [|c Hc Hcap|c u fd i Hu Hsz Hint|c u cf Hc Hu
                    |c u cf fi fi' Hc Hu Hint]; [done|..];
    intros c' cf' u' f'.
  - rewrite lookup_insert. case_decide; [|by apply Hm].
    by intros [= <-].
  - rewrite lookup_insert. case_decide; [|by apply Hm].
    intros [= <-]. rewrite lookup_insert. case_decide.
    + intros [= <-]. rewrite Hint. unfold num_or.
      destruct i as [n|]; [|done]. by destruct (Z.eqb_spec n 0).
    + destruct (m !! c) as [cf|] eqn:Hc; simpl; [by apply (Hm c)|done].
  - case_bool_decide.
    + rewrite lookup_delete. case_decide; [done | by apply Hm].
    + rewrite lookup_insert. case_decide; [|by apply Hm].
      intros [= <-]. rewrite lookup_delete. case_decide; [done|].
      by apply (Hm c).
  - rewrite lookup_insert. case_decide; [|by apply Hm].
    intros [= <-]. rewrite lookup_insert. case_decide.
    + intros [= <-]. rewrite Hint. by apply (Hm c cf u).
    + by apply (Hm c).
Qed.

(** The hypothesis of the round trip holds along every run: with a
    non-zero default interval, no operation stores a zero interval. *)
Lemma intervals_nonzero_exec op s :
  defaultInterval (config s) ≠ 0%Z →
  intervals_nonzero (feeds s) → intervals_nonzero (feeds (exec op s)).
Proof.
  intros Hdef Hm. destruct (restart_or_not op) as [->|Hop].
  - cbn [exec]. rewrite initialize_feeds. intros c cf u f.
    rewrite lookup_fmap.
    destruct (stored_feeds (feedsFile s) !! c) as [scf|]; simpl; [|done].
    intros [= <-]. rewrite lookup_fmap.
    destruct (scf !! u) as [sf|]; simpl; [|done].
    intros [= <-]. unfold fromStored, num_or. simpl.
    destruct (s_interval sf) as [n|]; [|done].
    by destruct (Z.eqb_spec n 0).
  - eapply intervals_step; [done | by apply exec_feeds_step | done].
Qed.
End persistence.

(** C7 (as amended).  For a registry whose intervals are not zero,
    [saveFeeds] followed by [loadFeeds], in a new process or in the same
    one, gives a registry with the same destinations, the same URLs under
    each destination, and under each URL an entry with the same URL,
    watermark, interval, active flag and time of last check.  A new
    process that finds no file starts with the empty registry; [loadFeeds]
    then changes nothing and raises nothing. *)
Theorem save_load_roundtrip s cfg :
  intervals_nonzero (feeds s) →
  registry_equiv
    (feeds (initialize cfg (feedsFile (saveFeeds true s).1))) (feeds s)
  ∧ registry_equiv (feeds (loadFeeds (saveFeeds true s).1)) (feeds s)
  ∧ feeds (initialize cfg FileAbsent) = ∅
  ∧ loadFeeds (new_manager FileAbsent) = new_manager FileAbsent.
Proof.
  intros Hint. split_and!; [| |done..].
  - change (feedsFile (saveFeeds true s).1)
      with (FileData (toFeedData (feeds s))).
    rewrite initialize_after_save.
    apply registry_equiv_fmap. intros c cf u f Hc Hu.
    apply same_entry_reload. by eapply Hint.
  - rewrite loadFeeds_after_save.
    apply registry_equiv_fmap. intros c cf u f Hc Hu.
    apply same_entry_reload. by eapply Hint.
Qed.

Lemma intervals_nonzero_decide (m : gmap string (gmap string FeedInfo)) :
  map_Forall (λ _ cf, map_Forall (λ _ f, interval f ≠ 0%Z) cf) m →
  intervals_nonzero m.
Proof. intros Hm c cf u f Hc Hu. by apply (Hm c cf Hc u f). Qed.

Lemma save_load_roundtrip_witness :
  registry_equiv
    (feeds (initialize default_config (feedsFile (saveFeeds true sample_polled).1)))
    (feeds sample_polled)
  ∧ registry_equiv (feeds (loadFeeds (saveFeeds true sample_polled).1))
                   (feeds sample_polled).
Proof.
  destruct (save_load_roundtrip sample_polled default_config)
    as (Hnew & Hsame & _).
  - apply intervals_nonzero_decide, (bool_decide_unpack _). by vm_compute.
  - by split.
Defined.

(** C7 (as stated) fails: under a default interval of zero a feed added
    without an interval of its own has the interval zero, which is saved;
    a new process, which loads the feeds under the default of the
    constructor, reads it back as 300000. *)
Lemma zero_interval_reloads_as_default :
  interval <$> getFeed zero_interval_added "chan" sample_url = Some 0%Z
  ∧ feedsFile zero_interval_added
    = FileData (toFeedData (feeds zero_interval_added))
  ∧ interval <$> getFeed zero_interval_reloaded "chan" sample_url
    = Some 300000%Z
  ∧ ¬ registry_equiv (feeds zero_interval_reloaded)
                     (feeds zero_interval_added).
Proof.
  split_and!; [by vm_compute..|].
  intros [_ Hequiv].
  destruct (Hequiv "chan"
              {[ sample_url := mkFeedInfo sample_url 300000 None JNull true
                                 (JStr "Example") (JStr "An example feed") ]}
              {[ sample_url := mkFeedInfo sample_url 0 None JNull true
                                 (JStr "Example") (JStr "An example feed") ]})
    as [_ Hentries]; [by vm_compute..|].
  destruct (Hentries sample_url
              (mkFeedInfo sample_url 300000 None JNull true
                          (JStr "Example") (JStr "An example feed"))
              (mkFeedInfo sample_url 0 None JNull true
                          (JStr "Example") (JStr "An example feed")))
    as (_ & _ & Hinterval & _); [by vm_compute..|].
  discriminate Hinterval.
Qed.

(** The reading [watermark_of] is what survives the file: a watermark that
    is [undefined] (the first item of the document had no [guid]) or the
    empty string is read back as [null]; so are a missing title and
    description read back as their defaults. *)
Lemma reload_falsy_fields cfg f :
  truthy (lastPostId f) = false →
  lastPostId (fromStored cfg (toStored f)) = JNull
  ∧ title (fromStored cfg (toStored f)) = js_or (title f) (JStr "Unknown Feed")
  ∧ description (fromStored cfg (toStored f)) = js_or (description f) (JStr "").
Proof. intros Hw. unfold fromStored, toStored, js_or. simpl. by rewrite Hw. Qed.

(** A record whose texts are truthy strings and whose watermark is [null]
    or a truthy string is read back as it was written. *)
Lemma reload_exact cfg f :
  interval f ≠ 0%Z →
  truthy (lastPostId f) = true ∨ lastPostId f = JNull →
  truthy (title f) = true →
  truthy (description f) = true ∨ description f = JStr "" →
  fromStored cfg (toStored f) = f.
Proof.
  intros Hint Hw Ht Hd. destruct f as [u0 n lc w a t d]. simpl in *.
  unfold fromStored, toStored, js_or, num_or. simpl.
  destruct (Z.eqb_spec n 0); [done|]. rewrite Ht.
  destruct Hw as [-> | ->], Hd as [-> | ->], a; done.
Qed.

(** * Further properties of the manager *)

(** ** Lookups after insertions and deletions *)

Section lookups.
Implicit Types (s : RSSManager) (c u : string)
  (m : gmap string (gmap string FeedInfo)) (cf : gmap string FeedInfo).

Lemma getFeed_feeds s s' c u :
  feeds s = feeds s' → getFeed s c u = getFeed s' c u.
Proof. unfold getFeed. by intros ->. Qed.

Lemma getFeed_insert s s' c u f c' u' :
  feeds s' = <[c := <[u := f]> (default ∅ (feeds s !! c))]> (feeds s) →
  getFeed s' c' u'
  = if decide (c' = c ∧ u' = u) then Some f else getFeed s c' u'.
Proof.
  intros Hs'. unfold getFeed. rewrite Hs', lookup_insert.
  destruct (decide (c = c')) as [->|Hc]; simpl.
  - rewrite lookup_insert. destruct (decide (u = u')) as [->|Hu].
    + by rewrite decide_True.
    + rewrite decide_False by (intros [??]; congruence).
      by destruct (feeds s !! c').
  - by rewrite decide_False by (intros [??]; congruence).
Qed.

Lemma getFeed_remove s s' c u cf c' u' :
  feeds s !! c = Some cf →
  feeds s' = (if bool_decide (size (delete u cf) = 0)
              then delete c (feeds s)
              else <[c := delete u cf]> (feeds s)) →
  getFeed s' c' u'
  = if decide (c' = c ∧ u' = u) then None else getFeed s c' u'.
Proof.
  intros Hc Hs'. unfold getFeed. rewrite Hs'.
  case_bool_decide as Hsz.
  - apply map_size_empty_iff in Hsz. rewrite lookup_delete.
    destruct (decide (c = c')) as [<-|Hne]; simpl.
    + rewrite Hc. simpl. case_decide; [done|].
      destruct (decide (u = u')) as [<-|Hu]; [naive_solver|].
      by rewrite <- (lookup_delete_ne cf u u'), Hsz, lookup_empty.
    + by rewrite decide_False by (intros [??]; congruence).
  - rewrite lookup_insert.
    destruct (decide (c = c')) as [<-|Hne]; simpl.
    + rewrite Hc. simpl. rewrite lookup_delete.
      destruct (decide (u = u')) as [<-|Hu].
      * by rewrite decide_True.
      * by rewrite decide_False by (intros [??]; congruence).
    + by rewrite decide_False by (intros [??]; congruence).
Qed.

Lemma getTotalFeedCount_feeds s s' :
  feeds s = feeds s' → getTotalFeedCount s = getTotalFeedCount s'.
Proof. unfold getTotalFeedCount. by intros ->. Qed.

Lemma getTotalFeedCount_delete s c cf :
  feeds s !! c = Some cf →
  getTotalFeedCount s
  = getTotalFeedCount (set_feeds (delete c (feeds s)) s) + size cf.
Proof.
  intros Hc. unfold getTotalFeedCount. simpl.
  rewrite (map_fold_delete_L _ _ c cf (feeds s)); [done| |done].
  intros. lia.
Qed.

Lemma getTotalFeedCount_insert s c cf :
  getTotalFeedCount (set_feeds (<[c := cf]> (feeds s)) s)
    + size (default ∅ (feeds s !! c))
  = getTotalFeedCount s + size cf.
Proof.
  destruct (feeds s !! c) as [old|] eqn:Hc; simpl.
  - rewrite (getTotalFeedCount_delete s c old Hc).
    rewrite (getTotalFeedCount_delete (set_feeds (<[c:=cf]> (feeds s)) s) c cf)
      by (simpl; apply lookup_insert_eq).
    simpl. rewrite delete_insert_eq.
    rewrite (getTotalFeedCount_feeds
               (set_feeds (delete c (feeds s))
                          (set_feeds (<[c:=cf]> (feeds s)) s))
               (set_feeds (delete c (feeds s)) s)) by done.
    lia.
  - rewrite map_size_empty. unfold getTotalFeedCount. simpl.
    rewrite map_fold_insert_L; [lia| |done].
    intros. lia.
Qed.

(** [addFeed] that answers with success: what was tested and what was
    done. *)
Lemma addFeed_AddOk validated w s c u i fd :
  (addFeed validated w s c u i).2 = AddOk fd →
  ∃ feed,
    validated = Valid feed ∧ w = true
    ∧ default ∅ (feeds s !! c) !! u = None
    ∧ size (default ∅ (feeds s !! c)) < maxFeedsPerChannel (config s)
    ∧ fd = mkFeedInfo u
             (match i with
              | Some n => num_or n (defaultInterval (config s))
              | None => defaultInterval (config s)
              end)
             None JNull true
             (js_or (feed_title feed) (JStr "Unknown Feed"))
             (js_or (feed_description feed) (JStr ""))
    ∧ feeds (addFeed validated w s c u i).1
      = <[c := <[u := fd]> (default ∅ (feeds s !! c))]> (feeds s)
    ∧ feedsFile (addFeed validated w s c u i).1
      = FileData (toFeedData (feeds (addFeed validated w s c u i).1)).
Proof.
  unfold addFeed. destruct validated as [feed|e]; [|done].
  destruct (feeds s !! c) as [cf|] eqn:Hc; simpl.
  - rewrite Hc. simpl. case_bool_decide as Hcap; [done|].
    case_bool_decide as Hdup; [done|].
    destruct w; simpl; [|done]. intros [= <-].
    exists feed. split_and!; try done; [by apply eq_None_not_Some | lia].
  - rewrite lookup_insert_eq. simpl. rewrite map_size_empty, lookup_empty.
    case_bool_decide as Hcap; [done|].
    rewrite bool_decide_eq_false_2 by by intros [??].
    destruct w; simpl; [|done]. intros [= <-].
    exists feed. rewrite insert_insert_eq.
    split_and!; try done. lia.
Qed.

(** [addFeed] that answers with the general error: the record was inserted
    and the save failed. *)
Lemma addFeed_AddError validated w s c u i :
  (addFeed validated w s c u i).2 = AddError →
  ∃ fd,
    w = false
    ∧ default ∅ (feeds s !! c) !! u = None
    ∧ feeds (addFeed validated w s c u i).1
      = <[c := <[u := fd]> (default ∅ (feeds s !! c))]> (feeds s)
    ∧ feedsFile (addFeed validated w s c u i).1 = feedsFile s.
Proof.
  unfold addFeed. destruct validated as [feed|e]; [|done].
  destruct (feeds s !! c) as [cf|] eqn:Hc; simpl.
  - rewrite Hc. simpl. case_bool_decide as Hcap; [done|].
    case_bool_decide as Hdup; [done|].
    destruct w; simpl; [done|]. intros _.
    eexists. split_and!; try done. by apply eq_None_not_Some.
  - rewrite lookup_insert_eq. simpl. rewrite map_size_empty, lookup_empty.
    case_bool_decide as Hcap; [done|].
    rewrite bool_decide_eq_false_2 by by intros [??].
    destruct w; simpl; [done|]. intros _.
    eexists. rewrite insert_insert_eq. by split_and!.
Qed.

(** [addFeed] that refuses: the registry is as before, but for the empty
    map of a channel that had no key. *)
Lemma addFeed_refused validated w s c u i :
  match (addFeed validated w s c u i).2 with
  | AddOk _ | AddError => True
  | _ =>
      feeds (addFeed validated w s c u i).1 = feeds s
      ∨ (feeds s !! c = None
         ∧ feeds (addFeed validated w s c u i).1 = <[c := ∅]> (feeds s))
  end.
Proof.
  unfold addFeed. destruct validated as [feed|e]; simpl; [|by left].
  destruct (feeds s !! c) as [cf|] eqn:Hc; simpl.
  - rewrite Hc. simpl. case_bool_decide; simpl; [by left|].
    case_bool_decide; simpl; [by left|]. by destruct w.
  - rewrite lookup_insert_eq. simpl. rewrite map_size_empty, lookup_empty.
    case_bool_decide; simpl; [by right|]. by destruct w.
Qed.

(** [removeFeed] by its answer. *)
Lemma removeFeed_found w s c u fi :
  getFeed s c u = Some fi →
  ∃ cf,
    feeds s !! c = Some cf ∧ cf !! u = Some fi
    ∧ (removeFeed w s c u).2 = (if w then RemoveOk else RemoveError)
    ∧ feeds (removeFeed w s c u).1
      = (if bool_decide (size (delete u cf) = 0)
         then delete c (feeds s)
         else <[c := delete u cf]> (feeds s))
    ∧ feedsFile (removeFeed w s c u).1
      = (if w then FileData (toFeedData (feeds (removeFeed w s c u).1))
         else feedsFile s).
Proof.
  intros (cf & Hc & Hu)%getFeed_Some. exists cf.
  unfold removeFeed. rewrite Hc, Hu. by destruct w.
Qed.

Lemma removeFeed_missing w s c u :
  getFeed s c u = None →
  (removeFeed w s c u).1 = s
  ∧ ((removeFeed w s c u).2 = RemoveNoChannel
     ∨ (removeFeed w s c u).2 = RemoveNotFound).
Proof.
  unfold getFeed, removeFeed.
  destruct (feeds s !! c) as [cf|]; simpl; [|by auto].
  intros ->. auto.
Qed.
End lookups.

(** ** Listing, counting, adding and removing *)

(** X1.  [getChannelFeeds] lists every feed of the channel exactly once: the
    URLs listed are pairwise distinct, there are as many as the channel
    holds feeds, and an element is listed exactly when it is made of a
    registered URL of the channel and of the title, description, flag, time
    of last check and interval of its record. *)
Theorem getChannelFeeds_lists_each_feed_once s c :
  NoDup (l_url <$> getChannelFeeds s c)
  ∧ length (getChannelFeeds s c) = size (default ∅ (feeds s !! c))
  ∧ ∀ listing,
      listing ∈ getChannelFeeds s c
      ↔ ∃ fi, getFeed s c (l_url listing) = Some fi
              ∧ listing = mkFeedListing (l_url listing) (title fi)
                            (description fi) (active fi) (lastChecked fi)
                            (interval fi).
Proof.
  unfold getChannelFeeds, getFeed.
  destruct (feeds s !! c) as [cf|]; simpl.
  - split_and!.
    + rewrite <- list_fmap_compose.
      erewrite list_fmap_ext; [apply NoDup_fst_map_to_list|].
      by intros ? [??] ?.
    + by rewrite length_fmap, length_map_to_list.
    + intros listing. rewrite list_elem_of_fmap. split.
      * intros ([u fi] & -> & Hin%elem_of_map_to_list). simpl. eauto.
      * intros (fi & Hu & Hl). exists (l_url listing, fi).
        split; [done | by apply elem_of_map_to_list].
  - split_and!; [constructor | by rewrite map_size_empty|].
    intros listing. split; [by intros ?%elem_of_nil | by intros (? & ? & _)].
Qed.

(** X2.  [addFeed] changes the total number of feeds by one exactly when it
    inserts a record, which it does when it answers with success or, the
    save having failed, with the general error; every other answer leaves
    the total as it was. *)
Theorem addFeed_total_feeds validated w s c u i :
  totalFeeds (getStatistics (addFeed validated w s c u i).1)
  = totalFeeds (getStatistics s)
    + match (addFeed validated w s c u i).2 with
      | AddOk _ | AddError => 1
      | _ => 0
      end.
Proof.
  simpl.
  pose proof (getTotalFeedCount_insert s c) as Hins.
  destruct ((addFeed validated w s c u i).2) as [fd|e| | |] eqn:Hr.
  - apply addFeed_AddOk in Hr as (feed & _ & _ & Hu & _ & _ & Hfeeds & _).
    specialize (Hins (<[u:=fd]> (default ∅ (feeds s !! c)))).
    rewrite map_size_insert_None in Hins by done.
    rewrite (getTotalFeedCount_feeds _ (set_feeds _ s) Hfeeds). lia.
  - pose proof (addFeed_refused validated w s c u i) as Href.
    rewrite Hr in Href. destruct Href as [Hsame | [Hc Hnew]].
    + rewrite (getTotalFeedCount_feeds _ s Hsame). lia.
    + specialize (Hins ∅). rewrite Hc in Hins. simpl in Hins.
      rewrite (getTotalFeedCount_feeds _ (set_feeds _ s) Hnew). lia.
  - pose proof (addFeed_refused validated w s c u i) as Href.
    rewrite Hr in Href. destruct Href as [Hsame | [Hc Hnew]].
    + rewrite (getTotalFeedCount_feeds _ s Hsame). lia.
    + specialize (Hins ∅). rewrite Hc in Hins. simpl in Hins.
      rewrite (getTotalFeedCount_feeds _ (set_feeds _ s) Hnew). lia.
  - pose proof (addFeed_refused validated w s c u i) as Href.
    rewrite Hr in Href. destruct Href as [Hsame | [Hc Hnew]].
    + rewrite (getTotalFeedCount_feeds _ s Hsame). lia.
    + specialize (Hins ∅). rewrite Hc in Hins. simpl in Hins.
      rewrite (getTotalFeedCount_feeds _ (set_feeds _ s) Hnew). lia.
  - apply addFeed_AddError in Hr as (fd & _ & Hu & Hfeeds & _).
    specialize (Hins (<[u:=fd]> (default ∅ (feeds s !! c)))).
    rewrite map_size_insert_None in Hins by done.
    rewrite (getTotalFeedCount_feeds _ (set_feeds _ s) Hfeeds). lia.
Qed.

(** X3.  [removeFeed] of a registered feed answers with success, or with
    the general error when the save fails; either way the feed is gone
    from the registry, every other feed is as before, and the total number
    of feeds is one less.  [removeFeed] of a feed that is not registered
    answers that the channel has no feeds or that the feed is not found,
    and leaves the manager, file included, as it was. *)
Theorem removeFeed_unregisters w s c u :
  (∀ fi, getFeed s c u = Some fi →
     (removeFeed w s c u).2 = (if w then RemoveOk else RemoveError)
     ∧ getFeed (removeFeed w s c u).1 c u = None
     ∧ (∀ c' u', (c', u') ≠ (c, u) →
          getFeed (removeFeed w s c u).1 c' u' = getFeed s c' u')
     ∧ totalFeeds (getStatistics s)
       = totalFeeds (getStatistics (removeFeed w s c u).1) + 1)
  ∧ (getFeed s c u = None →
     (removeFeed w s c u).1 = s
     ∧ (removeFeed w s c u).2
       = match feeds s !! c with
         | Some _ => RemoveNotFound
         | None => RemoveNoChannel
         end).
Proof.
  split.
  - intros fi Hfi.
    destruct (removeFeed_found w s c u fi Hfi)
      as (cf & Hc & Hu & Hr & Hfeeds & _).
    split_and!; [done| | |].
    + rewrite (getFeed_remove s _ c u cf c u Hc Hfeeds).
      by rewrite decide_True.
    + intros c' u' Hne.
      rewrite (getFeed_remove s _ c u cf c' u' Hc Hfeeds).
      by rewrite decide_False by (intros [??]; congruence).
    + simpl. rewrite (getTotalFeedCount_delete s c cf Hc).
      assert (size (delete u cf) = pred (size cf)) as Hsz
        by (apply map_size_delete_Some; by eexists).
      assert (size cf ≠ 0) as Hne.
      { intros ->%map_size_empty_iff. by rewrite lookup_empty in Hu. }
      revert Hfeeds. case_bool_decide as Hlast; intros Hfeeds.
      * rewrite (getTotalFeedCount_feeds _ (set_feeds _ s) Hfeeds). lia.
      * pose proof (getTotalFeedCount_insert s c (delete u cf)) as Hins.
        rewrite Hc in Hins. simpl in Hins.
        rewrite (getTotalFeedCount_delete s c cf Hc) in Hins.
        rewrite (getTotalFeedCount_feeds _ (set_feeds _ s) Hfeeds). lia.
  - unfold getFeed, removeFeed.
    destruct (feeds s !! c) as [cf|]; simpl; [|done].
    by intros ->.
Qed.

Lemma removeFeed_unregisters_witness :
  (removeFeed true (sample_channel nine_urls) "chan" "u4").2 = RemoveOk
  ∧ getFeed (removeFeed true (sample_channel nine_urls) "chan" "u4").1
            "chan" "u4" = None
  ∧ totalFeeds (getStatistics (sample_channel nine_urls))
    = totalFeeds (getStatistics
                    (removeFeed true (sample_channel nine_urls) "chan" "u4").1)
      + 1
  ∧ removeFeed true (sample_channel nine_urls) "chan" "u10"
    = (sample_channel nine_urls, RemoveNotFound).
Proof.
  destruct (removeFeed_unregisters true (sample_channel nine_urls) "chan" "u4")
    as [Hfound _].
  destruct (Hfound (mkFeedInfo "u4" 300000 None JNull true (JStr "Example")
                               (JStr "An example feed")))
    as (Hr & Hgone & _ & Hcount); [by vm_compute|].
  destruct (removeFeed_unregisters true (sample_channel nine_urls) "chan" "u10")
    as [_ Hmissing].
  destruct Hmissing as [Hs Hanswer]; [by vm_compute|].
  split_and!; [done..|].
  by rewrite (surjective_pairing (removeFeed _ _ _ _)), Hs, Hanswer.
Defined.

(** X4.  When [addFeed] answers with success, the validation had
    succeeded, the save went through, the channel held fewer feeds than
    the cap and the feed was not registered.  Afterwards the feed is
    registered under its URL, active, never checked and without watermark,
    with the interval given, or the default interval when none or zero was
    given, and with the title and description of the validated document,
    or ["Unknown Feed"] and the empty text when the document has none;
    every other feed is as before; and the file holds the registry as it
    is after the call. *)
Theorem addFeed_success_registers validated w s c u i fd :
  (addFeed validated w s c u i).2 = AddOk fd →
  (∃ feed, validated = Valid feed
           ∧ title fd = js_or (feed_title feed) (JStr "Unknown Feed")
           ∧ description fd = js_or (feed_description feed) (JStr ""))
  ∧ w = true
  ∧ size (default ∅ (feeds s !! c)) < maxFeedsPerChannel (config s)
  ∧ getFeed s c u = None
  ∧ getFeed (addFeed validated w s c u i).1 c u = Some fd
  ∧ url fd = u ∧ active fd = true
  ∧ lastChecked fd = None ∧ lastPostId fd = JNull
  ∧ interval fd = match i with
                  | Some n => if (n =? 0)%Z then defaultInterval (config s)
                              else n
                  | None => defaultInterval (config s)
                  end
  ∧ (∀ c' u', (c', u') ≠ (c, u) →
       getFeed (addFeed validated w s c u i).1 c' u' = getFeed s c' u')
  ∧ feedsFile (addFeed validated w s c u i).1
    = FileData (toFeedData (feeds (addFeed validated w s c u i).1)).
Proof.
  intros (feed & Hv & Hw & Hu & Hcap & Hfd & Hfeeds & Hfile)%addFeed_AddOk.
  split_and!; try done; try by rewrite Hfd.
  - exists feed. by rewrite Hfd.
  - unfold getFeed. by destruct (feeds s !! c).
  - rewrite (getFeed_insert s _ c u fd c u Hfeeds). by rewrite decide_True.
  - intros c' u' Hne. rewrite (getFeed_insert s _ c u fd c' u' Hfeeds).
    by rewrite decide_False by (intros [??]; congruence).
Qed.

Lemma addFeed_success_registers_witness :
  getFeed (sample_channel nine_urls) "chan" "u10" = None
  ∧ getFeed after_tenth_add.1 "chan" "u10"
    = Some (mkFeedInfo "u10" 300000 None JNull true (JStr "Example")
                       (JStr "An example feed"))
  ∧ getFeed after_tenth_add.1 "chan" "u4"
    = getFeed (sample_channel nine_urls) "chan" "u4".
Proof.
  destruct (addFeed_success_registers (Valid (sample_feed ["A"])) true
              (sample_channel nine_urls) "chan" "u10" None
              (mkFeedInfo "u10" 300000 None JNull true (JStr "Example")
                          (JStr "An example feed")))
    as (_ & _ & _ & Hnew & Hreg & _ & _ & _ & _ & _ & Hframe & _);
    [by vm_compute|].
  split_and!; [done | done | by apply Hframe].
Defined.

(** X5.  Adding a feed with success and then removing it gives back the
    registry there was before the two calls, but for a channel that mapped
    to an empty map, whose key is gone; in either case every feed is found
    as before the two calls and the total number of feeds is the same. *)
Theorem add_then_remove_restores validated w w' s c u i fd :
  (addFeed validated w s c u i).2 = AddOk fd →
  (feeds s !! c ≠ Some ∅ →
   feeds (removeFeed w' (addFeed validated w s c u i).1 c u).1 = feeds s)
  ∧ (feeds s !! c = Some ∅ →
     feeds (removeFeed w' (addFeed validated w s c u i).1 c u).1
     = delete c (feeds s))
  ∧ (∀ c' u',
       getFeed (removeFeed w' (addFeed validated w s c u i).1 c u).1 c' u'
       = getFeed s c' u')
  ∧ totalFeeds
      (getStatistics (removeFeed w' (addFeed validated w s c u i).1 c u).1)
    = totalFeeds (getStatistics s).
Proof.
  intros Hok.
  pose proof Hok as (feed & _ & _ & Hu & _ & _ & Hfeeds & _)%addFeed_AddOk.
  set (s1 := (addFeed validated w s c u i).1) in *.
  assert (getFeed s1 c u = Some fd) as Hfd.
  { rewrite (getFeed_insert s _ c u fd c u Hfeeds). by rewrite decide_True. }
  destruct (removeFeed_found w' s1 c u fd Hfd)
    as (cf1 & Hc1 & _ & _ & Hfeeds1 & _).
  assert (∀ c' u',
            getFeed (removeFeed w' s1 c u).1 c' u'
            = if decide (c' = c ∧ u' = u) then None else getFeed s1 c' u')
    as Hget by (intros c' u'; by apply (getFeed_remove s1 _ c u cf1)).
  rewrite Hfeeds, lookup_insert_eq in Hc1. injection Hc1 as <-.
  rewrite delete_insert_id in Hfeeds1 by done.
  set (s2 := (removeFeed w' s1 c u).1) in *.
  assert (feeds s !! c ≠ Some ∅ → feeds s2 = feeds s) as Hsame.
  { intros Hnonempty. rewrite Hfeeds1. case_bool_decide as Hsz.
    - apply map_size_empty_iff in Hsz.
      rewrite Hfeeds, delete_insert_eq. apply delete_id.
      destruct (feeds s !! c) as [cf|] eqn:Hc; [|done].
      simpl in Hsz. by subst.
    - rewrite Hfeeds, insert_insert_eq. apply insert_id.
      destruct (feeds s !! c) as [cf|] eqn:Hc; [done|].
      simpl in Hsz. by rewrite map_size_empty in Hsz. }
  assert (feeds s !! c = Some ∅ → feeds s2 = delete c (feeds s)) as Hgone.
  { intros Hempty. rewrite Hfeeds1, Hempty. simpl.
    rewrite bool_decide_eq_true_2 by apply map_size_empty.
    by rewrite Hfeeds, delete_insert_eq. }
  split_and!; [done | done | |].
  - intros c' u'. rewrite Hget.
    rewrite (getFeed_insert s _ c u fd c' u' Hfeeds).
    destruct (decide (c' = c ∧ u' = u)) as [[-> ->]|Hne]; [|done].
    unfold getFeed. by destruct (feeds s !! c).
  - simpl. destruct (decide (feeds s !! c = Some ∅)) as [Hempty|Hnonempty].
    + rewrite (getTotalFeedCount_feeds s2 (set_feeds (delete c (feeds s)) s))
        by (by apply Hgone).
      rewrite (getTotalFeedCount_delete s c ∅ Hempty), map_size_empty. lia.
    + by rewrite (getTotalFeedCount_feeds s2 s) by (by apply Hsame).
Qed.

Lemma add_then_remove_restores_witness :
  feeds (removeFeed true after_tenth_add.1 "chan" "u10").1
  = feeds (sample_channel nine_urls).
Proof.
  destruct (add_then_remove_restores (Valid (sample_feed ["A"])) true true
              (sample_channel nine_urls) "chan" "u10" None
              (mkFeedInfo "u10" 300000 None JNull true (JStr "Example")
                          (JStr "An example feed")))
    as (Hsame & _); [by vm_compute|].
  apply Hsame. intros Hempty. by vm_compute in Hempty.
Defined.

(** ** More on polling *)

Section more_polling.
Implicit Types (s : RSSManager) (env : PollEnv) (fi : FeedInfo)
  (feed : Feed) (c u : string) (w : jsval).

Lemma checkFeed_client env s c u : client (checkFeed env s c u).1 = client s.
Proof.
  unfold checkFeed.
  destruct (client s) eqn:Hcl; simpl; [|done].
  destruct (feeds s !! c) as [cf|]; [|done].
  destruct (cf !! u) as [fi|]; [|done].
  destruct (active fi); simpl; [|done].
  destruct (fetched env) as [feed|]; [|done].
  destruct (checkItems (send env) c feed fi) as [fi1 posts].
  by destruct (written env).
Qed.

(** The registry after [checkFeed], with what the new record keeps. *)
Lemma checkFeed_feeds_frame env s c u :
  feeds (checkFeed env s c u).1 = feeds s
  ∨ ∃ cf fi fi', feeds s !! c = Some cf ∧ cf !! u = Some fi
      ∧ url fi' = url fi ∧ interval fi' = interval fi
      ∧ active fi' = active fi
      ∧ feeds (checkFeed env s c u).1 = <[c := <[u := fi']> cf]> (feeds s).
Proof.
  unfold checkFeed.
  destruct (client s); simpl; [|by left].
  destruct (feeds s !! c) as [cf|] eqn:Hc; [|by left].
  destruct (cf !! u) as [fi|] eqn:Hu; [|by left].
  destruct (active fi); simpl; [|by left].
  destruct (fetched env) as [feed|]; [|by left].
  pose proof (checkItems_frame (send env) c feed fi)
    as (Hurl & Hint & Hact & _).
  destruct (checkItems (send env) c feed fi) as [fi1 posts].
  right. exists cf, fi, (set_lastChecked (Some (now env)) fi1).
  split_and!; [done..|].
  by destruct (written env).
Qed.

Lemma unseen_no_match w l :
  Forall (λ it, guid it ≠ w) l → unseen w l = l.
Proof.
  induction 1 as [|x l Hx _ IH]; simpl; [done|].
  unfold is_watermark, strict_eq.
  rewrite bool_decide_eq_false_2, andb_false_r by done. by rewrite IH.
Qed.

(** The record a poll leaves, field by field. *)
Lemma checkFeed_record env s c u fi feed :
  client s = true → getFeed s c u = Some fi →
  active fi = true → fetched env = Some feed →
  getFeed (checkFeed env s c u).1 c u
  = Some (mkFeedInfo (url fi) (interval fi) (Some (now env))
            (match items feed with
             | [] => lastPostId fi
             | latest :: _ => guid latest
             end)
            (active fi) (feed_title feed) (feed_description feed)).
Proof.
  intros Hcl Hfi Hact Hf.
  destruct (checkFeed_poll env s c u fi feed) as (_ & _ & -> & _); [done..|].
  f_equal.
  pose proof (checkItems_frame (send env) c feed fi)
    as (Hurl & Hint & Hact' & _ & Ht & Hd).
  assert (lastPostId (checkItems (send env) c feed fi).1
          = match items feed with
            | [] => lastPostId fi
            | latest :: _ => guid latest
            end) as Hw.
  { destruct (items feed) as [|latest rest] eqn:Hitems.
    - by apply checkItems_lastPostId_nil.
    - by eapply checkItems_lastPostId. }
  destruct (checkItems (send env) c feed fi).1. simpl in *.
  unfold set_lastChecked. simpl. congruence.
Qed.

(** Polls that keep fetching a document whose items are those of [doc],
    from a state whose watermark is the identifier of the first item of
    [doc]: each posts what the loop selects under that watermark. *)
Lemma runPolls_same_document envs s c u fi latest rest :
  client s = true → getFeed s c u = Some fi → active fi = true →
  lastPostId fi = guid latest →
  Forall (λ env, ∃ feed, fetched env = Some feed
                         ∧ items feed = latest :: rest) envs →
  Forall (λ tr, posted tr
                = reverse (take 5 (unseen (guid latest) (latest :: rest))))
         (runPolls envs s c u).2.
Proof.
  intros Hcl Hfi Hact Hw Henvs. revert s fi Hcl Hfi Hact Hw.
  induction Henvs as [|env envs (feed & Hf & Hitems) _ IH];
    intros s fi Hcl Hfi Hact Hw; simpl; [by constructor|].
  destruct (checkFeed env s c u) as [s1 tr] eqn:Hcheck.
  destruct (runPolls envs s1 c u) as [s2 trs] eqn:Hrun. simpl.
  pose proof (checkFeed_poll env s c u fi feed Hcl Hfi Hact Hf)
    as (Hp & _ & _ & _).
  pose proof (checkFeed_record env s c u fi feed Hcl Hfi Hact Hf) as Hrec.
  pose proof (checkFeed_client env s c u) as Hcl1.
  rewrite Hcheck in Hp, Hrec, Hcl1. simpl in Hp, Hrec, Hcl1.
  constructor.
  - by rewrite Hp, Hw, Hitems.
  - specialize (IH s1 _ ltac:(congruence) Hrec Hact).
    rewrite Hrun in IH. apply IH. simpl. by rewrite Hitems.
Qed.
End more_polling.

(** X6.  A poll touches one record at most: every other feed is as before,
    no feed is added or removed, the polled record keeps its URL, interval
    and active flag, and the configuration and the counts of
    [getStatistics] are as before. *)
Theorem checkFeed_touches_one_record env s c u :
  (∀ c' u', (c', u') ≠ (c, u) →
     getFeed (checkFeed env s c u).1 c' u' = getFeed s c' u')
  ∧ (∀ c' u', is_Some (getFeed (checkFeed env s c u).1 c' u')
              ↔ is_Some (getFeed s c' u'))
  ∧ (∀ fi fi', getFeed s c u = Some fi →
       getFeed (checkFeed env s c u).1 c u = Some fi' →
       url fi' = url fi ∧ interval fi' = interval fi
       ∧ active fi' = active fi)
  ∧ config (checkFeed env s c u).1 = config s
  ∧ getStatistics (checkFeed env s c u).1 = getStatistics s.
Proof.
  destruct (checkFeed_feeds_frame env s c u)
    as [Hsame | (cf & fi0 & fi1 & Hc & Hu & Hurl & Hint & Hact & Hfeeds)].
  - split_and!.
    + intros c' u' _. by apply getFeed_feeds.
    + intros c' u'. by rewrite (getFeed_feeds _ s c' u' Hsame).
    + intros fi fi' Hfi. rewrite (getFeed_feeds _ s c u Hsame), Hfi.
      by intros [= <-].
    + apply checkFeed_config.
    + unfold getStatistics. rewrite Hsame.
      by rewrite (getTotalFeedCount_feeds _ s Hsame).
  - assert (feeds (checkFeed env s c u).1
            = <[c := <[u := fi1]> (default ∅ (feeds s !! c))]> (feeds s))
      as Hfeeds' by (by rewrite Hc).
    assert (getFeed s c u = Some fi0) as Hfi0
      by (apply getFeed_Some; eauto).
    split_and!.
    + intros c' u' Hne. rewrite (getFeed_insert s _ c u fi1 c' u' Hfeeds').
      by rewrite decide_False by (intros [??]; congruence).
    + intros c' u'. rewrite (getFeed_insert s _ c u fi1 c' u' Hfeeds').
      case_decide as Heq; [|done]. destruct Heq as [-> ->].
      rewrite Hfi0. split; by eexists.
    + intros fi fi'. rewrite Hfi0.
      rewrite (getFeed_insert s _ c u fi1 c u Hfeeds'), decide_True by done.
      by intros [= <-] [= <-].
    + apply checkFeed_config.
    + unfold getStatistics. f_equal.
      * pose proof (getTotalFeedCount_insert s c (<[u:=fi1]> cf)) as Hins.
        rewrite Hc in Hins. simpl in Hins.
        rewrite map_size_insert_Some in Hins by (by eexists).
        rewrite (getTotalFeedCount_feeds _ (set_feeds _ s) Hfeeds). lia.
      * rewrite Hfeeds. apply map_size_insert_Some. by eexists.
Qed.

(** X7.  On a registered, active feed, once a poll has parsed a document
    whose first item has a truthy [guid], the polls that follow and parse
    the same items post nothing, however many they are. *)
Theorem repeated_poll_posts_nothing env envs s c u fi feed latest rest :
  client s = true → getFeed s c u = Some fi → active fi = true →
  fetched env = Some feed → items feed = latest :: rest →
  truthy (guid latest) = true →
  Forall (λ env', ∃ feed', fetched env' = Some feed'
                           ∧ items feed' = items feed) envs →
  Forall (λ tr, posted tr = [])
         (runPolls envs (checkFeed env s c u).1 c u).2.
Proof.
  intros Hcl Hfi Hact Hf Hitems Hguid Henvs.
  pose proof (checkFeed_record env s c u fi feed Hcl Hfi Hact Hf) as Hrec.
  rewrite Hitems in Hrec.
  eapply Forall_impl.
  - eapply (runPolls_same_document envs _ c u _ latest rest);
      [by rewrite checkFeed_client | exact Hrec | done | done |].
    eapply Forall_impl; [exact Henvs|]. simpl.
    intros env' (feed' & ? & ?). exists feed'. split; congruence.
  - simpl. intros tr ->. unfold is_watermark, strict_eq.
    by rewrite Hguid, bool_decide_eq_true_2.
Qed.

Lemma repeated_poll_posts_nothing_witness :
  Forall (λ tr, posted tr = [])
         (runPolls [sample_env ["A"; "B"; "C"]; sample_env ["A"; "B"; "C"]]
                   (checkFeed (sample_env ["A"; "B"; "C"]) sample_added
                              "chan" sample_url).1
                   "chan" sample_url).2.
Proof.
  apply (repeated_poll_posts_nothing (sample_env ["A"; "B"; "C"]) _
           sample_added "chan" sample_url
           (mkFeedInfo sample_url 300000 None JNull true (JStr "Example")
                       (JStr "An example feed"))
           (sample_feed ["A"; "B"; "C"]) (sample_item "A")
           (sample_item <$> ["B"; "C"])); try by vm_compute.
  repeat constructor; by eexists.
Defined.

(** X8.  On a registered, active feed, once a poll has parsed a document
    whose first item has a falsy [guid] (undefined, null or empty, whatever
    its [link]), every poll that follows and parses the same items posts
    the first five items of the document again, oldest first. *)
Theorem poll_without_guid_reposts env envs s c u fi feed latest rest :
  client s = true → getFeed s c u = Some fi → active fi = true →
  fetched env = Some feed → items feed = latest :: rest →
  truthy (guid latest) = false →
  Forall (λ env', ∃ feed', fetched env' = Some feed'
                           ∧ items feed' = items feed) envs →
  Forall (λ tr, posted tr = reverse (take 5 (items feed)))
         (runPolls envs (checkFeed env s c u).1 c u).2.
Proof.
  intros Hcl Hfi Hact Hf Hitems Hguid Henvs.
  pose proof (checkFeed_record env s c u fi feed Hcl Hfi Hact Hf) as Hrec.
  rewrite Hitems in Hrec.
  eapply Forall_impl.
  - eapply (runPolls_same_document envs _ c u _ latest rest);
      [by rewrite checkFeed_client | exact Hrec | done | done |].
    eapply Forall_impl; [exact Henvs|]. simpl.
    intros env' (feed' & ? & ?). exists feed'. split; congruence.
  - cbv beta. intros tr ->. by rewrite unseen_falsy, Hitems.
Qed.

Lemma poll_without_guid_reposts_witness :
  Forall (λ tr, posted tr = atom_item <$> ["Second"; "First"])
         (runPolls [atom_env ["First"; "Second"]; atom_env ["First"; "Second"]]
                   (checkFeed (atom_env ["First"; "Second"]) sample_added
                              "chan" sample_url).1
                   "chan" sample_url).2.
Proof.
  assert (Forall (λ env', ∃ feed', fetched env' = Some feed'
                    ∧ items feed' = atom_item <$> ["First"; "Second"])
                 [atom_env ["First"; "Second"]; atom_env ["First"; "Second"]])
    as Henvs by (repeat constructor; by eexists).
  exact (poll_without_guid_reposts (atom_env ["First"; "Second"])
           [atom_env ["First"; "Second"]; atom_env ["First"; "Second"]]
           sample_added "chan" sample_url
           (mkFeedInfo sample_url 300000 None JNull true (JStr "Example")
                       (JStr "An example feed"))
           (mkFeed (JStr "Example") (JStr "An example feed")
                   (atom_item <$> ["First"; "Second"]))
           (atom_item "First") [atom_item "Second"]
           eq_refl eq_refl eq_refl eq_refl eq_refl eq_refl Henvs).
Defined.

(** X9.  On a registered, active feed with a set watermark, a poll that
    parses a non-empty document none of whose items carries the watermark
    posts the first five items of the document, oldest first, and the
    watermark becomes the identifier of the first item. *)
Theorem rotated_watermark_posts_first_five env s c u fi feed latest rest :
  client s = true → getFeed s c u = Some fi → active fi = true →
  fetched env = Some feed → items feed = latest :: rest →
  Forall (λ it, guid it ≠ lastPostId fi) (items feed) →
  posted (checkFeed env s c u).2 = reverse (take 5 (items feed))
  ∧ lastPostId <$> getFeed (checkFeed env s c u).1 c u = Some (guid latest).
Proof.
  intros Hcl Hfi Hact Hf Hitems Hnone.
  destruct (checkFeed_poll env s c u fi feed) as (Hp & _ & _ & _); [done..|].
  rewrite Hp, unseen_no_match by done. split; [done|].
  rewrite (checkFeed_record env s c u fi feed) by done.
  by rewrite Hitems.
Qed.

Lemma rotated_watermark_posts_first_five_witness :
  posted (checkFeed (sample_env ["A"; "B"; "C"]) (sample_state (JStr "Z") true)
                    "chan" sample_url).2
    = sample_item <$> ["C"; "B"; "A"]
  ∧ lastPostId <$> getFeed
      (checkFeed (sample_env ["A"; "B"; "C"]) (sample_state (JStr "Z") true)
                 "chan" sample_url).1 "chan" sample_url = Some (JStr "A").
Proof.
  apply (rotated_watermark_posts_first_five (sample_env ["A"; "B"; "C"])
           (sample_state (JStr "Z") true) "chan" sample_url
           (mkFeedInfo sample_url 300000 None (JStr "Z") true
                       (JStr "Example") (JStr "An example feed"))
           (sample_feed ["A"; "B"; "C"]) (sample_item "A")
           (sample_item <$> ["B"; "C"])); try by vm_compute.
  repeat constructor; by vm_compute.
Defined.

Lemma fetches_app tr1 tr2 :
  fetches (tr1 ++ tr2) = fetches tr1 ++ fetches tr2.
Proof.
  induction tr1 as [|e tr1 IH]; simpl; [done|].
  destruct e; simpl; by rewrite ?IH.
Qed.

Lemma fetches_postItems send0 c feed n batch :
  fetches (postItems send0 c feed n batch) = [].
Proof.
  induction batch as [|x batch IH]; simpl; [done|].
  case_bool_decide; simpl; by rewrite IH.
Qed.

(** X10.  After a poll of a registered, active feed whose document parses,
    the record has the URL, interval and active flag it had, the time of
    the poll as [lastChecked], the title and description of the document,
    and as watermark the identifier of the first item of the document, or
    the watermark it had when the document has no item; in that last case
    nothing is posted.  The save is attempted once. *)
Theorem poll_refreshes_record env s c u fi feed :
  client s = true → getFeed s c u = Some fi →
  active fi = true → fetched env = Some feed →
  getFeed (checkFeed env s c u).1 c u
  = Some (mkFeedInfo (url fi) (interval fi) (Some (now env))
            (match items feed with
             | [] => lastPostId fi
             | latest :: _ => guid latest
             end)
            (active fi) (feed_title feed) (feed_description feed))
  ∧ (items feed = [] → posted (checkFeed env s c u).2 = [])
  ∧ saves (checkFeed env s c u).2 = [written env]
  ∧ fetches (checkFeed env s c u).2 = [u].
Proof.
  intros Hcl Hfi Hact Hf.
  destruct (checkFeed_poll env s c u fi feed) as (Hp & Hs & _ & _); [done..|].
  split_and!; [by apply checkFeed_record| |done|].
  - intros Hnil. by rewrite Hp, Hnil.
  - apply getFeed_Some in Hfi as (cf & Hc & Hu).
    rewrite (checkFeed_polled env s c u cf fi feed) by done. simpl.
    rewrite checkItems_trace. cbn [snd fetches].
    by rewrite fetches_app, fetches_postItems.
Qed.

Lemma poll_refreshes_record_witness :
  getFeed (checkFeed (sample_env []) (sample_state (JStr "B") true)
                     "chan" sample_url).1 "chan" sample_url
  = Some (mkFeedInfo sample_url 300000 (Some 1000%Z) (JStr "B") true
                     (JStr "Example") (JStr "An example feed"))
  ∧ posted (checkFeed (sample_env []) (sample_state (JStr "B") true)
                      "chan" sample_url).2 = [].
Proof.
  destruct (poll_refreshes_record (sample_env [])
              (sample_state (JStr "B") true) "chan" sample_url
              (mkFeedInfo sample_url 300000 None (JStr "B") true
                          (JStr "Example") (JStr "An example feed"))
              (sample_feed []))
    as (Hrec & Hposted & _); [by vm_compute..|].
  split; [exact Hrec | by apply Hposted].
Defined.

(** ** Failed saves and restarts *)

Lemma addFeed_present validated w s c u i cf fi :
  feeds s !! c = Some cf → cf !! u = Some fi →
  (addFeed validated w s c u i).1 = s
  ∧ match (addFeed validated w s c u i).2 with
    | AddOk _ | AddError => False
    | _ => True
    end.
Proof.
  intros Hc Hu. unfold addFeed. destruct validated as [feed|e]; [|done].
  rewrite Hc. simpl. rewrite Hc. simpl. rewrite set_feeds_id.
  case_bool_decide; [done|].
  by rewrite Hu, bool_decide_eq_true_2 by by eexists.
Qed.

(** X11.  When the save fails, [addFeed] of a valid feed that is not yet
    registered, on a channel below the cap, answers with the general error
    although the feed is then registered in memory; the file is as before.
    Adding the same feed again changes nothing and never succeeds: the
    answer is the error of the validation when that fails, the limit error
    when the feed kept in memory was the last one the cap allows, and
    otherwise that the feed already exists. *)
Theorem addFeed_save_failure_keeps_feed feed s c u i :
  getFeed s c u = None →
  size (default ∅ (feeds s !! c)) < maxFeedsPerChannel (config s) →
  (addFeed (Valid feed) false s c u i).2 = AddError
  ∧ is_Some (getFeed (addFeed (Valid feed) false s c u i).1 c u)
  ∧ feedsFile (addFeed (Valid feed) false s c u i).1 = feedsFile s
  ∧ ∀ validated' w' i',
      addFeed validated' w' (addFeed (Valid feed) false s c u i).1 c u i'
      = ((addFeed (Valid feed) false s c u i).1,
         match validated' with
         | Invalid e => AddInvalidFeed e
         | Valid _ =>
             if bool_decide (maxFeedsPerChannel (config s)
                             = size (default ∅ (feeds s !! c)) + 1)
             then AddLimitExceeded else AddAlreadyExists
         end).
Proof.
  intros Hnone Hcap.
  assert ((addFeed (Valid feed) false s c u i).2 = AddError) as Hr.
  { unfold addFeed, getFeed in *.
    destruct (feeds s !! c) as [cf|] eqn:Hc; simpl in *.
    - rewrite Hc. simpl. rewrite bool_decide_eq_false_2 by lia.
      by rewrite Hnone, bool_decide_eq_false_2 by by intros [??].
    - rewrite lookup_insert_eq. simpl.
      rewrite bool_decide_eq_false_2 by lia.
      by rewrite lookup_empty, bool_decide_eq_false_2 by by intros [??]. }
  pose proof Hr as (fd & _ & Hu & Hfeeds & Hfile)%addFeed_AddError.
  pose proof (addFeed_config (Valid feed) false s c u i) as Hcfg.
  set (s1 := (addFeed (Valid feed) false s c u i).1) in *.
  split_and!; [done| |done|].
  - rewrite (getFeed_insert s _ c u fd c u Hfeeds), decide_True by done.
    by eexists.
  - intros validated' w' i'.
    assert (feeds s1 !! c = Some (<[u:=fd]> (default ∅ (feeds s !! c))))
      as Hc1 by (rewrite Hfeeds; apply lookup_insert_eq).
    unfold addFeed. destruct validated' as [feed'|e]; [|done].
    rewrite Hc1. simpl. rewrite Hc1. simpl. rewrite set_feeds_id, Hcfg.
    rewrite map_size_insert_None by done.
    rewrite lookup_insert_eq.
    rewrite (bool_decide_eq_true_2 (is_Some (Some fd))) by (by eexists).
    destruct (decide (maxFeedsPerChannel (config s)
                      = size (default ∅ (feeds s !! c)) + 1)) as [Heq|Hne].
    + rewrite (bool_decide_eq_true_2 (_ ≤ _)) by lia.
      by rewrite (bool_decide_eq_true_2 (_ = _)).
    + rewrite (bool_decide_eq_false_2 (_ ≤ _)) by lia.
      by rewrite (bool_decide_eq_false_2 (_ = _)).
Qed.

Lemma addFeed_save_failure_keeps_feed_witness :
  (addFeed (Valid (sample_feed ["A"])) false (sample_channel nine_urls)
           "chan" "u10" None).2 = AddError
  ∧ is_Some (getFeed (addFeed (Valid (sample_feed ["A"])) false
                              (sample_channel nine_urls) "chan" "u10" None).1
                     "chan" "u10")
  ∧ (addFeed (Valid (sample_feed ["A"])) true
             (addFeed (Valid (sample_feed ["A"])) false
                      (sample_channel nine_urls) "chan" "u10" None).1
             "chan" "u10" None).2 = AddLimitExceeded.
Proof.
  destruct (addFeed_save_failure_keeps_feed (sample_feed ["A"])
              (sample_channel nine_urls) "chan" "u10" None)
    as (Hr & Hreg & _ & Hagain).
  - by vm_compute.
  - vm_compute. lia.
  - split_and!; [done | done |].
    by rewrite (Hagain (Valid (sample_feed ["A"])) true None).
Defined.

(** X12.  In [checkFeed] a failed save changes nothing to what is posted
    nor to the registry in memory, which is the one a successful save
    would have left; the file alone stays as it was. *)
Theorem checkFeed_save_failure env1 env2 s c u :
  now env1 = now env2 → fetched env1 = fetched env2 →
  send env1 = send env2 → written env1 = false →
  feeds (checkFeed env1 s c u).1 = feeds (checkFeed env2 s c u).1
  ∧ posted (checkFeed env1 s c u).2 = posted (checkFeed env2 s c u).2
  ∧ feedsFile (checkFeed env1 s c u).1 = feedsFile s.
Proof.
  intros Hnow Hf Hsend Hw. unfold checkFeed.
  rewrite Hnow, Hf, Hsend, Hw.
  destruct (client s); simpl; [|done].
  destruct (feeds s !! c) as [cf|]; [|done].
  destruct (cf !! u) as [fi|]; [|done].
  destruct (active fi); simpl; [|done].
  destruct (fetched env2) as [feed|]; [|done].
  destruct (checkItems (send env2) c feed fi) as [fi1 posts].
  destruct (written env2); simpl; by rewrite !posted_app.
Qed.

Lemma checkFeed_save_failure_witness :
  feeds (checkFeed (unsaved_env ["A"; "B"; "C"]) (sample_state (JStr "B") true)
                   "chan" sample_url).1
  = feeds (checkFeed (sample_env ["A"; "B"; "C"]) (sample_state (JStr "B") true)
                     "chan" sample_url).1
  ∧ feedsFile (checkFeed (unsaved_env ["A"; "B"; "C"])
                         (sample_state (JStr "B") true) "chan" sample_url).1
    = FileAbsent.
Proof.
  destruct (checkFeed_save_failure (unsaved_env ["A"; "B"; "C"])
              (sample_env ["A"; "B"; "C"]) (sample_state (JStr "B") true)
              "chan" sample_url) as (Hfeeds & _ & Hfile); [done..|].
  by split.
Defined.

Lemma js_or_truthy a b : truthy b = true → truthy (js_or a b) = true.
Proof. intros Hb. unfold js_or. by destruct (truthy a) eqn:Ha. Qed.

Lemma js_or_idem a b : js_or (js_or a b) b = js_or a b.
Proof.
  unfold js_or. destruct (truthy a) eqn:Ha; [by rewrite Ha|].
  by destruct (truthy b).
Qed.

(** A record that [loadFeeds] built is written and read back as it is. *)
Lemma fromStored_idem cfg sf :
  defaultInterval cfg ≠ 0%Z →
  fromStored cfg (toStored (fromStored cfg sf)) = fromStored cfg sf.
Proof.
  intros Hdef. unfold fromStored, toStored. simpl.
  rewrite !js_or_idem. f_equal.
  - unfold num_or. destruct (s_interval sf) as [n|].
    + destruct (Z.eqb_spec n 0) as [->|Hn].
      * by destruct (Z.eqb_spec (defaultInterval cfg) 0).
      * by destruct (Z.eqb_spec n 0).
    + by destruct (Z.eqb_spec (defaultInterval cfg) 0).
  - by destruct (s_active sf) as [[]|].
Qed.

(** X13.  A feed that [addFeed] added with success is found again by a new
    process that loads the file: record for record when its interval is
    not zero, which is so whenever the default interval is not zero; and
    with the interval 300000, the default of the constructor, in place of
    an interval of zero. *)
Theorem added_feed_survives_restart validated w s c u i fd cfg :
  (addFeed validated w s c u i).2 = AddOk fd →
  (interval fd ≠ 0%Z →
   getFeed (initialize cfg (feedsFile (addFeed validated w s c u i).1)) c u
   = Some fd)
  ∧ (defaultInterval (config s) ≠ 0%Z → interval fd ≠ 0%Z)
  ∧ (interval fd = 0%Z →
     getFeed (initialize cfg (feedsFile (addFeed validated w s c u i).1)) c u
     = Some (mkFeedInfo (url fd) 300000 (lastChecked fd) (lastPostId fd)
                        (active fd) (title fd) (description fd))).
Proof.
  intros (feed & _ & _ & _ & _ & Hfd & Hfeeds & Hfile)%addFeed_AddOk.
  assert (getFeed (initialize cfg (feedsFile (addFeed validated w s c u i).1))
                  c u
          = Some (fromStored default_config (toStored fd))) as ->.
  { rewrite Hfile. unfold getFeed. rewrite initialize_after_save.
    rewrite lookup_fmap, Hfeeds, lookup_insert_eq. simpl.
    by rewrite lookup_fmap, lookup_insert_eq. }
  split_and!.
  - intros Hint. f_equal. apply reload_exact; [done|..]; rewrite Hfd; simpl.
    + by right.
    + by apply js_or_truthy.
    + unfold js_or.
      destruct (truthy (feed_description feed)) eqn:Hd; [by left | by right].
  - intros Hdef. rewrite Hfd. simpl. unfold num_or.
    destruct i as [n|]; [|done]. by destruct (Z.eqb_spec n 0).
  - intros Hint. f_equal. unfold fromStored, toStored. simpl.
    rewrite Hint. rewrite Hfd. simpl. by rewrite !js_or_idem.
Qed.

Lemma added_feed_survives_restart_witness :
  getFeed (initialize default_config (feedsFile after_tenth_add.1))
          "chan" "u10"
  = Some (mkFeedInfo "u10" 300000 None JNull true (JStr "Example")
                     (JStr "An example feed")).
Proof.
  unfold after_tenth_add.
  destruct (added_feed_survives_restart (Valid (sample_feed ["A"])) true
              (sample_channel nine_urls) "chan" "u10" None
              (mkFeedInfo "u10" 300000 None JNull true (JStr "Example")
                          (JStr "An example feed")) default_config)
    as (Hsame & _); [by vm_compute|].
  by apply Hsame.
Defined.

(** X14.  A restart settles the registry: what a new process loads from
    the file that [saveFeeds] wrote is saved and loaded again, by another
    new process, without any change. *)
Theorem loaded_registry_reloads_exactly s cfg cfg' :
  feeds (initialize cfg'
           (feedsFile
              (saveFeeds true
                 (initialize cfg (feedsFile (saveFeeds true s).1))).1))
  = feeds (initialize cfg (feedsFile (saveFeeds true s).1)).
Proof.
  set (s1 := initialize cfg (feedsFile (saveFeeds true s).1)).
  change (feedsFile (saveFeeds true s1).1)
    with (FileData (toFeedData (feeds s1))).
  rewrite initialize_after_save. unfold s1.
  rewrite initialize_feeds.
  rewrite <- map_fmap_compose.
  apply map_fmap_ext. intros c scf _. simpl.
  rewrite <- map_fmap_compose.
  apply map_fmap_ext. intros u sf _. simpl.
  by apply fromStored_idem.
Qed.

(** ** The cron jobs *)

Section jobs.
Implicit Types (s : RSSManager) (c u key : string)
  (jobs : gmap string CronJob) (sched : string → bool).

(** Two keys made of hyphen-free channel ids are equal only when made of
    the same channel id and URL. *)
Lemma feedKey_inj c1 u1 c2 u2 :
  hyphen_free c1 = true → hyphen_free c2 = true →
  feedKey c1 u1 = feedKey c2 u2 → c1 = c2 ∧ u1 = u2.
Proof.
  unfold feedKey. revert c2.
  induction c1 as [|a c1 IH]; intros [|b c2] H1 H2 Heq; cbn in *.
  - injection Heq as Heq. by subst.
  - injection Heq as Hb _. subst b. by vm_compute in H2.
  - injection Heq as Ha _. subst a. by vm_compute in H1.
  - injection Heq as Hab Heq. subst b.
    apply andb_true_iff in H1 as [_ H1]. apply andb_true_iff in H2 as [_ H2].
    by destruct (IH c2 H1 H2 Heq) as [-> ->].
Qed.

Lemma intervalMinutes_ge_1 n : (1 ≤ intervalMinutes n)%Z.
Proof. unfold intervalMinutes. lia. Qed.

Lemma stopFeedCheck_lookup jobs c u key :
  stopFeedCheck jobs c u !! key
  = if decide (feedKey c u = key) then None else jobs !! key.
Proof. unfold stopFeedCheck. apply lookup_delete. Qed.

(** [startFeedCheck] changes the job of its own key only. *)
Lemma startFeedCheck_other sched s jobs c u key :
  feedKey c u ≠ key →
  startFeedCheck sched s jobs c u !! key = jobs !! key.
Proof.
  intros Hne. unfold startFeedCheck, stopFeedCheck.
  destruct (getFeed s c u) as [fi|]; [|by rewrite lookup_delete_ne].
  destruct (active fi); simpl; [|by rewrite lookup_delete_ne].
  destruct (sched (cronExpression (intervalMinutes (interval fi))));
    [rewrite lookup_insert_ne by done|]; by rewrite lookup_delete_ne.
Qed.

(** The job [startFeedCheck] leaves under its own key. *)
Lemma startFeedCheck_own sched s jobs c u :
  startFeedCheck sched s jobs c u !! feedKey c u
  = match getFeed s c u with
    | Some fi =>
        if active fi
           && sched (cronExpression (intervalMinutes (interval fi)))
        then Some (mkCronJob c u
                     (cronExpression (intervalMinutes (interval fi))))
        else None
    | None => None
    end.
Proof.
  unfold startFeedCheck, stopFeedCheck.
  destruct (getFeed s c u) as [fi|]; [|by rewrite lookup_delete_eq].
  destruct (active fi); simpl; [|by rewrite lookup_delete_eq].
  destruct (sched (cronExpression (intervalMinutes (interval fi))));
    [by rewrite lookup_insert_eq | by rewrite lookup_delete_eq].
Qed.

Lemma jobs_inv_stop s jobs c u :
  jobs_inv s jobs → jobs_inv s (stopFeedCheck jobs c u).
Proof. apply map_Forall_delete. Qed.

Lemma jobs_inv_start sched s jobs c u :
  jobs_inv s jobs → jobs_inv s (startFeedCheck sched s jobs c u).
Proof.
  intros Hinv key job Hjob.
  destruct (decide (feedKey c u = key)) as [<-|Hne].
  - rewrite startFeedCheck_own in Hjob.
    destruct (getFeed s c u) as [fi|] eqn:Hfi; [|done].
    destruct (active fi) eqn:Hact; simpl in Hjob; [|done].
    destruct (sched _); [|done]. injection Hjob as <-. simpl.
    split; [done|]. by exists fi.
  - rewrite startFeedCheck_other in Hjob by done. by apply (Hinv key).
Qed.

Lemma jobs_inv_start_all sched s jobs order :
  jobs_inv s jobs → jobs_inv s (startFeedChecking_jobs sched s jobs order).
Proof.
  unfold startFeedChecking_jobs. revert jobs.
  induction order as [|[c u] order IH]; intros jobs Hinv; simpl; [done|].
  apply IH. by apply jobs_inv_start.
Qed.

(** The jobs stay in order when the registry changes without touching the
    activity and interval of the feeds that have a job. *)
Lemma jobs_inv_registry s s' jobs :
  (∀ key job fi,
     jobs !! key = Some job →
     getFeed s (job_channel job) (job_url job) = Some fi →
     ∃ fi', getFeed s' (job_channel job) (job_url job) = Some fi'
            ∧ active fi' = active fi ∧ interval fi' = interval fi) →
  jobs_inv s jobs → jobs_inv s' jobs.
Proof.
  intros Hkeep Hinv key job Hjob.
  destruct (Hinv key job Hjob) as (Hkey & fi & Hfi & Hact & Hmin).
  destruct (Hkeep key job fi Hjob Hfi) as (fi' & Hfi' & Hact' & Hint').
  split; [done|]. exists fi'. split_and!; congruence.
Qed.

(** [addFeed] never changes a record that is registered. *)
Lemma addFeed_keeps validated w s c u i c' u' fi :
  getFeed s c' u' = Some fi →
  getFeed (addFeed validated w s c u i).1 c' u' = Some fi.
Proof.
  intros Hfi.
  destruct (addFeed_feeds validated w s c u i)
    as [Hsame | [(Hc & _ & Hnew) | (fd & Hu & _ & _ & Hfeeds)]].
  - by rewrite (getFeed_feeds _ s c' u' Hsame).
  - unfold getFeed in *. rewrite Hnew, lookup_insert.
    case_decide as Heq; [|done]. subst. by rewrite Hc in Hfi.
  - rewrite (getFeed_insert s _ c u fd c' u' Hfeeds).
    case_decide as Heq; [|done]. destruct Heq as [-> ->].
    unfold getFeed in Hfi. destruct (feeds s !! c); simpl in *; congruence.
Qed.
End jobs.

(** X15.  The key of a cron job determines its feed as long as channel ids
    hold no hyphen: two pairs of a hyphen-free channel id and a URL have
    the same key only when they are the same pair. *)
Theorem feedKey_injective c1 u1 c2 u2 :
  hyphen_free c1 = true → hyphen_free c2 = true →
  feedKey c1 u1 = feedKey c2 u2 ↔ (c1 = c2 ∧ u1 = u2).
Proof.
  intros H1 H2. split; [by apply feedKey_inj | by intros [-> ->]].
Qed.

Lemma feedKey_injective_witness :
  feedKey "123456789012345678" "https://a.example/feed-1"
  = feedKey "123456789012345678" "https://a.example/feed-1"
  ↔ ("123456789012345678" = "123456789012345678"
     ∧ "https://a.example/feed-1" = "https://a.example/feed-1").
Proof.
  apply (feedKey_injective "123456789012345678" "https://a.example/feed-1"
           "123456789012345678" "https://a.example/feed-1"); reflexivity.
Defined.

(** Without that proviso two feeds can share a key. *)
Lemma feedKey_collision :
  feedKey "a-b" "c" = feedKey "a" "b-c" ∧ ("a-b", "c") ≠ ("a", "b-c").
Proof. split; [reflexivity | discriminate]. Qed.

(** X16.  [startFeedCheck] leaves under the key of the feed a job exactly
    when the feed is registered and active and [cron.schedule] accepts the
    expression; that job calls [checkFeed] for the feed and was scheduled
    with the expression [*/N * * * *], where [N] is the whole number of
    minutes in the interval of the feed, rounded down, and 1 when that is
    less than 1.  The jobs of the other keys are untouched; calling it twice
    is calling it once; and [stopFeedCheck] afterwards leaves no job under
    the key. *)
Theorem startFeedCheck_schedules sched s jobs c u :
  (∀ job,
     startFeedCheck sched s jobs c u !! feedKey c u = Some job
     ↔ ∃ fi expression,
         getFeed s c u = Some fi ∧ active fi = true
         ∧ expression
           = "*/" +:+ pretty (Z.max 1 (interval fi / 60000)) +:+ " * * * *"
         ∧ sched expression = true
         ∧ job = mkCronJob c u expression)
  ∧ (∀ key, key ≠ feedKey c u →
            startFeedCheck sched s jobs c u !! key = jobs !! key)
  ∧ startFeedCheck sched s (startFeedCheck sched s jobs c u) c u
    = startFeedCheck sched s jobs c u
  ∧ stopFeedCheck (startFeedCheck sched s jobs c u) c u
    = stopFeedCheck jobs c u
  ∧ stopFeedCheck (startFeedCheck sched s jobs c u) c u !! feedKey c u = None.
Proof.
  split_and!.
  - intros job. rewrite startFeedCheck_own.
    unfold intervalMinutes, cronExpression.
    destruct (getFeed s c u) as [fi|];
      [|split; [done | by intros (? & ? & ? & _)]].
    destruct (active fi) eqn:Hact; simpl.
    + destruct (sched _) eqn:Hsched.
      * split; [intros [= <-]; by eexists fi, _|].
        by intros (fi' & e & [= <-] & _ & -> & _ & ->).
      * split; [done|].
        intros (fi' & e & [= <-] & _ & -> & Hs & _). congruence.
    + split; [done|]. intros (fi' & e & [= <-] & Ha & _). congruence.
  - intros key Hne. by apply startFeedCheck_other.
  - apply map_eq. intros key.
    destruct (decide (feedKey c u = key)) as [<-|Hne].
    + by rewrite !startFeedCheck_own.
    + by rewrite !startFeedCheck_other.
  - apply map_eq. intros key. rewrite !stopFeedCheck_lookup.
    case_decide; [done|]. by apply startFeedCheck_other.
  - by rewrite stopFeedCheck_lookup, decide_True.
Qed.

Lemma startFeedCheck_schedules_witness :
  startFeedCheck any_schedule two_feeds ∅ "chan" "u1" !! feedKey "chan" "u1"
  = Some (mkCronJob "chan" "u1" "*/15 * * * *")
  ∧ startFeedCheck any_schedule two_feeds ∅ "chan" "u2" !! feedKey "chan" "u2"
    = None.
Proof.
  destruct (startFeedCheck_schedules any_schedule two_feeds ∅ "chan" "u1")
    as (Hown1 & _).
  destruct (startFeedCheck_schedules any_schedule two_feeds ∅ "chan" "u2")
    as (Hown2 & _).
  split.
  - apply Hown1.
    exists (mkFeedInfo "u1" 900000 None JNull true (JStr "One") (JStr "")),
      "*/15 * * * *".
    by vm_compute.
  - apply eq_None_not_Some. intros [job Hjob].
    apply Hown2 in Hjob as (fi & e & Hfi & Hact & _).
    vm_compute in Hfi. injection Hfi as <-. discriminate Hact.
Defined.

(** X17.  No job outlives its feed: when every cron job belongs to a feed
    that is registered and active, under the key of that feed and with the
    expression made from its interval, this is still so after [addFeed], [removeFeed] and [checkFeed]
    (each with what it does to the jobs), after [startFeedCheck] and
    [stopFeedCheck] of any feed, and after [startFeedChecking]; and
    [stopFeedChecking] leaves no job at all. *)
Theorem jobs_belong_to_active_feeds sched s jobs :
  jobs_inv s jobs →
  (∀ validated w c u i,
     jobs_inv (addFeed validated w s c u i).1
              (addFeed_jobs sched validated w s jobs c u i))
  ∧ (∀ w c u,
       jobs_inv (removeFeed w s c u).1 (removeFeed_jobs w s jobs c u))
  ∧ (∀ env c u, jobs_inv (checkFeed env s c u).1 jobs)
  ∧ (∀ c u, jobs_inv s (startFeedCheck sched s jobs c u))
  ∧ (∀ c u, jobs_inv s (stopFeedCheck jobs c u))
  ∧ (∀ order, jobs_inv s (startFeedChecking_jobs sched s jobs order))
  ∧ stopFeedChecking jobs = ∅.
Proof.
  intros Hinv. split_and!.
  - intros validated w c u i.
    assert (jobs_inv (addFeed validated w s c u i).1 jobs) as Hinv'.
    { eapply jobs_inv_registry; [|done].
      intros key job fi _ Hfi. exists fi.
      by rewrite (addFeed_keeps validated w s c u i _ _ fi Hfi). }
    unfold addFeed_jobs.
    destruct (addFeed validated w s c u i) as [s' [fd|e| | |]] eqn:Hadd;
      simpl in *; try done.
    by apply jobs_inv_start.
  - intros w c u. unfold removeFeed_jobs.
    destruct (getFeed s c u) as [fi|] eqn:Hfi.
    + destruct (removeFeed_found w s c u fi Hfi)
        as (cf & Hc & Hu & Hr & Hfeeds & _).
      assert (jobs_inv (removeFeed w s c u).1 (stopFeedCheck jobs c u)).
      { intros key job. rewrite stopFeedCheck_lookup.
        destruct (decide (feedKey c u = key)) as [Hkey|Hkey]; [done|].
        intros Hjob.
        destruct (Hinv key job Hjob) as (Hk & fi' & Hfi' & Hact & Hmin).
        split; [done|]. exists fi'. split_and!; [|done..].
        rewrite (getFeed_remove s _ c u cf _ _ Hc Hfeeds).
        rewrite decide_False; [done|]. intros [Hc' Hu']. congruence. }
      destruct (removeFeed w s c u) as [s' r]. simpl in *.
      rewrite Hr. by destruct w.
    + destruct (removeFeed_missing w s c u Hfi) as [Hs Hr].
      destruct (removeFeed w s c u) as [s' r]. simpl in *. subst s'.
      by destruct Hr as [-> | ->].
  - intros env c u. eapply jobs_inv_registry; [|done].
    intros key job fi _ Hfi.
    destruct (checkFeed_feeds_frame env s c u)
      as [Hsame | (cf & fi0 & fi1 & Hc & Hu & _ & Hint & Hact & Hfeeds)].
    + exists fi. by rewrite (getFeed_feeds _ s _ _ Hsame).
    + assert (feeds (checkFeed env s c u).1
              = <[c := <[u := fi1]> (default ∅ (feeds s !! c))]> (feeds s))
        as Hfeeds' by (by rewrite Hc).
      rewrite (getFeed_insert s _ c u fi1 _ _ Hfeeds').
      case_decide as Heq; [|by exists fi].
      destruct Heq as [Hjc Hju]. rewrite Hjc, Hju in Hfi.
      assert (getFeed s c u = Some fi0) as Hfi0
        by (apply getFeed_Some; eauto).
      exists fi1. split_and!; congruence.
  - intros c u. by apply jobs_inv_start.
  - intros c u. by apply jobs_inv_stop.
  - intros order. by apply jobs_inv_start_all.
  - done.
Qed.

Lemma jobs_belong_to_active_feeds_witness :
  jobs_inv (removeFeed true two_feeds "chan" "u1").1
           (removeFeed_jobs true two_feeds
              (startFeedChecking_jobs any_schedule two_feeds ∅
                 [("chan", "u1"); ("chan", "u2")])
              "chan" "u1").
Proof.
  destruct (jobs_belong_to_active_feeds any_schedule two_feeds
              (startFeedChecking_jobs any_schedule two_feeds ∅
                 [("chan", "u1"); ("chan", "u2")]))
    as (_ & Hremove & _).
  - apply jobs_inv_start_all. apply map_Forall_empty.
  - apply Hremove.
Defined.

Section start_all.
Implicit Types (s : RSSManager) (c u key : string)
  (jobs : gmap string CronJob) (sched : string → bool)
  (order : list (string * string)).

Lemma start_all_other_keys sched s jobs order key :
  Forall (λ cu, feedKey cu.1 cu.2 ≠ key) order →
  startFeedChecking_jobs sched s jobs order !! key = jobs !! key.
Proof.
  unfold startFeedChecking_jobs. intros Hkeys. revert jobs.
  induction Hkeys as [|[c u] order Hcu _ IH]; intros jobs; simpl; [done|].
  rewrite IH. by apply startFeedCheck_other.
Qed.

(** When no other pair of [order] has the key of [(c, u)], the loops leave
    under that key what [startFeedCheck c u] leaves. *)
Lemma start_all_own sched s jobs order c u :
  (c, u) ∈ order →
  (∀ c' u', (c', u') ∈ order → feedKey c' u' = feedKey c u →
            c' = c ∧ u' = u) →
  startFeedChecking_jobs sched s jobs order !! feedKey c u
  = startFeedCheck sched s jobs c u !! feedKey c u.
Proof.
  intros Hin Hinj. revert jobs.
  induction order as [|[c1 u1] order IH]; intros jobs;
    [by apply elem_of_nil in Hin|].
  change (startFeedChecking_jobs sched s jobs ((c1, u1) :: order))
    with (startFeedChecking_jobs sched s
            (startFeedCheck sched s jobs c1 u1) order).
  destruct (decide ((c, u) ∈ order)) as [Hrest|Hrest].
  - rewrite IH; [|done|].
    + rewrite !startFeedCheck_own. done.
    + intros c' u' Hin'. apply Hinj. by right.
  - apply elem_of_cons in Hin as [[= <- <-]|Hin]; [|done].
    apply start_all_other_keys.
    apply Forall_forall. intros [c' u'] Hin' Hkey. simpl in Hkey.
    destruct (Hinj c' u') as [-> ->]; [by right|done|done].
Qed.
End start_all.

(** X18.  [startFeedChecking], on a registry whose channel ids hold no
    hyphen, leaves one job for each active feed whose expression
    [cron.schedule] accepts, and no other: under a key there is a job
    exactly when the key is that of a registered, active feed with an
    accepted expression, and the job is the one of that feed, with the
    expression made from its interval. *)
Theorem startFeedChecking_jobs_are_active_feeds sched s order :
  enumerates s order →
  (∀ c u, (c, u) ∈ order → hyphen_free c = true) →
  ∀ key job,
    startFeedChecking_jobs sched s ∅ order !! key = Some job
    ↔ ∃ c u fi,
        key = feedKey c u ∧ getFeed s c u = Some fi ∧ active fi = true
        ∧ sched (cronExpression (intervalMinutes (interval fi))) = true
        ∧ job = mkCronJob c u (cronExpression (intervalMinutes (interval fi))).
Proof.
  intros Henum Hfree key job.
  assert (∀ c u fi, getFeed s c u = Some fi →
            startFeedChecking_jobs sched s ∅ order !! feedKey c u
            = if active fi
                 && sched (cronExpression (intervalMinutes (interval fi)))
              then Some (mkCronJob c u
                           (cronExpression (intervalMinutes (interval fi))))
              else None) as Hown.
  { intros c u fi Hfi. rewrite start_all_own.
    - by rewrite startFeedCheck_own, Hfi.
    - apply Henum. by eexists.
    - intros c' u' Hin' Hkey.
      apply (feedKey_inj c' u' c u); [by eapply Hfree | |done].
      eapply Hfree. apply Henum. by eexists. }
  split.
  - intros Hjob.
    assert (jobs_inv s (startFeedChecking_jobs sched s ∅ order)) as Hinv.
    { apply jobs_inv_start_all. apply map_Forall_empty. }
    destruct (Hinv key job Hjob) as (Hkey & fi & Hfi & Hact & Hexpr).
    exists (job_channel job), (job_url job), fi.
    rewrite Hkey, (Hown _ _ fi Hfi), Hact in Hjob. simpl in Hjob.
    destruct (sched _) eqn:Hsched; [|done].
    split_and!; [done..|]. destruct job. simpl in *. by rewrite Hexpr.
  - intros (c & u & fi & -> & Hfi & Hact & Hsched & ->).
    by rewrite (Hown c u fi Hfi), Hact, Hsched.
Qed.

Lemma startFeedChecking_jobs_are_active_feeds_witness :
  startFeedChecking_jobs short_schedule two_feeds ∅
    [("chan", "u1"); ("chan", "u2")] !! feedKey "chan" "u1"
  = Some (mkCronJob "chan" "u1" "*/15 * * * *").
Proof.
  apply (startFeedChecking_jobs_are_active_feeds short_schedule two_feeds
           [("chan", "u1"); ("chan", "u2")]).
  - intros c u. split.
    + intros Hin. apply (bool_decide_unpack _).
      repeat (apply elem_of_cons in Hin as [[= -> ->]|Hin]; [by vm_compute|]).
      by apply elem_of_nil in Hin.
    + unfold getFeed, two_feeds. simpl. intros [fi Hfi].
      destruct (decide (c = "chan")) as [->|Hc];
        [|by rewrite lookup_singleton_ne in Hfi].
      rewrite lookup_singleton_eq in Hfi. simpl in Hfi.
      destruct (decide (u = "u1")) as [->|Hu1]; [by left|].
      destruct (decide (u = "u2")) as [->|Hu2]; [by right; left|].
      rewrite lookup_insert_ne in Hfi by done.
      by rewrite lookup_singleton_ne in Hfi.
  - intros c u Hin.
    repeat (apply elem_of_cons in Hin as [[= -> ->]|Hin]; [done|]).
    by apply elem_of_nil in Hin.
  - exists "chan", "u1",
      (mkFeedInfo "u1" 900000 None JNull true (JStr "One") (JStr "")).
    by vm_compute.
Defined.

(** ** The command [newrss] *)

(** X19.  The interval part of [newrss]: the reply that the interval is too
    short is never given (the test before it has the same condition); an
    interval is passed on exactly for a whole number of minutes from 1 to
    1440, as that number times 60000, hence between one minute and one day
    in milliseconds; no interval is passed on exactly when the argument is
    missing.  A call that ends in a reply about the URL or the interval
    leaves the manager and the jobs as they were. *)
Theorem newrss_interval_bounds arg :
  newrss_interval arg ≠ inl ReplyTooShort
  ∧ (∀ n, newrss_interval arg = inr (Some n)
          ↔ ∃ m, arg = Some (Some m) ∧ (1 ≤ m ≤ 1440)%Z
                 ∧ n = (m * 60000)%Z)
  ∧ (∀ n, newrss_interval arg = inr (Some n) → (60000 ≤ n ≤ 86400000)%Z)
  ∧ (newrss_interval arg = inr None ↔ arg = None)
  ∧ ∀ urlValid sched validated w s jobs c u,
      match (newrss urlValid arg sched validated w s jobs c u).2 with
      | ReplyAdded _ | ReplyFailed _ => True
      | _ => (newrss urlValid arg sched validated w s jobs c u).1 = (s, jobs)
      end.
Proof.
  assert (∀ n, newrss_interval arg = inr (Some n)
               ↔ ∃ m, arg = Some (Some m) ∧ (1 ≤ m ≤ 1440)%Z
                      ∧ n = (m * 60000)%Z) as Hacc.
  { intros n. unfold newrss_interval. destruct arg as [[m|]|].
    - destruct (Z.ltb_spec m 1); [|destruct (Z.ltb_spec 1440 m)].
      + split; [done|]. intros (m' & [= <-] & ? & _). lia.
      + split; [done|]. intros (m' & [= <-] & ? & _). lia.
      + split.
        * intros [= <-]. exists m. split_and!; try done; lia.
        * intros (m' & [= <-] & _ & ->). do 2 f_equal. lia.
    - split; [done|]. by intros (m' & ? & _).
    - split; [done|]. by intros (m' & ? & _). }
  split_and!.
  - unfold newrss_interval. destruct arg as [[m|]|]; try done.
    destruct (Z.ltb_spec m 1); [done|]. by destruct (Z.ltb_spec 1440 m).
  - done.
  - intros n (m & _ & Hm & ->)%Hacc. lia.
  - unfold newrss_interval. destruct arg as [[m|]|]; [|done..].
    destruct (Z.ltb_spec m 1); [done|]. by destruct (Z.ltb_spec 1440 m).
  - intros urlValid sched validated w s jobs c u. unfold newrss.
    destruct urlValid; simpl; [|done].
    destruct (newrss_interval arg) as [reply|interval] eqn:Hi; simpl.
    + by destruct reply.
    + by destruct (addFeed validated w s c u interval).2.
Qed.

(** X20.  The minutes given to [newrss] reach the record, the cron
    expression and the list: when [newrss] with [m] minutes answers that
    the feed was added, [m] is between 1 and 1440, the interval of the new
    record is [m] minutes in milliseconds, the cron job of the feed, if
    [cron.schedule] accepts the expression, was scheduled with
    [*/m * * * *], and [listrss] shows an interval of [m] minutes. *)
Theorem newrss_minutes_round_trip urlValid m sched validated w s jobs c u fd :
  (newrss urlValid (Some (Some m)) sched validated w s jobs c u).2
  = ReplyAdded fd →
  (1 ≤ m ≤ 1440)%Z
  ∧ getFeed (newrss urlValid (Some (Some m)) sched validated w s jobs c u).1.1
            c u = Some fd
  ∧ interval fd = (m * 60000)%Z
  ∧ IntervalText_minutes (intervalText (interval fd)) = m
  ∧ (newrss urlValid (Some (Some m)) sched validated w s jobs c u).1.2
      !! feedKey c u
    = (if sched ("*/" +:+ pretty m +:+ " * * * *")
       then Some (mkCronJob c u ("*/" +:+ pretty m +:+ " * * * *"))
       else None).
Proof.
  unfold newrss. destruct urlValid; simpl; [|done].
  unfold newrss_interval.
  destruct (Z.ltb_spec m 1) as [|Hm1]; [done|].
  destruct (Z.ltb_spec 1440 m) as [|Hm2]; [done|]. simpl.
  unfold addFeed_jobs.
  destruct (addFeed validated w s c u (Some (m * 60 * 1000)%Z))
    as [s' r] eqn:Hadd. simpl.
  destruct r as [fd'|e| | |]; try done. intros [= ->].
  assert ((addFeed validated w s c u (Some (m * 60 * 1000)%Z)).2 = AddOk fd)
    as Hok by (by rewrite Hadd).
  pose proof Hok as (feed & _ & _ & _ & _ & Hfd & Hfeeds & _)%addFeed_AddOk.
  pose proof (getFeed_insert s _ c u fd c u Hfeeds) as Hreg.
  rewrite decide_True in Hreg by done.
  rewrite Hadd in Hreg. simpl in Hreg.
  assert (interval fd = (m * 60000)%Z) as Hint.
  { rewrite Hfd. simpl. unfold num_or.
    destruct (Z.eqb_spec (m * 60 * 1000) 0); lia. }
  assert (intervalMinutes (interval fd) = m) as Hmin.
  { rewrite Hint. unfold intervalMinutes. rewrite Z.div_mul by done. lia. }
  split_and!; [lia|done..| |].
  - rewrite Hint. unfold intervalText. rewrite Z.div_mul by done.
    destruct (Z.leb_spec 60 m); simpl; [|done].
    rewrite Z.rem_mod_nonneg by lia.
    pose proof (Z.div_mod m 60). lia.
  - rewrite startFeedCheck_own, Hreg.
    assert (active fd = true) as -> by (by rewrite Hfd).
    by rewrite Hmin.
Qed.

Lemma newrss_minutes_round_trip_witness :
  getFeed (newrss true (Some (Some 15%Z)) any_schedule
                  (Valid (sample_feed ["A"])) true
                  (sample_channel nine_urls) ∅ "chan" "u10").1.1
          "chan" "u10"
  = Some (mkFeedInfo "u10" 900000 None JNull true (JStr "Example")
                     (JStr "An example feed"))
  ∧ (newrss true (Some (Some 15%Z)) any_schedule
            (Valid (sample_feed ["A"])) true
            (sample_channel nine_urls) ∅ "chan" "u10").1.2
      !! feedKey "chan" "u10" = Some (mkCronJob "chan" "u10" "*/15 * * * *").
Proof.
  destruct (newrss_minutes_round_trip true 15 any_schedule
              (Valid (sample_feed ["A"])) true (sample_channel nine_urls) ∅
              "chan" "u10"
              (mkFeedInfo "u10" 900000 None JNull true (JStr "Example")
                          (JStr "An example feed")))
    as (_ & Hreg & _ & _ & Hjob); [by vm_compute|].
  split; [exact Hreg | exact Hjob].
Defined.

(** ** Texts *)

Section texts.
Implicit Types (t a b : string) (text : jsval) (n : nat).

Lemma length_append a b :
  String.length (a +:+ b) = String.length a + String.length b.
Proof. induction a as [|x a IH]; simpl; [done | by rewrite IH]. Qed.

Lemma length_substring0 n t :
  String.length (String.substring 0 n t) = min n (String.length t).
Proof.
  revert t. induction n as [|n IH]; intros [|x t]; simpl; try done.
  by rewrite IH.
Qed.

Lemma truthy_JStr text : truthy text = true → ∃ t, text = JStr t ∧ t ≠ "".
Proof.
  destruct text as [| |t]; simpl; [done..|].
  destruct (String.eqb_spec t ""); [done|]. eauto.
Qed.

Lemma truncateDescription_long t maxLength :
  t ≠ "" → (maxLength < Z.of_nat (String.length t))%Z →
  truncateDescription (JStr t) maxLength
  = js_substring0 (maxLength - 3) t +:+ "...".
Proof.
  intros Ht Hlen. unfold truncateDescription. simpl.
  destruct (String.eqb_spec t ""); [done|]. simpl.
  destruct (Z.leb_spec (Z.of_nat (String.length t)) maxLength); [lia|done].
Qed.

Lemma truncateDescription_short t maxLength :
  t ≠ "" → (Z.of_nat (String.length t) ≤ maxLength)%Z →
  truncateDescription (JStr t) maxLength = t.
Proof.
  intros Ht Hlen. unfold truncateDescription. simpl.
  destruct (String.eqb_spec t ""); [done|]. simpl.
  destruct (Z.leb_spec (Z.of_nat (String.length t)) maxLength); [done|lia].
Qed.

Lemma truncateText_long t maxLength :
  t ≠ "" → (maxLength < Z.of_nat (String.length t))%Z →
  truncateText (JStr t) maxLength = js_substring0 (maxLength - 3) t +:+ "...".
Proof.
  intros Ht Hlen. unfold truncateText. simpl.
  destruct (String.eqb_spec t ""); [done|]. simpl.
  destruct (Z.leb_spec (Z.of_nat (String.length t)) maxLength); [lia|done].
Qed.

Lemma truncateText_short t maxLength :
  t ≠ "" → (Z.of_nat (String.length t) ≤ maxLength)%Z →
  truncateText (JStr t) maxLength = t.
Proof.
  intros Ht Hlen. unfold truncateText. simpl.
  destruct (String.eqb_spec t ""); [done|]. simpl.
  destruct (Z.leb_spec (Z.of_nat (String.length t)) maxLength); [done|lia].
Qed.

Lemma truncateText_falsy text maxLength :
  truthy text = false → truncateText text maxLength = "No title".
Proof.
  destruct text as [| |t]; simpl; [done..|]. unfold truncateText. simpl.
  by destruct (String.eqb_spec t "").
Qed.

(** The length of a text cut to [maxLength - 3] code units and three
    dots. *)
Lemma length_cut t maxLength :
  (3 ≤ maxLength)%Z → (maxLength < Z.of_nat (String.length t))%Z →
  Z.of_nat (String.length (js_substring0 (maxLength - 3) t +:+ "..."))
  = maxLength.
Proof.
  intros H3 Hlen. unfold js_substring0.
  rewrite length_append, length_substring0. simpl. lia.
Qed.

Lemma length_nonempty t : t ≠ "" → 0 < String.length t.
Proof. destruct t; simpl; [done|lia]. Qed.
End texts.

(** X21.  [truncateDescription] of a non-empty text and a [maxLength] of at
    least 3 never gives more than [maxLength] code units: a text that fits
    is returned as it is, a longer one is cut to its first [maxLength - 3]
    code units followed by three dots, [maxLength] code units in all.
    With a [maxLength] below 3 a text that does not fit becomes the three
    dots alone.  The description [postFeedItem] gives to an embed is never
    empty and never longer than 2048 code units. *)
Theorem truncateDescription_bound text maxLength :
  truthy text = true →
  ((3 ≤ maxLength)%Z →
   (Z.of_nat (String.length (truncateDescription text maxLength))
    ≤ maxLength)%Z)
  ∧ (∀ t, text = JStr t →
       (Z.of_nat (String.length t) ≤ maxLength)%Z →
       truncateDescription text maxLength = t)
  ∧ (∀ t, text = JStr t →
       (maxLength < Z.of_nat (String.length t))%Z →
       truncateDescription text maxLength
       = String.substring 0 (Z.to_nat (maxLength - 3)) t +:+ "..."
       ∧ ((3 ≤ maxLength)%Z →
          Z.of_nat (String.length (truncateDescription text maxLength))
          = maxLength)
       ∧ ((maxLength < 3)%Z → truncateDescription text maxLength = "..."))
  ∧ ∀ contentSnippet description,
      0 < String.length (embedDescription contentSnippet description) ≤ 2048.
Proof.
  intros (t & -> & Ht)%truthy_JStr. split_and!.
  - intros H3.
    destruct (Z.le_gt_cases (Z.of_nat (String.length t)) maxLength).
    + by rewrite truncateDescription_short.
    + rewrite truncateDescription_long by (done || lia).
      rewrite length_cut by lia. lia.
  - intros t' [= <-] Hlen. by apply truncateDescription_short.
  - intros t' [= <-] Hlen.
    rewrite truncateDescription_long by done. split_and!; [done| |].
    + intros H3. by apply length_cut.
    + intros H3. unfold js_substring0.
      replace (Z.to_nat (maxLength - 3)) with 0 by lia. by destruct t.
  - intros contentSnippet description. unfold embedDescription.
    assert (truthy (js_or (js_or contentSnippet description)
                          (JStr "No description available")) = true)
      as (t' & -> & Ht')%truthy_JStr by (by apply js_or_truthy).
    destruct (Z.le_gt_cases (Z.of_nat (String.length t')) 2048).
    + rewrite truncateDescription_short by done.
      pose proof (length_nonempty t' Ht'). lia.
    + rewrite truncateDescription_long by done.
      pose proof (length_cut t' 2048 ltac:(lia) ltac:(lia)). lia.
Qed.

Lemma truncateDescription_bound_witness :
  truncateDescription (JStr "A feed item with a long description") 20
  = "A feed item with ..."
  ∧ Z.of_nat (String.length
                (truncateDescription
                   (JStr "A feed item with a long description") 20))
    = 20%Z.
Proof.
  destruct (truncateDescription_bound
              (JStr "A feed item with a long description") 20)
    as (_ & _ & Hlong & _); [reflexivity|].
  destruct (Hlong "A feed item with a long description")
    as (Hcut & Hlen & _); [reflexivity | reflexivity |].
  split; [exact Hcut | by apply Hlen].
Defined.

(** X22.  The title [listrss] shows for a feed is never empty and never
    longer than 50 code units, and the description it shows, if any, is
    never empty and never longer than 100: [truncateText] returns a text
    that fits as it is, cuts a longer one to [maxLength - 3] code units and
    three dots, and replaces a missing or empty one by ["No title"]. *)
Theorem listrss_texts_fit now i feed :
  0 < String.length (field_title (listrss_field now i feed)) ≤ 50
  ∧ (∀ d, field_description (listrss_field now i feed) = Some d →
          0 < String.length d ≤ 100)
  ∧ (truthy (l_title feed) = false →
     field_title (listrss_field now i feed) = "No title")
  ∧ (∀ t, l_title feed = JStr t → 0 < String.length t ≤ 50 →
          field_title (listrss_field now i feed) = t)
  ∧ (truthy (l_description feed) = false →
     field_description (listrss_field now i feed) = None).
Proof.
  assert (∀ text maxLength,
            (8 ≤ maxLength)%Z →
            (0 < Z.of_nat (String.length (truncateText text maxLength))
             ≤ maxLength)%Z) as Hfit.
  { intros text maxLength H8. destruct (truthy text) eqn:Htruthy.
    - apply truthy_JStr in Htruthy as (t & -> & Ht).
      destruct (Z.le_gt_cases (Z.of_nat (String.length t)) maxLength).
      + rewrite truncateText_short by done.
        pose proof (length_nonempty t Ht). lia.
      + rewrite truncateText_long by done.
        rewrite length_cut by lia. lia.
    - rewrite truncateText_falsy by done. simpl. lia. }
  unfold listrss_field. simpl. split_and!.
  - specialize (Hfit (l_title feed) 50%Z). lia.
  - specialize (Hfit (l_title feed) 50%Z). lia.
  - intros d. destruct (truthy (l_description feed)); [|done].
    intros [= <-]. specialize (Hfit (l_description feed) 100%Z). lia.
  - apply truncateText_falsy.
  - intros t -> [Hpos Hlen]. apply truncateText_short; [|lia].
    intros ->. simpl in Hpos. lia.
  - by intros ->.
Qed.

Lemma listrss_texts_fit_witness :
  field_title (listrss_field 0 0
                 (mkFeedListing "u" JUndefined (JStr "") true None 300000))
  = "No title"
  ∧ field_description (listrss_field 0 0
                         (mkFeedListing "u" JUndefined (JStr "") true None
                                        300000))
    = None.
Proof.
  destruct (listrss_texts_fit 0 0
              (mkFeedListing "u" JUndefined (JStr "") true None 300000))
    as (_ & _ & Htitle & _ & Hdescr).
  split; [by apply Htitle | by apply Hdescr].
Defined.

(** ** Times and intervals *)

(** X23.  [formatTimeDifference] shows a non-negative difference rounded
    down to the unit of the finest number it shows: days and hours (at
    least one day, hours below 24), hours and minutes (1 to 23 hours,
    minutes below 60), minutes (1 to 59) or seconds (0 to 59), the value
    shown being at most the difference and less than one unit below it.  A
    negative difference is shown as a negative number of seconds. *)
Theorem formatTimeDifference_rounds_down timeDiff :
  ((0 ≤ timeDiff)%Z →
   (TimeAgo_ms (timeAgo timeDiff) ≤ timeDiff
    < TimeAgo_ms (timeAgo timeDiff) + TimeAgo_unit (timeAgo timeDiff))%Z
   ∧ match timeAgo timeDiff with
     | AgoDays d h => (1 ≤ d ∧ 0 ≤ h < 24)%Z
     | AgoHours h m => (1 ≤ h < 24 ∧ 0 ≤ m < 60)%Z
     | AgoMinutes m => (1 ≤ m < 60)%Z
     | AgoSeconds sec => (0 ≤ sec < 60)%Z
     end)
  ∧ ((timeDiff < 0)%Z →
     ∃ sec, timeAgo timeDiff = AgoSeconds sec ∧ (sec < 0)%Z
            ∧ (sec * 1000 ≤ timeDiff < sec * 1000 + 1000)%Z)
  ∧ formatTimeDifference timeDiff = render_TimeAgo (timeAgo timeDiff).
Proof.
  split_and!; [| |done].
  - intros Hpos. unfold timeAgo.
    repeat (match goal with
            | |- context [Z.ltb ?a ?b] => destruct (Z.ltb_spec a b)
            end); simpl;
      Z.to_euclidean_division_equations; lia.
  - intros Hneg. exists (timeDiff / 1000)%Z. unfold timeAgo.
    repeat (match goal with
            | |- context [Z.ltb ?a ?b] => destruct (Z.ltb_spec a b)
            end); simpl;
      split_and!; try done;
      Z.to_euclidean_division_equations; lia.
Qed.

Lemma formatTimeDifference_rounds_down_witness :
  timeAgo 93784000 = AgoDays 1 2
  ∧ formatTimeDifference 93784000 = "1d 2h ago"
  ∧ (TimeAgo_ms (timeAgo 93784000) ≤ 93784000
     < TimeAgo_ms (timeAgo 93784000) + TimeAgo_unit (timeAgo 93784000))%Z.
Proof.
  destruct (formatTimeDifference_rounds_down 93784000) as ([Hb _] & _ & _);
    [done|].
  split_and!; [reflexivity | reflexivity | apply Hb | apply Hb].
Defined.

(** X24.  The interval [listrss] shows is the interval of the feed in whole
    minutes, rounded down: as minutes alone below one hour, and otherwise
    as hours (at least one) and minutes below 60 that add up to it. *)
Theorem intervalText_minutes interval :
  IntervalText_minutes (intervalText interval) = (interval / 60000)%Z
  ∧ match intervalText interval with
    | IntervalHours h m => (1 ≤ h ∧ 0 ≤ m < 60)%Z
    | IntervalMinutes m => (m < 60)%Z
    end.
Proof.
  unfold intervalText.
  destruct (Z.leb_spec 60 (interval / 60000)); simpl;
    Z.to_euclidean_division_equations; lia.
Qed.

(** ** The command [listrss] *)

Section listing.
Implicit Types (s : RSSManager) (c u : string) (listed : list FeedListing).

Lemma length_getChannelFeeds s c :
  length (getChannelFeeds s c) = size (default ∅ (feeds s !! c)).
Proof.
  unfold getChannelFeeds. destruct (feeds s !! c) as [cf|]; simpl.
  - by rewrite length_fmap, length_map_to_list.
  - by rewrite map_size_empty.
Qed.

Lemma elem_of_getChannelFeeds s c listing :
  listing ∈ getChannelFeeds s c
  ↔ ∃ fi, getFeed s c (l_url listing) = Some fi
          ∧ listing = mkFeedListing (l_url listing) (title fi)
                        (description fi) (active fi) (lastChecked fi)
                        (interval fi).
Proof.
  unfold getChannelFeeds, getFeed.
  destruct (feeds s !! c) as [cf|]; simpl.
  - rewrite list_elem_of_fmap. split.
    + intros ([u fi] & -> & Hin%elem_of_map_to_list). simpl. eauto.
    + intros (fi & Hu & Hl). exists (l_url listing, fi).
      split; [done | by apply elem_of_map_to_list].
  - split; [by intros ?%elem_of_nil | by intros (? & ? & _)].
Qed.

Lemma NoDup_getChannelFeeds s c : NoDup (l_url <$> getChannelFeeds s c).
Proof.
  unfold getChannelFeeds. destruct (feeds s !! c) as [cf|]; simpl.
  - rewrite <- list_fmap_compose.
    erewrite list_fmap_ext; [apply NoDup_fst_map_to_list|].
    by intros ? [??] ?.
  - constructor.
Qed.

(** No feed is registered under the channel exactly when its map is
    missing or empty. *)
Lemma no_feed_size s c :
  (∀ u, getFeed s c u = None) ↔ size (default ∅ (feeds s !! c)) = 0.
Proof.
  unfold getFeed. destruct (feeds s !! c) as [cf|]; simpl.
  - rewrite map_size_empty_iff. split.
    + intros Hnone. apply map_empty. intros u. apply Hnone.
    + intros -> u. apply lookup_empty.
  - by rewrite map_size_empty.
Qed.

Lemma forallb_true_lookup {A} (f : A → bool) (l : list A) :
  forallb f l = true ↔ ∀ i x, l !! i = Some x → f x = true.
Proof.
  induction l as [|a l IH]; simpl.
  - split; [by intros _ i x ?|done].
  - rewrite andb_true_iff, IH. split.
    + intros [Ha Hl] [|i] x; simpl; [by intros [= <-] | by apply Hl].
    + intros Hall. split; [by apply (Hall 0)|].
      intros i x Hi. by apply (Hall (S i)).
Qed.

Lemma forallb_false_lookup {A} (f : A → bool) (l : list A) :
  forallb f l = false ↔ ∃ i x, l !! i = Some x ∧ f x = false.
Proof.
  induction l as [|a l IH]; simpl.
  - split; [done | by intros (i & x & ? & _)].
  - rewrite andb_false_iff, IH. split.
    + intros [Ha | (i & x & Hi & Hx)]; [by exists 0, a | by exists (S i), x].
    + intros ([|i] & x & Hi & Hx); simpl in Hi.
      * left. congruence.
      * right. by exists i, x.
Qed.

(** The fields of the loop, one by one. *)
Lemma listrss_fields_lookup now listed k i :
  imap (λ i, listrss_field (now i) i) (take k listed) !! i
  = if decide (i < k) then listrss_field (now i) i <$> listed !! i else None.
Proof.
  rewrite list_lookup_imap. case_decide.
  - by rewrite lookup_take_lt.
  - by rewrite lookup_take_ge by lia.
Qed.
End listing.

(** X25.  [listrss], from the array [listed] that [getChannelFeeds]
    returned, whatever its order, answers that no feed is configured
    exactly when no feed is registered for the channel.  It answers with
    the error embed exactly when there is a feed and the embed builder
    refuses the field of one of the first 25.  Otherwise it shows the
    number of feeds of the channel and one field for each of the first 25
    feeds of the array at most: the fields are numbered from 1, each shows
    the record of a registered feed of the channel, no feed is shown
    twice, and the footer says that the first 25 are shown exactly when
    there are more than 25; when no channel holds more than a cap of at
    most 25 feeds, every feed of the channel is shown. *)
Theorem listrss_shows_feeds accepts now s c listed :
  listed ≡ₚ getChannelFeeds s c →
  (listrss accepts now listed = ListNoFeeds ↔ ∀ u, getFeed s c u = None)
  ∧ (listrss accepts now listed = ListError
     ↔ listed ≠ []
       ∧ ∃ i feed, i < 25 ∧ listed !! i = Some feed
                   ∧ accepts (listrss_field (now i) i feed) = false)
  ∧ ∀ count fields footer,
      listrss accepts now listed = ListFeeds count fields footer →
      count = size (default ∅ (feeds s !! c))
      ∧ length fields = min count 25
      ∧ (∀ i field, fields !! i = Some field →
           field_number field = i + 1
           ∧ accepts field = true
           ∧ listrss_field (now i) i <$> listed !! i = Some field
           ∧ ∃ fi, getFeed s c (field_url field) = Some fi
                   ∧ field
                     = listrss_field (now i) i
                         (mkFeedListing (field_url field) (title fi)
                            (description fi) (active fi) (lastChecked fi)
                            (interval fi)))
      ∧ NoDup (field_url <$> fields)
      ∧ footer = (if bool_decide (25 < count) then FooterFirst25 count
                  else FooterRemoveHint)
      ∧ (capacity_inv s → maxFeedsPerChannel (config s) ≤ 25 →
         length fields = count ∧ footer = FooterRemoveHint).
Proof.
  intros Hperm.
  assert (length listed = size (default ∅ (feeds s !! c))) as Hsize
    by (by rewrite Hperm, length_getChannelFeeds).
  set (fields0 := imap (λ i, listrss_field (now i) i)
                       (take (length listed `min` 25) listed)).
  assert (length fields0 = length listed `min` 25) as Hlen0
    by (unfold fields0; rewrite length_imap, length_take; lia).
  assert (forallb accepts fields0 = false
          ↔ ∃ i feed, i < 25 ∧ listed !! i = Some feed
                      ∧ accepts (listrss_field (now i) i feed) = false)
    as Hrefused.
  { rewrite forallb_false_lookup. split.
    - intros (i & field & Hi & Hrej).
      unfold fields0 in Hi. rewrite listrss_fields_lookup in Hi.
      destruct (decide (i < length listed `min` 25)) as [Hlt|]; [|done].
      destruct (listed !! i) as [feed|] eqn:Hfeed; [|done].
      injection Hi as <-. exists i, feed.
      split_and!; [lia | done | done].
    - intros (i & feed & Hi & Hfeed & Hrej).
      exists i, (listrss_field (now i) i feed). split; [|done].
      apply lookup_lt_Some in Hfeed as Hlt.
      unfold fields0. rewrite listrss_fields_lookup, decide_True by lia.
      by rewrite Hfeed. }
  unfold listrss. fold fields0. split_and!.
  - rewrite no_feed_size, <- Hsize. case_bool_decide; [done|].
    split; [by destruct (forallb accepts fields0) | done].
  - case_bool_decide as Hnil.
    + split; [done|]. intros [Hne _]. by apply nil_length_inv in Hnil.
    + destruct (forallb accepts fields0) eqn:Hall.
      * split; [done|]. intros [_ Hrej]. apply Hrefused in Hrej. done.
      * split; [|done]. intros _. split; [|by apply Hrefused].
        intros ->. done.
  - intros count fields footer. case_bool_decide as Hnil; [done|].
    destruct (forallb accepts fields0) eqn:Hall; [|done].
    intros [= <- <- <-]. rewrite <- Hsize.
    split_and!; [done | done | | | done |].
    + intros i field Hi.
      pose proof Hi as Hi'.
      unfold fields0 in Hi'. rewrite listrss_fields_lookup in Hi'.
      destruct (decide (i < length listed `min` 25)) as [Hlt|]; [|done].
      destruct (listed !! i) as [feed|] eqn:Hfeed; [|done].
      injection Hi' as <-. split_and!; [done| |done|].
      * rewrite forallb_true_lookup in Hall. by apply (Hall i).
      * assert (feed ∈ getChannelFeeds s c) as Hin.
        { rewrite <- Hperm. by eapply list_elem_of_lookup_2. }
        apply elem_of_getChannelFeeds in Hin as (fi & Hfi & Hfeed').
        exists fi. split; [done|]. simpl. by rewrite <- Hfeed'.
    + unfold fields0. rewrite fmap_imap.
      rewrite (imap_ext _ (const l_url)) by done.
      rewrite imap_const.
      assert (NoDup (l_url <$> listed)) as Hnd
        by (rewrite Hperm; apply NoDup_getChannelFeeds).
      rewrite <- (take_drop (length listed `min` 25) listed) in Hnd.
      rewrite fmap_app in Hnd. by apply NoDup_app in Hnd as [Hnd _].
    + intros [Hcap _] Hmax.
      assert (length listed ≤ 25) as Hle.
      { rewrite Hsize. destruct (feeds s !! c) as [cf|] eqn:Hc; simpl.
        - specialize (Hcap c cf Hc). simpl in Hcap. lia.
        - rewrite map_size_empty. lia. }
      split; [lia|]. by rewrite bool_decide_eq_false_2 by lia.
Qed.

Lemma listrss_shows_feeds_witness :
  listrss short_urls (λ _, 5000%Z) (getChannelFeeds (sample_channel nine_urls)
                                                    "nowhere")
  = ListNoFeeds
  ∧ (∀ count fields footer,
       listrss short_urls (λ _, 5000%Z)
               (getChannelFeeds (sample_channel nine_urls) "chan")
       = ListFeeds count fields footer →
       count = 9 ∧ length fields = 9 ∧ footer = FooterRemoveHint).
Proof.
  destruct (listrss_shows_feeds short_urls (λ _, 5000%Z)
              (sample_channel nine_urls) "nowhere"
              (getChannelFeeds (sample_channel nine_urls) "nowhere"))
    as [Hnone _]; [done|].
  destruct (listrss_shows_feeds short_urls (λ _, 5000%Z)
              (sample_channel nine_urls) "chan"
              (getChannelFeeds (sample_channel nine_urls) "chan"))
    as (_ & _ & Hsome); [done|].
  split; [apply Hnone; intros u; by vm_compute|].
  intros count fields footer Hl.
  destruct (Hsome count fields footer Hl) as (Hcount & _ & _ & _ & _ & Hall).
  assert (count = 9) as -> by (rewrite Hcount; by vm_compute).
  destruct Hall as [Hlen Hfooter]; [|vm_compute; lia|done].
  split; apply (bool_decide_unpack _); by vm_compute.
Defined.

(** ** The logger *)



(** ** The command [ping] *)

(** X27.  The connection quality of [ping] is decided by the worse of the
    two latencies: poor above 1000 ms, fair above 500, good above 200 and
    excellent otherwise, with the colour of that quality; and it never gets
    better when a latency gets worse. *)
Theorem connectionQuality_by_worst_latency botLatency apiLatency :
  (connectionQuality botLatency apiLatency).1
  = quality_of (Z.max botLatency apiLatency)
  ∧ (connectionQuality botLatency apiLatency).2
    = match quality_of (Z.max botLatency apiLatency) with
      | Excellent => 65280%Z
      | Good => 16776960%Z
      | Fair => 16744448%Z
      | Poor => 16711680%Z
      end
  ∧ ∀ botLatency' apiLatency',
      (botLatency ≤ botLatency')%Z → (apiLatency ≤ apiLatency')%Z →
      quality_rank (connectionQuality botLatency apiLatency).1
      ≤ quality_rank (connectionQuality botLatency' apiLatency').1.
Proof.
  assert (∀ b a, connectionQuality b a
                 = (quality_of (Z.max b a),
                    match quality_of (Z.max b a) with
                    | Excellent => 65280%Z
                    | Good => 16776960%Z
                    | Fair => 16744448%Z
                    | Poor => 16711680%Z
                    end)) as Hq.
  { intros b a. unfold connectionQuality, quality_of.
    repeat (match goal with
            | |- context [Z.ltb ?x ?y] => destruct (Z.ltb_spec x y)
            end); simpl; try done; lia. }
  rewrite Hq. split_and!; [done..|].
  intros b' a' Hb Ha. rewrite Hq. simpl. unfold quality_of.
  repeat (match goal with
          | |- context [Z.ltb ?x ?y] => destruct (Z.ltb_spec x y)
          end); simpl; lia.
Qed.

Lemma connectionQuality_by_worst_latency_witness :
  (connectionQuality 120 640).1 = Fair
  ∧ quality_rank (connectionQuality 120 640).1
    ≤ quality_rank (connectionQuality 130 1200).1.
Proof.
  destruct (connectionQuality_by_worst_latency 120 640) as (Hq & _ & Hmono).
  split; [exact Hq | apply Hmono; lia].
Defined.
